(** * LogTide: streaming notifications, ingestion schema, queue supervisor

    A shallow embedding of the parts of the LogTide backend that turn an
    ingested batch into channel notifications and dispatch them to live
    subscribers, together with the ingestion schema, the queue supervisor's
    caches and connection options, and the incident correlator. After
    them come the worker adapters of the two queue backends, the shared
    helpers for MITRE ids, relative times and severities, the filter of
    private addresses, the upsert of traces and the onboarding store.

    Conventions of the embedding:
    - a JavaScript string is a [string]; [String.length] is its [.length];
    - a JavaScript number that the code only uses as a small non-negative
      integer (lengths, indices, counters) is a [nat]; millisecond delays
      are in [Z];
    - a [Map] is an association list in insertion order ([Map.set] on a key
      that is present keeps its position);
    - effects (channel messages, console lines, timers, emitted events) are
      recorded in the state that the operations thread. *)

From Stdlib Require Import List String Ascii Bool Arith ZArith Lia Permutation.
From Stdlib Require QArith Qminmax Lqa DecimalString.
Import ListNotations.

Local Open Scope string_scope.
Local Open Scope list_scope.
Local Open Scope nat_scope.
Set Warnings "-abstract-large-number,-register-all".

(** ** JavaScript helpers shared by the modules *)

Module JS.

(** [Array.prototype.slice(a, b)] for [0 <= a <= b]. *)
Definition slice {A : Type} (l : list A) (a b : nat) : list A :=
  firstn (b - a) (skipn a l).

(** [Math.ceil(n / d)] on non-negative integers, [d > 0]. *)
Definition ceil_div (n d : nat) : nat := (n + d - 1) / d.

(** [String.prototype.startsWith]. *)
Fixpoint startsWith (s sub : string) : bool :=
  match sub, s with
  | EmptyString, _ => true
  | String _ _, EmptyString => false
  | String c sub', String d s' => Ascii.eqb c d && startsWith s' sub'
  end.

(** [String.prototype.includes]. *)
Fixpoint includes (s sub : string) : bool :=
  startsWith s sub ||
  match s with
  | EmptyString => false
  | String _ s' => includes s' sub
  end.

(** A JavaScript value as the modelled code inspects it. Numbers are never
    inspected, so their carrier does not matter; a [Date] carries its time
    value, [None] for an invalid date. Objects list their own properties. *)
Inductive Value :=
| VUndefined
| VNull
| VBool (b : bool)
| VNumber (n : Z)
| VString (s : string)
| VArray (items : list Value)
| VObject (fields : list (string * Value))
| VDate (time : option Z).

Fixpoint lookup {A : Type} (key : string) (fields : list (string * A))
  : option A :=
  match fields with
  | [] => None
  | (k, v) :: rest => if String.eqb key k then Some v else lookup key rest
  end.

(** [v[key]] for a key that only plain objects of the model carry: [None]
    is the [TypeError] of reading a property of [null] or [undefined]. *)
Definition get_prop (v : Value) (key : string) : option Value :=
  match v with
  | VUndefined | VNull => None
  | VObject fields =>
      match lookup key fields with
      | Some x => Some x
      | None => Some VUndefined
      end
  | _ => Some VUndefined
  end.

(** [s === v] for a string [s]. *)
Definition strict_eq_string (s : string) (v : Value) : bool :=
  match v with
  | VString t => String.eqb s t
  | _ => false
  end.

(** *** [Map] *)

(** [Map.prototype.set]: the value of a present key is replaced where it
    stands, a new key goes last. *)
Fixpoint map_set {A : Type} (key : string) (v : A)
  (m : list (string * A)) : list (string * A) :=
  match m with
  | [] => [(key, v)]
  | (k, x) :: rest =>
      if String.eqb key k then (k, v) :: rest
      else (k, x) :: map_set key v rest
  end.

(** [Map.prototype.has]. *)
Definition map_has {A : Type} (key : string) (m : list (string * A)) : bool :=
  match lookup key m with
  | Some _ => true
  | None => false
  end.

(** [Map.prototype.delete], without its result (see [map_has]). *)
Fixpoint map_delete {A : Type} (key : string) (m : list (string * A))
  : list (string * A) :=
  match m with
  | [] => []
  | (k, x) :: rest =>
      if String.eqb key k then rest else (k, x) :: map_delete key rest
  end.

Definition map_values {A : Type} (m : list (string * A)) : list A :=
  map snd m.

Definition map_keys {A : Type} (m : list (string * A)) : list string :=
  map fst m.


Lemma slice_step {A : Type} (l : list A) (i d : nat) :
  slice l i (i + d) = firstn d (skipn i l).
Proof. unfold slice. replace (i + d - i) with d by lia. reflexivity. Qed.

Lemma skipn_add {A : Type} (a b : nat) (l : list A) :
  skipn (a + b) l = skipn b (skipn a l).
Proof.
  revert l. induction a as [|a IH]; intros l; [reflexivity|].
  destruct l as [|x l]; simpl.
  - now rewrite skipn_nil.
  - apply IH.
Qed.

Lemma startsWith_app (p s : string) :
  startsWith s p = true <-> exists post, s = (p ++ post)%string.
Proof.
  revert s. induction p as [|c p IH]; intros s.
  - destruct s; simpl; (split; [intros _; eexists; reflexivity | reflexivity]).
  - destruct s as [|d s]; simpl.
    + split; [discriminate | intros [post H]; discriminate].
    + rewrite andb_true_iff, Ascii.eqb_eq, IH. split.
      * intros [-> [post ->]]. now exists post.
      * intros [post H]. inversion H. split; [reflexivity | now exists post].
Qed.

(** [includes] decides the existence of an occurrence. *)
Lemma includes_spec (s sub : string) :
  includes s sub = true <-> exists pre post, s = (pre ++ sub ++ post)%string.
Proof.
  induction s as [|c s IH]; cbn [includes].
  - rewrite orb_false_r, startsWith_app. split.
    + intros [post H]. now exists "", post.
    + intros [pre [post H]]. destruct pre; [now exists post | discriminate].
  - rewrite orb_true_iff, IH, startsWith_app. split.
    + intros [[post H] | [pre [post H]]].
      * now exists "", post.
      * exists (String c pre), post. simpl. now rewrite H.
    + intros [pre [post H]]. destruct pre as [|d pre]; simpl in H.
      * left. now exists post.
      * right. inversion H. now exists pre, post.
Qed.

Section MapLemmas.

Context {A : Type}.
Implicit Types (m : list (string * A)) (k i : string) (v : A).

Lemma lookup_in_keys k m :
  In k (map_keys m) <-> exists v, lookup k m = Some v.
Proof.
  unfold map_keys. induction m as [|[k' x] m IH]; cbn.
  - split; [tauto | intros [v H]; discriminate].
  - destruct (String.eqb_spec k k') as [->|Hne].
    + split; [intros _; now exists x | auto].
    + rewrite <- IH. split; [intros [H|H]; [congruence | exact H] | auto].
Qed.

Lemma lookup_not_in_keys k m :
  ~ In k (map_keys m) <-> lookup k m = None.
Proof.
  rewrite lookup_in_keys. destruct (lookup k m) as [v|].
  - split; [intros H; exfalso; apply H; now exists v | discriminate].
  - split; [reflexivity | intros _ [v H]; discriminate].
Qed.

Lemma map_set_lookup_same k v m : lookup k (map_set k v m) = Some v.
Proof.
  unfold map_keys. induction m as [|[k' x] m IH]; cbn.
  - now rewrite String.eqb_refl.
  - destruct (String.eqb_spec k k') as [->|Hne]; cbn.
    + now rewrite String.eqb_refl.
    + destruct (String.eqb_spec k k'); [contradiction | exact IH].
Qed.

Lemma map_set_lookup_other k i v m :
  i <> k -> lookup i (map_set k v m) = lookup i m.
Proof.
  unfold map_keys. intros Hne. induction m as [|[k' x] m IH]; cbn.
  - destruct (String.eqb_spec i k); [contradiction | reflexivity].
  - destruct (String.eqb_spec k k') as [->|Hkk']; cbn.
    + destruct (String.eqb_spec i k'); [contradiction | reflexivity].
    + now rewrite IH.
Qed.

(** Setting a key that is present replaces its value where it stands. *)
Lemma map_set_present k v m :
  In k (map_keys m) -> map_keys (map_set k v m) = map_keys m.
Proof.
  unfold map_keys. induction m as [|[k' x] m IH]; cbn; [tauto|].
  destruct (String.eqb_spec k k') as [->|Hne]; cbn; [reflexivity|].
  intros [H|H]; [congruence | now rewrite IH].
Qed.

(** Setting a key that is absent appends it. *)
Lemma map_set_absent k v m :
  ~ In k (map_keys m) -> map_set k v m = m ++ [(k, v)].
Proof.
  unfold map_keys. induction m as [|[k' x] m IH]; cbn; [reflexivity|].
  destruct (String.eqb_spec k k') as [->|Hne]; [tauto|].
  intros H. rewrite IH; tauto.
Qed.

Lemma map_set_keys_in k i v m :
  In i (map_keys (map_set k v m)) <-> i = k \/ In i (map_keys m).
Proof.
  destruct (in_dec String.string_dec k (map_keys m)) as [Hin|Hout].
  - rewrite map_set_present by exact Hin. split; [auto|].
    intros [->|H]; assumption.
  - rewrite map_set_absent by exact Hout. unfold map_keys.
    rewrite map_app, in_app_iff. cbn. intuition congruence.
Qed.

Lemma map_set_NoDup k v m :
  NoDup (map_keys m) -> NoDup (map_keys (map_set k v m)).
Proof.
  intros Hnd.
  destruct (in_dec String.string_dec k (map_keys m)) as [Hin|Hout].
  - now rewrite map_set_present.
  - rewrite map_set_absent by exact Hout. unfold map_keys.
    rewrite map_app. cbn. apply NoDup_app; [exact Hnd | repeat constructor; auto|].
    intros i Hi [<-|[]]. exact (Hout Hi).
Qed.

Lemma map_delete_keys_in k i m :
  In i (map_keys (map_delete k m)) -> In i (map_keys m).
Proof.
  unfold map_keys. induction m as [|[k' x] m IH]; cbn; [tauto|].
  destruct (String.eqb k k'); cbn; tauto.
Qed.

Lemma map_delete_keys_other k i m :
  i <> k -> In i (map_keys m) -> In i (map_keys (map_delete k m)).
Proof.
  unfold map_keys. intros Hne. induction m as [|[k' x] m IH]; cbn; [tauto|].
  destruct (String.eqb_spec k k') as [->|Hkk']; cbn.
  - intros [H|H]; [congruence | exact H].
  - tauto.
Qed.

Lemma map_delete_NoDup k m :
  NoDup (map_keys m) -> NoDup (map_keys (map_delete k m)).
Proof.
  unfold map_keys. induction m as [|[k' x] m IH]; cbn; [auto|].
  intros Hnd. inversion Hnd as [|? ? Hout Hnd']; subst.
  destruct (String.eqb k k'); cbn; [exact Hnd'|].
  constructor; [|auto]. intros H. apply Hout. eapply map_delete_keys_in, H.
Qed.

(** In a map, which holds a key once, a deleted key is gone. *)
Lemma map_delete_lookup k m :
  NoDup (map_keys m) -> lookup k (map_delete k m) = None.
Proof.
  unfold map_keys. induction m as [|[k' x] m IH]; cbn; [reflexivity|].
  intros Hnd. inversion Hnd as [|? ? Hout Hnd']; subst.
  destruct (String.eqb_spec k k') as [->|Hne]; cbn.
  - now apply lookup_not_in_keys.
  - destruct (String.eqb_spec k k'); [contradiction | auto].
Qed.

Lemma map_delete_lookup_other k i m :
  i <> k -> lookup i (map_delete k m) = lookup i m.
Proof.
  unfold map_keys. intros Hne. induction m as [|[k' x] m IH]; cbn; [reflexivity|].
  destruct (String.eqb_spec k k') as [->|Hkk']; cbn.
  - destruct (String.eqb_spec i k'); [contradiction | reflexivity].
  - now rewrite IH.
Qed.

End MapLemmas.

End JS.

(** ** Notification publisher
    (packages/backend/src/modules/streaming/notification-publisher.ts) *)

Module Publisher.

Definition MAX_PAYLOAD_SIZE : nat := 7900.
Definition BYTES_PER_LOG_ID : nat := 40.
(** [Math.floor(MAX_PAYLOAD_SIZE / BYTES_PER_LOG_ID)] *)
Definition MAX_LOG_IDS_PER_CHUNK : nat := MAX_PAYLOAD_SIZE / BYTES_PER_LOG_ID.

(** The object that [sendNotification] serialises with [JSON.stringify]. *)
Record Payload := mkPayload {
  projectId : string;
  logIds : list string;
  timestamp : string
}.

(** One [pg_notify(channel, payload)] that the store accepted. *)
Record Notification := mkNotification {
  channel : string;
  payload : Payload
}.

Inductive ConsoleLine :=
| LargeBatch (logs chunks : nat)
| FailedToPublish (error : string).

(** What the publisher acts on: the notifications emitted so far (oldest
    first), the console, and the number of queries issued. *)
Record World := mkWorld {
  emitted : list Notification;
  console : list ConsoleLine;
  queries : nat
}.

(** How a JavaScript call ends; [Diverged] is a loop that has not finished
    within the fuel of its model. *)
Inductive Outcome (A : Type) :=
| Returned (a : A)
| Thrown (error : string)
| Diverged.
Arguments Returned {A} a.
Arguments Thrown {A} error.
Arguments Diverged {A}.

Definition M (A : Type) : Type := World -> Outcome A * World.

Definition ret {A} (a : A) : M A := fun w => (Returned a, w).

Definition bind {A B} (m : M A) (k : A -> M B) : M B :=
  fun w =>
    match m w with
    | (Returned a, w') => k a w'
    | (Thrown e, w') => (Thrown e, w')
    | (Diverged, w') => (Diverged, w')
    end.

(** [try { m } catch (error) { handler(error) }] *)
Definition try_catch {A} (m : M A) (handler : string -> M A) : M A :=
  fun w =>
    match m w with
    | (Thrown e, w') => handler e w'
    | r => r
    end.

Definition console_write (line : ConsoleLine) : M unit :=
  fun w => (Returned tt, mkWorld (emitted w) (console w ++ [line]) (queries w)).

Notation "m ;; k" := (bind m (fun _ => k))
  (at level 61, right associativity).

Section WithStore.

(** The environment: the clock read by [new Date().toISOString()] at the
    k-th query, and the store's answer to the k-th query ([None]: the
    NOTIFY is executed; [Some e]: the query rejects with [e]). *)
Variable now : nat -> string.
Variable execute : nat -> Notification -> option string.

Definition sendNotification (projectId : string) (logIds : list string)
  : M unit :=
  fun w =>
    let k := queries w in
    let n := mkNotification "logs_new" (mkPayload projectId logIds (now k)) in
    match execute k n with
    | None => (Returned tt, mkWorld (emitted w ++ [n]) (console w) (S k))
    | Some e => (Thrown e, mkWorld (emitted w) (console w) (S k))
    end.

(** [for (let i = i0; i < logIds.length; i += MAX_LOG_IDS_PER_CHUNK)] *)
Fixpoint send_chunks (fuel : nat) (projectId : string) (logIds : list string)
  (i : nat) : M unit :=
  if i <? List.length logIds then
    match fuel with
    | 0 => fun w => (Diverged, w)
    | S fuel' =>
        let chunk := JS.slice logIds i (i + MAX_LOG_IDS_PER_CHUNK) in
        sendNotification projectId chunk ;;
        send_chunks fuel' projectId logIds (i + MAX_LOG_IDS_PER_CHUNK)
    end
  else ret tt.

Definition publishLogIngestion (projectId : string) (logIds : list string)
  : M unit :=
  if List.length logIds =? 0 then ret tt
  else
    try_catch
      (if MAX_LOG_IDS_PER_CHUNK <? List.length logIds then
         console_write
           (LargeBatch (List.length logIds)
              (JS.ceil_div (List.length logIds) MAX_LOG_IDS_PER_CHUNK)) ;;
         send_chunks (List.length logIds) projectId logIds 0
       else sendNotification projectId logIds)
      (fun error => console_write (FailedToPublish error)).

(** The chunks that the loop of [publishLogIngestion] cuts, without the
    sending: the slices taken at [i], [i + MAX_LOG_IDS_PER_CHUNK], ... *)
Fixpoint chunks (fuel : nat) (logIds : list string) (i : nat)
  : list (list string) :=
  if i <? List.length logIds then
    match fuel with
    | 0 => []
    | S fuel' =>
        JS.slice logIds i (i + MAX_LOG_IDS_PER_CHUNK)
          :: chunks fuel' logIds (i + MAX_LOG_IDS_PER_CHUNK)
    end
  else [].

(** The notifications for a list of chunks sent from query number [k] on. *)
Fixpoint notifications_from (projectId : string) (k : nat)
  (cs : list (list string)) : list Notification :=
  match cs with
  | [] => []
  | c :: cs' =>
      mkNotification "logs_new" (mkPayload projectId c (now k))
        :: notifications_from projectId (S k) cs'
  end.

Definition chunk_of (n : Notification) : list string := logIds (payload n).

End WithStore.

Lemma MAX_LOG_IDS_PER_CHUNK_eq : MAX_LOG_IDS_PER_CHUNK = 197.
Proof. reflexivity. Qed.

Lemma ceil_div_small (n : nat) : 1 <= n <= 197 -> JS.ceil_div n 197 = 1.
Proof.
  intros H. unfold JS.ceil_div. symmetry.
  apply Nat.div_unique with (r := n - 1); lia.
Qed.

Lemma ceil_div_zero : JS.ceil_div 0 197 = 0.
Proof. reflexivity. Qed.

Lemma ceil_div_step (n : nat) :
  1 <= n -> JS.ceil_div n 197 = S (JS.ceil_div (n - 197) 197).
Proof.
  intros H. destruct (Nat.le_gt_cases n 197) as [Hle|Hgt].
  - rewrite ceil_div_small by lia.
    replace (n - 197) with 0 by lia. now rewrite ceil_div_zero.
  - unfold JS.ceil_div.
    replace (n + 197 - 1) with ((n - 197 + 197 - 1) + 1 * 197) by lia.
    rewrite Nat.div_add by lia. lia.
Qed.

Section ChunkLemmas.

Variable now : nat -> string.

Lemma chunks_concat (fuel : nat) (l : list string) (i : nat) :
  List.length l - i <= fuel ->
  List.concat (chunks fuel l i) = skipn i l.
Proof.
  revert i. induction fuel as [|fuel IH]; intros i Hfuel; cbn [chunks].
  - destruct (Nat.ltb_spec i (List.length l)); [lia|].
    now rewrite skipn_all2.
  - destruct (Nat.ltb_spec i (List.length l)) as [Hlt|Hge].
    + cbn [List.concat]. rewrite IH by (rewrite MAX_LOG_IDS_PER_CHUNK_eq; lia).
      rewrite JS.slice_step, JS.skipn_add. apply firstn_skipn.
    + now rewrite skipn_all2.
Qed.

Lemma chunks_length (fuel : nat) (l : list string) (i : nat) :
  List.length l - i <= fuel ->
  List.length (chunks fuel l i) = JS.ceil_div (List.length l - i) 197.
Proof.
  revert i. induction fuel as [|fuel IH]; intros i Hfuel; cbn [chunks].
  - destruct (Nat.ltb_spec i (List.length l)); [lia|].
    now replace (List.length l - i) with 0 by lia.
  - destruct (Nat.ltb_spec i (List.length l)) as [Hlt|Hge].
    + cbn [List.length]. rewrite IH by (rewrite MAX_LOG_IDS_PER_CHUNK_eq; lia).
      rewrite MAX_LOG_IDS_PER_CHUNK_eq.
      rewrite (ceil_div_step (List.length l - i)) by lia.
      do 2 f_equal. lia.
    + now replace (List.length l - i) with 0 by lia.
Qed.

Lemma chunks_nth (fuel : nat) (l : list string) (i j : nat) (c : list string) :
  nth_error (chunks fuel l i) j = Some c ->
  c = JS.slice l (i + j * 197) (i + j * 197 + 197)
  /\ 1 <= List.length c <= 197.
Proof.
  revert i j. induction fuel as [|fuel IH]; intros i j; cbn [chunks].
  - destruct (i <? List.length l); destruct j; discriminate.
  - destruct (Nat.ltb_spec i (List.length l)) as [Hlt|Hge].
    + destruct j as [|j]; cbn [nth_error].
      * intros [= <-]. rewrite MAX_LOG_IDS_PER_CHUNK_eq.
        replace (i + 0 * 197) with i by lia. split; [reflexivity|].
        rewrite JS.slice_step, length_firstn, length_skipn. lia.
      * intros H. apply IH in H. rewrite MAX_LOG_IDS_PER_CHUNK_eq in H.
        replace (i + S j * 197) with (i + 197 + j * 197) by lia. exact H.
    + destruct j; discriminate.
Qed.

Lemma notifications_from_length (p : string) (k : nat) cs :
  List.length (notifications_from now p k cs) = List.length cs.
Proof.
  revert k. induction cs as [|c cs IH]; intros k; cbn; [reflexivity|].
  now rewrite IH.
Qed.

Lemma notifications_from_chunks (p : string) (k : nat) cs :
  map chunk_of (notifications_from now p k cs) = cs.
Proof.
  revert k. induction cs as [|c cs IH]; intros k; cbn; [reflexivity|].
  now rewrite IH.
Qed.

Lemma notifications_from_nth (p : string) (k : nat) cs j n :
  nth_error (notifications_from now p k cs) j = Some n ->
  channel n = "logs_new" /\ projectId (payload n) = p
  /\ timestamp (payload n) = now (k + j)
  /\ nth_error cs j = Some (chunk_of n).
Proof.
  revert k j. induction cs as [|c cs IH]; intros k j; cbn.
  - destruct j; discriminate.
  - destruct j as [|j]; cbn.
    + intros [= <-]. cbn. now rewrite Nat.add_0_r.
    + intros H. apply IH in H. now replace (k + S j) with (S k + j) by lia.
Qed.

End ChunkLemmas.

Section PublisherProperties.

Variable now : nat -> string.
Variable execute : nat -> Notification -> option string.

Lemma send_chunks_all_sent (fuel : nat) (p : string) (l : list string)
  (i : nat) (w : World) :
  (forall k n, execute k n = None) ->
  List.length l - i <= fuel ->
  send_chunks now execute fuel p l i w =
    (Returned tt,
     mkWorld (emitted w ++ notifications_from now p (queries w) (chunks fuel l i))
             (console w)
             (queries w + List.length (chunks fuel l i))).
Proof.
  intros Hok. revert i w.
  induction fuel as [|fuel IH]; intros i w Hfuel; cbn [send_chunks chunks].
  - destruct (Nat.ltb_spec i (List.length l)); [lia|].
    cbn. rewrite app_nil_r, Nat.add_0_r. now destruct w.
  - destruct (Nat.ltb_spec i (List.length l)) as [Hlt|Hge].
    + unfold bind at 1. unfold sendNotification at 1. rewrite Hok.
      rewrite IH by (rewrite MAX_LOG_IDS_PER_CHUNK_eq; lia).
      cbn [emitted console queries notifications_from List.length].
      rewrite <- app_assoc. cbn [app]. do 2 f_equal. lia.
    + cbn. rewrite app_nil_r, Nat.add_0_r. now destruct w.
Qed.

(** The loop runs to its end within [List.length logIds] iterations,
    whatever the store answers. *)
Lemma send_chunks_terminates (fuel : nat) (p : string) (l : list string)
  (i : nat) (w : World) :
  List.length l - i <= fuel ->
  fst (send_chunks now execute fuel p l i w) <> Diverged.
Proof.
  revert i w.
  induction fuel as [|fuel IH]; intros i w Hfuel; cbn [send_chunks].
  - destruct (Nat.ltb_spec i (List.length l)); [lia|]. discriminate.
  - destruct (Nat.ltb_spec i (List.length l)) as [Hlt|Hge]; [|discriminate].
    unfold bind at 1. unfold sendNotification at 1.
    destruct (execute _ _); [discriminate|].
    apply IH. rewrite MAX_LOG_IDS_PER_CHUNK_eq. lia.
Qed.

(** What the claim says of the notifications [ns] emitted for the ids [ids]
    of project [p]. *)
Definition chunked_publication (p : string) (ids : list string)
  (ns : list Notification) : Prop :=
  List.length ns = JS.ceil_div (List.length ids) 197
  /\ (forall j n, nth_error ns j = Some n ->
        channel n = "logs_new"
        /\ projectId (payload n) = p
        /\ chunk_of n = JS.slice ids (j * 197) (j * 197 + 197)
        /\ 1 <= List.length (chunk_of n) <= 197)
  /\ List.concat (map chunk_of ns) = ids.

(** C1. For a non-empty list of [n] ids, on a store that executes every
    NOTIFY, [publishLogIngestion] returns after emitting exactly
    [ceil (n / 197)] notifications on [logs_new], where
    [197 = floor (7900 / 40)]; the j-th one carries the slice
    [[197 j, 197 j + 197)] of the input, between 1 and 197 ids, and the
    chunks concatenated in emission order are the input. *)
Theorem publishLogIngestion_chunks (p : string) (ids : list string)
  (w : World) :
  ids <> [] ->
  (forall k n, execute k n = None) ->
  MAX_LOG_IDS_PER_CHUNK = 197
  /\ exists ns,
       fst (publishLogIngestion now execute p ids w) = Returned tt
       /\ emitted (snd (publishLogIngestion now execute p ids w))
          = emitted w ++ ns
       /\ chunked_publication p ids ns.
Proof.
  intros Hne Hok. split; [reflexivity|].
  assert (Hlen : 1 <= List.length ids) by (destruct ids; [congruence | cbn; lia]).
  enough (exists ns c q,
            publishLogIngestion now execute p ids w
              = (Returned tt, mkWorld (emitted w ++ ns) c q)
            /\ chunked_publication p ids ns) as (ns & c & q & Heq & Hns).
  { exists ns. rewrite Heq. cbn [fst snd emitted]. auto. }
  unfold publishLogIngestion.
  destruct (Nat.eqb_spec (List.length ids) 0) as [H0|_]; [lia|].
  unfold try_catch. rewrite MAX_LOG_IDS_PER_CHUNK_eq.
  destruct (Nat.ltb_spec 197 (List.length ids)) as [Hbig|Hsmall].
  - unfold bind at 1, console_write at 1.
    rewrite send_chunks_all_sent by (try assumption; lia).
    cbn [emitted queries console].
    do 3 eexists. split; [reflexivity|].
    unfold chunked_publication.
    rewrite notifications_from_length, notifications_from_chunks.
    rewrite chunks_length, chunks_concat by lia.
    rewrite Nat.sub_0_r. split; [reflexivity|]. split; [|reflexivity].
    intros j n Hn. apply notifications_from_nth in Hn.
    destruct Hn as (Hc & Hp & _ & Hn). apply chunks_nth in Hn.
    cbn [Nat.add] in Hn. tauto.
  - unfold sendNotification. rewrite Hok.
    do 3 eexists. split; [reflexivity|].
    unfold chunked_publication.
    cbn [List.length map List.concat chunk_of payload logIds].
    rewrite ceil_div_small, app_nil_r by lia.
    split; [reflexivity|]. split; [|reflexivity].
    intros [|j] n; cbn [nth_error]; [|destruct j; discriminate].
    intros [= <-]. cbn [channel payload projectId logIds chunk_of].
    unfold JS.slice. cbn [Nat.mul Nat.add skipn].
    rewrite firstn_all2 by lia. repeat split; try reflexivity; lia.
Qed.

(** How the loop ends: it writes nothing on the console, and either
    returns with every query it issued executed, or throws the rejection
    of the last query it issued. *)
Lemma send_chunks_outcome (fuel : nat) (p : string) (l : list string)
  (i : nat) (w : World) (o : Outcome unit) (w' : World) :
  List.length l - i <= fuel ->
  send_chunks now execute fuel p l i w = (o, w') ->
  console w' = console w
  /\ ((o = Returned tt
       /\ queries w' + List.length (emitted w)
          = queries w + List.length (emitted w'))
      \/ exists e n,
           o = Thrown e /\ execute (Nat.pred (queries w')) n = Some e).
Proof.
  revert i w.
  induction fuel as [|fuel IH]; intros i w Hfuel; cbn [send_chunks].
  - destruct (Nat.ltb_spec i (List.length l)); [lia|].
    intros [= <- <-]. auto.
  - destruct (Nat.ltb_spec i (List.length l)) as [Hlt|Hge];
      [|intros [= <- <-]; auto].
    unfold bind at 1. unfold sendNotification at 1.
    destruct (execute (queries w) _) as [e|] eqn:He.
    + intros [= <- <-]. cbn. split; [reflexivity|]. right. eauto.
    + intros H. apply IH in H; [|rewrite MAX_LOG_IDS_PER_CHUNK_eq; lia].
      cbn [queries emitted console] in H. rewrite length_app in H.
      cbn [List.length] in H.
      destruct H as (Hc & [(Hret & Hq)|Hthrow]); (split; [exact Hc|]);
        [left; split; [exact Hret | lia] | now right].
Qed.

(** C6. Whatever the clock and the store answer, whatever the project,
    the ids and the state before, a call of [publishLogIngestion] returns
    normally: it neither throws nor loops. Either every query it issued
    was executed and it reports no failure, or the last query it issued
    was rejected and that rejection is the last line of the console. *)
Theorem publishLogIngestion_never_throws (p : string) (ids : list string)
  (w : World) :
  let r := publishLogIngestion now execute p ids w in
  fst r = Returned tt
  /\ ((queries (snd r) + List.length (emitted w)
       = queries w + List.length (emitted (snd r))
       /\ forall e, In (FailedToPublish e) (console (snd r)) ->
                    In (FailedToPublish e) (console w))
      \/ exists e n lines,
           execute (Nat.pred (queries (snd r))) n = Some e
           /\ console (snd r) = lines ++ [FailedToPublish e]).
Proof.
  intros r. subst r. unfold publishLogIngestion.
  destruct (List.length ids =? 0); [cbn; auto|].
  unfold try_catch.
  destruct (MAX_LOG_IDS_PER_CHUNK <? List.length ids).
  - unfold bind, console_write.
    match goal with
    | |- context [send_chunks ?n ?e ?f ?q ?l ?i ?w0] =>
        pose proof (send_chunks_outcome f q l i w0) as Hout;
        destruct (send_chunks n e f q l i w0) as [o w1]
    end.
    specialize (Hout o w1 ltac:(lia) eq_refl).
    cbn [fst snd queries emitted console] in Hout.
    destruct Hout as (Hc & [(-> & Hq)|(e & n & -> & He)]).
    + cbn [fst snd]. split; [reflexivity|]. left. split; [exact Hq|].
      intros e. rewrite Hc, in_app_iff. cbn. intros [H|[[=]|[]]]. exact H.
    + cbn [fst snd]. split; [reflexivity|]. right.
      exists e, n, (console w1). auto.
  - unfold sendNotification.
    destruct (execute (queries w) _) as [e|] eqn:He; cbn.
    + split; [reflexivity|]. right. eauto.
    + split; [reflexivity|]. left. rewrite length_app. cbn.
      split; [lia | auto].
Qed.

End PublisherProperties.

(** A store that executes every query, and a batch of three ids. *)
Lemma publishLogIngestion_chunks_witness :
  ["a"; "b"; "c"] <> []
  /\ MAX_LOG_IDS_PER_CHUNK = 197
  /\ exists ns,
       fst (publishLogIngestion (fun _ => "2025-01-01T00:00:00.000Z")
              (fun _ _ => None) "p1" ["a"; "b"; "c"] (mkWorld [] [] 0))
         = Returned tt
       /\ emitted (snd (publishLogIngestion
                          (fun _ => "2025-01-01T00:00:00.000Z")
                          (fun _ _ => None) "p1" ["a"; "b"; "c"]
                          (mkWorld [] [] 0)))
          = [] ++ ns
       /\ chunked_publication "p1" ["a"; "b"; "c"] ns.
Proof.
  split; [discriminate|].
  apply (publishLogIngestion_chunks (fun _ => "2025-01-01T00:00:00.000Z")
           (fun _ _ => None) "p1" ["a"; "b"; "c"] (mkWorld [] [] 0)).
  - discriminate.
  - reflexivity.
Defined.

(** *** A publication that the store interrupts *)

(** The chunks that [publishLogIngestion] sends for a list of ids, in
    order: none for the empty list, the list itself when it fits in one
    notification, the slices of the loop otherwise. *)
Definition publication_chunks (logIds : list string) : list (list string) :=
  if List.length logIds =? 0 then []
  else if MAX_LOG_IDS_PER_CHUNK <? List.length logIds
       then chunks (List.length logIds) logIds 0
       else [logIds].

Section PublisherFailures.

Variable now : nat -> string.
Variable execute : nat -> Notification -> option string.

Lemma send_chunks_fails_at (fuel : nat) (p : string) (l : list string)
  (i : nat) (w : World) (m : nat) (e : string) :
  m < List.length (chunks fuel l i) ->
  (forall j n, j < m -> execute (queries w + j) n = None) ->
  (forall n, execute (queries w + m) n = Some e) ->
  send_chunks now execute fuel p l i w =
    (Thrown e,
     mkWorld
       (emitted w
        ++ notifications_from now p (queries w) (firstn m (chunks fuel l i)))
       (console w) (queries w + m + 1)).
Proof.
  revert i w m.
  induction fuel as [|fuel IH]; intros i w m Hm Hok Hfail;
    cbn [send_chunks chunks] in *.
  - destruct (i <? List.length l); cbn in Hm; lia.
  - destruct (Nat.ltb_spec i (List.length l)) as [Hlt|Hge];
      [|cbn in Hm; lia].
    unfold bind at 1. unfold sendNotification at 1.
    destruct m as [|m].
    + rewrite Nat.add_0_r in Hfail. rewrite Hfail. cbn.
      rewrite app_nil_r. do 2 f_equal. lia.
    + replace (queries w) with (queries w + 0) at 1 by lia.
      rewrite Hok by lia. cbn [List.length] in Hm.
      rewrite IH with (m := m).
      * cbn [emitted console queries firstn notifications_from].
        rewrite <- app_assoc. cbn [app]. do 2 f_equal. lia.
      * lia.
      * intros j n Hj. cbn [queries].
        replace (S (queries w) + j) with (queries w + S j) by lia.
        apply Hok. lia.
      * intros n. cbn [queries].
        replace (S (queries w) + m) with (queries w + S m) by lia.
        apply Hfail.
Qed.

(** X1. When the store executes the first [m] queries of a publication and
    rejects the next one, the call returns normally; the notifications
    emitted are those of the first [m] chunks, in order; no query follows
    the rejected one; and the rejection is the last line of the console. *)
Theorem publishLogIngestion_interrupted (p : string) (ids : list string)
  (w : World) (m : nat) (e : string) :
  m < List.length (publication_chunks ids) ->
  (forall j n, j < m -> execute (queries w + j) n = None) ->
  (forall n, execute (queries w + m) n = Some e) ->
  let r := publishLogIngestion now execute p ids w in
  fst r = Returned tt
  /\ emitted (snd r)
     = emitted w
       ++ notifications_from now p (queries w)
            (firstn m (publication_chunks ids))
  /\ queries (snd r) = queries w + m + 1
  /\ exists lines, console (snd r) = lines ++ [FailedToPublish e].
Proof.
  unfold publication_chunks, publishLogIngestion.
  destruct (List.length ids =? 0); [cbn; lia|].
  unfold try_catch.
  destruct (MAX_LOG_IDS_PER_CHUNK <? List.length ids).
  - intros Hm Hok Hfail. unfold bind, console_write.
    rewrite send_chunks_fails_at with (m := m) (e := e); try assumption.
    cbn. repeat split. eexists. reflexivity.
  - cbn [List.length]. intros Hm Hok Hfail.
    assert (m = 0) by lia. subst m.
    unfold sendNotification. rewrite Nat.add_0_r in Hfail. rewrite Hfail.
    cbn. rewrite app_nil_r. repeat split; [lia|]. eexists. reflexivity.
Qed.

End PublisherFailures.

(** A store that rejects its second query, and 400 ids: three chunks. *)
Lemma publishLogIngestion_interrupted_witness :
  queries
    (snd (publishLogIngestion (fun _ => "2025-01-01T00:00:00.000Z")
            (fun k _ => if k =? 1 then Some "connection lost" else None)
            "p1" (repeat "id" 400) (mkWorld [] [] 0)))
  = 0 + 1 + 1.
Proof.
  apply (publishLogIngestion_interrupted (fun _ => "2025-01-01T00:00:00.000Z")
           (fun k _ => if k =? 1 then Some "connection lost" else None)
           "p1" (repeat "id" 400) (mkWorld [] [] 0) 1 "connection lost").
  - vm_compute. lia.
  - intros j n Hj. cbn [queries]. destruct j; [reflexivity | lia].
  - intros n. reflexivity.
Defined.

(** *** The size of a payload *)

Definition quote : string := String (ascii_of_nat 34) "".
Definition backslash : string := String (ascii_of_nat 92) "".

Definition hex_digit (n : nat) : string :=
  String (nth n (list_ascii_of_string "0123456789abcdef") "0"%char) "".

(** What [JSON.stringify] writes for one character of a string. *)
Definition quote_char (c : ascii) : string :=
  let n := nat_of_ascii c in
  if n =? 34 then backslash ++ quote
  else if n =? 92 then backslash ++ backslash
  else if n =? 8 then backslash ++ "b"
  else if n =? 9 then backslash ++ "t"
  else if n =? 10 then backslash ++ "n"
  else if n =? 12 then backslash ++ "f"
  else if n =? 13 then backslash ++ "r"
  else if n <? 32
       then backslash ++ "u00" ++ hex_digit (n / 16) ++ hex_digit (n mod 16)
  else String c "".

Fixpoint quote_chars (s : string) : string :=
  match s with
  | EmptyString => ""
  | String c s' => quote_char c ++ quote_chars s'
  end.

(** [JSON.stringify] of a string. *)
Definition stringify_string (s : string) : string :=
  quote ++ quote_chars s ++ quote.

(** [JSON.stringify] of an array of strings. *)
Definition stringify_array (items : list string) : string :=
  "[" ++ String.concat "," (map stringify_string items) ++ "]".

(** [JSON.stringify({ projectId, logIds, timestamp })] *)
Definition JSON_stringify (payload : Payload) : string :=
  "{" ++ stringify_string "projectId" ++ ":"
      ++ stringify_string (projectId payload)
  ++ "," ++ stringify_string "logIds" ++ ":"
      ++ stringify_array (logIds payload)
  ++ "," ++ stringify_string "timestamp" ++ ":"
      ++ stringify_string (timestamp payload)
  ++ "}".

(** A string that [JSON.stringify] writes as it is, between quotes. *)
Definition plain (s : string) : bool :=
  forallb
    (fun c =>
       (32 <=? nat_of_ascii c)
       && negb (nat_of_ascii c =? 34) && negb (nat_of_ascii c =? 92))
    (list_ascii_of_string s).

Lemma length_append (a b : string) :
  String.length (a ++ b) = String.length a + String.length b.
Proof. induction a as [|c a IH]; cbn; [reflexivity | now rewrite IH]. Qed.

Lemma quote_chars_plain (s : string) :
  plain s = true -> quote_chars s = s.
Proof.
  unfold plain. induction s as [|c s IH]; cbn [list_ascii_of_string forallb quote_chars];
    [reflexivity|].
  rewrite !andb_true_iff, !negb_true_iff, Nat.leb_le, !Nat.eqb_neq.
  intros [[[H32 H34] H92] Hs]. rewrite (IH Hs). unfold quote_char. cbv zeta.
  destruct (Nat.eqb_spec (nat_of_ascii c) 34); [contradiction|].
  destruct (Nat.eqb_spec (nat_of_ascii c) 92); [contradiction|].
  destruct (Nat.eqb_spec (nat_of_ascii c) 8); [lia|].
  destruct (Nat.eqb_spec (nat_of_ascii c) 9); [lia|].
  destruct (Nat.eqb_spec (nat_of_ascii c) 10); [lia|].
  destruct (Nat.eqb_spec (nat_of_ascii c) 12); [lia|].
  destruct (Nat.eqb_spec (nat_of_ascii c) 13); [lia|].
  destruct (Nat.ltb_spec (nat_of_ascii c) 32); [lia|]. reflexivity.
Qed.

Lemma stringify_string_length (s : string) :
  plain s = true ->
  String.length (stringify_string s) = String.length s + 2.
Proof.
  intros H. unfold stringify_string. rewrite (quote_chars_plain s H).
  rewrite !length_append. cbn. lia.
Qed.

Lemma concat_length_bound (items : list string) (b : nat) :
  (forall x, In x items -> String.length x <= b) ->
  String.length (String.concat "," items) <= List.length items * S b.
Proof.
  induction items as [|x items IH]; intros H; [cbn; lia|].
  assert (Hx : String.length x <= b) by (apply H; now left).
  assert (Hr : String.length (String.concat "," items)
               <= List.length items * S b)
    by (apply IH; intros y Hy; apply H; now right).
  destruct items as [|y items]; [cbn; lia|].
  change (String.concat "," (x :: y :: items))
    with (x ++ "," ++ String.concat "," (y :: items))%string.
  rewrite !length_append. cbn [String.length List.length] in *. lia.
Qed.

Lemma incl_slice (l : list string) (i d : nat) :
  incl (firstn d (skipn i l)) l.
Proof.
  intros x Hx.
  rewrite <- (firstn_skipn i l). apply in_or_app. right.
  rewrite <- (firstn_skipn d (skipn i l)). apply in_or_app. now left.
Qed.

Section PayloadSize.

Variable now : nat -> string.
Variable execute : nat -> Notification -> option string.

(** Whatever the store answers, a notification that the loop emits is for
    the given project, is stamped by the clock and carries at most 197 of
    the given ids. *)
Lemma send_chunks_emitted (fuel : nat) (p : string) (l : list string)
  (i : nat) (w : World) (n : Notification) :
  In n (emitted (snd (send_chunks now execute fuel p l i w))) ->
  In n (emitted w)
  \/ (projectId (payload n) = p
      /\ (exists k, timestamp (payload n) = now k)
      /\ List.length (logIds (payload n)) <= 197
      /\ incl (logIds (payload n)) l).
Proof.
  revert i w.
  induction fuel as [|fuel IH]; intros i w; cbn [send_chunks].
  - destruct (i <? List.length l); cbn; auto.
  - destruct (i <? List.length l); [|cbn; auto].
    unfold bind at 1. unfold sendNotification at 1.
    destruct (execute (queries w) _) as [e|]; [cbn; auto|].
    intros H. apply IH in H. destruct H as [H|H]; [|now right].
    cbn [emitted] in H. apply in_app_or in H.
    destruct H as [H|[<-|[]]]; [now left|]. right.
    cbn [payload projectId timestamp logIds].
    split; [reflexivity|]. split; [now exists (queries w)|].
    rewrite MAX_LOG_IDS_PER_CHUNK_eq, JS.slice_step. split.
    + rewrite length_firstn. lia.
    + apply incl_slice.
Qed.

Lemma publishLogIngestion_emitted (p : string) (ids : list string)
  (w : World) (n : Notification) :
  In n (emitted (snd (publishLogIngestion now execute p ids w))) ->
  In n (emitted w)
  \/ (projectId (payload n) = p
      /\ (exists k, timestamp (payload n) = now k)
      /\ List.length (logIds (payload n)) <= 197
      /\ incl (logIds (payload n)) ids).
Proof.
  unfold publishLogIngestion.
  destruct (List.length ids =? 0); [cbn; auto|].
  unfold try_catch. rewrite MAX_LOG_IDS_PER_CHUNK_eq.
  destruct (Nat.ltb_spec 197 (List.length ids)) as [Hbig|Hsmall].
  - unfold bind, console_write.
    match goal with
    | |- context [send_chunks ?a ?b ?f ?q ?l ?i ?w0] =>
        pose proof (send_chunks_emitted f q l i w0 n) as Hin;
        destruct (send_chunks a b f q l i w0) as [[[]|e|] w1]
    end; cbn [fst snd emitted console_write] in *; exact Hin.
  - unfold sendNotification.
    destruct (execute (queries w) _) as [e|]; cbn; [auto|].
    intros H. apply in_app_or in H. destruct H as [H|[<-|[]]]; [now left|].
    right. cbn. split; [reflexivity|]. split; [now exists (queries w)|].
    split; [lia | apply incl_refl].
Qed.

Lemma payload_size_bound (payload : Payload) :
  plain (projectId payload) = true ->
  String.length (projectId payload) <= 36 ->
  plain (timestamp payload) = true ->
  String.length (timestamp payload) <= 27 ->
  List.length (logIds payload) <= 197 ->
  (forall x, In x (logIds payload) ->
     plain x = true /\ String.length x <= 36) ->
  String.length (JSON_stringify payload) <= 197 * 39 + 106.
Proof.
  intros Hp Hpl Ht Htl Hn Hids.
  unfold JSON_stringify, stringify_array. rewrite !length_append.
  rewrite (stringify_string_length _ Hp), (stringify_string_length _ Ht).
  assert (Hc : String.length
                 (String.concat "," (map stringify_string (logIds payload)))
               <= List.length (map stringify_string (logIds payload)) * 39).
  { apply concat_length_bound. intros x Hx. apply in_map_iff in Hx.
    destruct Hx as (y & <- & Hy). destruct (Hids y Hy) as [Hyp Hyl].
    rewrite (stringify_string_length _ Hyp). lia. }
  rewrite length_map in Hc.
  change (String.length (stringify_string "projectId")) with 11.
  change (String.length (stringify_string "logIds")) with 8.
  change (String.length (stringify_string "timestamp")) with 11.
  cbn [String.length]. lia.
Qed.

(** X2. With ids and a project id of at most 36 characters that need no
    escape, as UUIDs are, and a clock that writes at most 27 such
    characters, the JSON text of every notification that
    [publishLogIngestion] emits is at most [MAX_PAYLOAD_SIZE] characters
    long, whatever the number of ids and whatever the store answers. *)
Theorem publishLogIngestion_payload_size (p : string) (ids : list string)
  (w : World) (n : Notification) :
  (forall k, plain (now k) = true /\ String.length (now k) <= 27) ->
  plain p = true ->
  String.length p <= 36 ->
  (forall x, In x ids -> plain x = true /\ String.length x <= 36) ->
  In n (emitted (snd (publishLogIngestion now execute p ids w))) ->
  In n (emitted w)
  \/ String.length (JSON_stringify (payload n)) <= MAX_PAYLOAD_SIZE.
Proof.
  intros Hnow Hp Hpl Hids Hn.
  apply publishLogIngestion_emitted in Hn.
  destruct Hn as [Hn|(Hproj & (k & Hk) & Hlen & Hincl)]; [now left|].
  right. apply Nat.le_trans with (197 * 39 + 106).
  - apply payload_size_bound.
    + now rewrite Hproj.
    + now rewrite Hproj.
    + rewrite Hk. apply Hnow.
    + rewrite Hk. apply Hnow.
    + exact Hlen.
    + intros x Hx. apply Hids, Hincl, Hx.
  - apply Nat.leb_le. vm_compute. reflexivity.
Qed.

End PayloadSize.

(** A batch of two plain ids on a store that executes every query. *)
Lemma publishLogIngestion_payload_size_witness :
  In (mkNotification "logs_new"
        (mkPayload "p1" ["a"; "b"] "2025-01-01T00:00:00.000Z"))
     (emitted (mkWorld [] [] 0))
  \/ String.length
       (JSON_stringify (mkPayload "p1" ["a"; "b"] "2025-01-01T00:00:00.000Z"))
     <= MAX_PAYLOAD_SIZE.
Proof.
  apply (publishLogIngestion_payload_size
           (fun _ => "2025-01-01T00:00:00.000Z") (fun _ _ => None)
           "p1" ["a"; "b"] (mkWorld [] [] 0)).
  - intros k. split; [reflexivity | cbn; lia].
  - reflexivity.
  - cbn; lia.
  - intros x [<-|[<-|[]]]; (split; [reflexivity | cbn; lia]).
  - left. reflexivity.
Defined.

End Publisher.

(** ** Notification manager
    (packages/backend/src/modules/streaming/notification-manager.ts) *)

Module Listener.

Import JS.

(** [pg.Notification]: the channel and the optional payload. *)
Record PgNotification := mkPgNotification {
  channel : string;
  payload : option string
}.

(** [LogSubscriber]. The callback is an [async] function of the event: the
    model records that it was called and whether its promise rejects
    ([Some message]). *)
Record LogSubscriber := mkLogSubscriber {
  id : string;
  projectId : string;
  services : option (list string);
  levels : option (list string);
  onNotification : Value -> option string
}.

Inductive ConsoleLine :=
| AlreadyInitialized
| ClientError (message : string)
| ConnectedToPostgreSQL
| ListeningToChannel
| FailedToConnect
| SubscriberAdded (id project : string)
| TotalSubscribers (size : nat)
| SubscriberRemoved (id : string)
| ErrorInSubscriber (id message : string)
| FailedToParseNotification
| DisconnectedSchedulingReconnect
| MaxReconnectAttemptsReached
| ReconnectingIn (delay : Z) (attempt : nat)
| ReconnectFailed
| ClientClosed
| ErrorDuringShutdown.

(** The fields of [NotificationManager], followed by what it has done so
    far, oldest first: the events it emitted, the console, the callbacks it
    called and the delays it passed to [setTimeout]. [client] is the number
    of the [pg.Client] in use; [reconnectTimer] holds the delay of the
    pending timer. *)
Record State := mkState {
  client : option nat;
  subscribers : list (string * LogSubscriber);
  reconnectTimer : option Z;
  isConnected : bool;
  isShuttingDown : bool;
  databaseUrl : option string;
  reconnectAttempts : nat;
  clientsCreated : nat;
  events : list string;
  console : list ConsoleLine;
  invocations : list (LogSubscriber * Value);
  timeouts : list Z
}.

Definition maxReconnectAttempts : nat := 10.

(** The state of a fresh instance. *)
Definition initial : State :=
  mkState None [] None false false None 0 0 [] [] [] [].

Definition log (line : ConsoleLine) (st : State) : State :=
  mkState (client st) (subscribers st) (reconnectTimer st) (isConnected st)
    (isShuttingDown st) (databaseUrl st) (reconnectAttempts st)
    (clientsCreated st) (events st) (console st ++ [line]) (invocations st)
    (timeouts st).

Definition emit (event : string) (st : State) : State :=
  mkState (client st) (subscribers st) (reconnectTimer st) (isConnected st)
    (isShuttingDown st) (databaseUrl st) (reconnectAttempts st)
    (clientsCreated st) (events st ++ [event]) (console st) (invocations st)
    (timeouts st).

Definition set_client (c : option nat) (st : State) : State :=
  mkState c (subscribers st) (reconnectTimer st) (isConnected st)
    (isShuttingDown st) (databaseUrl st) (reconnectAttempts st)
    (clientsCreated st) (events st) (console st) (invocations st)
    (timeouts st).

Definition set_subscribers (subs : list (string * LogSubscriber))
  (st : State) : State :=
  mkState (client st) subs (reconnectTimer st) (isConnected st)
    (isShuttingDown st) (databaseUrl st) (reconnectAttempts st)
    (clientsCreated st) (events st) (console st) (invocations st)
    (timeouts st).

Definition set_reconnectTimer (t : option Z) (st : State) : State :=
  mkState (client st) (subscribers st) t (isConnected st)
    (isShuttingDown st) (databaseUrl st) (reconnectAttempts st)
    (clientsCreated st) (events st) (console st) (invocations st)
    (timeouts st).

Definition set_isConnected (b : bool) (st : State) : State :=
  mkState (client st) (subscribers st) (reconnectTimer st) b
    (isShuttingDown st) (databaseUrl st) (reconnectAttempts st)
    (clientsCreated st) (events st) (console st) (invocations st)
    (timeouts st).

Definition set_isShuttingDown (b : bool) (st : State) : State :=
  mkState (client st) (subscribers st) (reconnectTimer st) (isConnected st)
    b (databaseUrl st) (reconnectAttempts st)
    (clientsCreated st) (events st) (console st) (invocations st)
    (timeouts st).

Definition set_databaseUrl (u : option string) (st : State) : State :=
  mkState (client st) (subscribers st) (reconnectTimer st) (isConnected st)
    (isShuttingDown st) u (reconnectAttempts st)
    (clientsCreated st) (events st) (console st) (invocations st)
    (timeouts st).

Definition set_reconnectAttempts (n : nat) (st : State) : State :=
  mkState (client st) (subscribers st) (reconnectTimer st) (isConnected st)
    (isShuttingDown st) (databaseUrl st) n
    (clientsCreated st) (events st) (console st) (invocations st)
    (timeouts st).

(** [new Client(...)] : the next client number. *)
Definition new_client (st : State) : State :=
  mkState (Some (clientsCreated st)) (subscribers st) (reconnectTimer st)
    (isConnected st) (isShuttingDown st) (databaseUrl st)
    (reconnectAttempts st) (S (clientsCreated st)) (events st) (console st)
    (invocations st) (timeouts st).

(** [setTimeout(..., delay)] stored in [reconnectTimer]. *)
Definition setTimeout (delay : Z) (st : State) : State :=
  mkState (client st) (subscribers st) (Some delay) (isConnected st)
    (isShuttingDown st) (databaseUrl st) (reconnectAttempts st)
    (clientsCreated st) (events st) (console st) (invocations st)
    (timeouts st ++ [delay]).

Definition invoke (calls : list (LogSubscriber * Value)) (st : State)
  : State :=
  mkState (client st) (subscribers st) (reconnectTimer st) (isConnected st)
    (isShuttingDown st) (databaseUrl st) (reconnectAttempts st)
    (clientsCreated st) (events st) (console st) (invocations st ++ calls)
    (timeouts st).

(** *** Reconnection *)

(** [Math.min(1000 * Math.pow(2, attempts - 1), 30000)] *)
Definition reconnect_delay (attempts : nat) : Z :=
  Z.min (1000 * 2 ^ (Z.of_nat attempts - 1)) 30000.

Definition scheduleReconnect (st : State) : State :=
  match reconnectTimer st with
  | Some _ => st
  | None =>
      if isShuttingDown st then st
      else
        let st := set_reconnectAttempts (S (reconnectAttempts st)) st in
        if maxReconnectAttempts <? reconnectAttempts st then
          log MaxReconnectAttemptsReached st
        else
          let delay := reconnect_delay (reconnectAttempts st) in
          let st := log (ReconnectingIn delay (reconnectAttempts st)) st in
          setTimeout delay st
  end.

(** How the two awaited calls of [connect] end. *)
Inductive ConnectOutcome :=
| ConnectAndListen
| ConnectRejects
| ListenRejects.

(** [connect()]: [None] is the exception thrown when no URL is set. The two
    awaits are taken in one step: no other method changes what [connect]
    reads between them but [client], which the catch block resets. *)
Definition connect (outcome : ConnectOutcome) (st : State) : option State :=
  match databaseUrl st with
  | None => None
  | Some _ =>
      let st := new_client st in
      match outcome with
      | ConnectAndListen =>
          let st := log ConnectedToPostgreSQL st in
          let st := log ListeningToChannel st in
          let st := set_isConnected true st in
          let st := set_reconnectAttempts 0 st in
          Some (emit "connected" st)
      | ConnectRejects =>
          let st := log FailedToConnect st in
          let st := set_client None st in
          Some (scheduleReconnect st)
      | ListenRejects =>
          let st := log ConnectedToPostgreSQL st in
          let st := log FailedToConnect st in
          let st := set_client None st in
          Some (scheduleReconnect st)
      end
  end.

(** [initialize(databaseUrl)]; the rejection of [connect] propagates. *)
Definition initialize (url : string) (outcome : ConnectOutcome) (st : State)
  : option State :=
  match client st with
  | Some _ => Some (log AlreadyInitialized st)
  | None => connect outcome (set_databaseUrl (Some url) st)
  end.

Definition handleDisconnect (st : State) : State :=
  let st := set_isConnected false st in
  let st := emit "disconnected" st in
  let st := match client st with
            | Some _ => set_client None st
            | None => st
            end in
  if negb (isShuttingDown st) then
    scheduleReconnect (log DisconnectedSchedulingReconnect st)
  else st.

(** The handler of the client's [error] event. *)
Definition on_client_error (message : string) (st : State) : State :=
  handleDisconnect (log (ClientError message) st).

(** The callback given to [setTimeout]. *)
Definition on_reconnect_timer (outcome : ConnectOutcome) (st : State)
  : State :=
  let st := set_reconnectTimer None st in
  match connect outcome st with
  | Some st' => st'
  | None => log ReconnectFailed st
  end.

(** [shutdown()]; [closes] says whether [UNLISTEN] and [end()] both
    resolve. *)
Definition shutdown (closes : bool) (st : State) : State :=
  let st := set_isShuttingDown true st in
  let st := match reconnectTimer st with
            | Some _ => set_reconnectTimer None st
            | None => st
            end in
  let st := match client st with
            | Some _ =>
                let st := if closes then log ClientClosed st
                          else log ErrorDuringShutdown st in
                set_client None st
            | None => st
            end in
  let st := set_subscribers [] st in
  set_isConnected false st.

(** *** Subscriptions *)

(** The function returned by [subscribe]: a closure over [subscriber.id]. *)
Inductive UnsubscribeHandle := Unsubscribe (subscriberId : string).

Definition subscribe (subscriber : LogSubscriber) (st : State)
  : UnsubscribeHandle * State :=
  let st :=
    set_subscribers (map_set (id subscriber) subscriber (subscribers st)) st in
  let st := log (SubscriberAdded (id subscriber) (projectId subscriber)) st in
  let st := log (TotalSubscribers (List.length (subscribers st))) st in
  (Unsubscribe (id subscriber), st).

Definition unsubscribe (subscriberId : string) (st : State) : State :=
  let existed := map_has subscriberId (subscribers st) in
  let st := set_subscribers (map_delete subscriberId (subscribers st)) st in
  if existed then
    let st := log (SubscriberRemoved subscriberId) st in
    log (TotalSubscribers (List.length (subscribers st))) st
  else st.

(** Calling the function that [subscribe] returned. *)
Definition call_handle (h : UnsubscribeHandle) (st : State) : State :=
  match h with
  | Unsubscribe subscriberId => unsubscribe subscriberId st
  end.

(** *** Dispatch *)

Section Dispatch.

(** [JSON.parse]: [None] is its [SyntaxError]. *)
Variable JSON_parse : string -> option Value.

(** [subs.filter((sub) => sub.projectId === event.projectId)]; [None] is
    the [TypeError] of the first callback when [event] has no properties. *)
Fixpoint filter_by_project (event : Value) (subs : list LogSubscriber)
  : option (list LogSubscriber) :=
  match subs with
  | [] => Some []
  | sub :: rest =>
      match get_prop event "projectId" with
      | None => None
      | Some v =>
          match filter_by_project event rest with
          | None => None
          | Some matching =>
              if strict_eq_string (projectId sub) v
              then Some (sub :: matching)
              else Some matching
          end
      end
  end.

(** The console lines of the [.catch] of each rejected callback. *)
Fixpoint rejections (event : Value) (subs : list LogSubscriber)
  : list ConsoleLine :=
  match subs with
  | [] => []
  | sub :: rest =>
      match onNotification sub event with
      | Some message => ErrorInSubscriber (id sub) message :: rejections event rest
      | None => rejections event rest
      end
  end.

Definition log_all (lines : list ConsoleLine) (st : State) : State :=
  fold_left (fun st line => log line st) lines st.

Definition handleNotification (msg : PgNotification) (st : State) : State :=
  match payload msg with
  | None => st
  | Some text =>
      if negb (String.eqb (channel msg) "logs_new") || String.eqb text ""
      then st
      else
        match JSON_parse text with
        | None => log FailedToParseNotification st
        | Some event =>
            match filter_by_project event (map_values (subscribers st)) with
            | None => log FailedToParseNotification st
            | Some [] => st
            | Some matchingSubscribers =>
                let st :=
                  invoke (map (fun sub => (sub, event)) matchingSubscribers)
                    st in
                log_all (rejections event matchingSubscribers) st
            end
        end
  end.

(** *** The manager as a transition system *)

(** What can happen to the manager: calls of its public methods, and the
    events of its client and of its timer. *)
Inductive Op :=
| OInitialize (url : string) (outcome : ConnectOutcome)
| OSubscribe (subscriber : LogSubscriber)
| OUnsubscribe (subscriberId : string)
| OCallHandle (h : UnsubscribeHandle)
| ONotification (msg : PgNotification)
| OClientError (message : string)
| OReconnectTimer (outcome : ConnectOutcome)
| OShutdown (closes : bool).

(** A client event needs a client and a timer event a pending timer; a
    rejected [initialize] leaves the state as [connect] found it. *)
Definition step (op : Op) (st : State) : State :=
  match op with
  | OInitialize url outcome =>
      match initialize url outcome st with
      | Some st' => st'
      | None => st
      end
  | OSubscribe subscriber => snd (subscribe subscriber st)
  | OUnsubscribe subscriberId => unsubscribe subscriberId st
  | OCallHandle h => call_handle h st
  | ONotification msg =>
      match client st with
      | Some _ => handleNotification msg st
      | None => st
      end
  | OClientError message =>
      match client st with
      | Some _ => on_client_error message st
      | None => st
      end
  | OReconnectTimer outcome =>
      match reconnectTimer st with
      | Some _ => on_reconnect_timer outcome st
      | None => st
      end
  | OShutdown closes => shutdown closes st
  end.

Definition run (ops : list Op) (st : State) : State :=
  fold_left (fun st op => step op st) ops st.

End Dispatch.

(** *** The registry under the operations *)

Lemma scheduleReconnect_subscribers (st : State) :
  subscribers (scheduleReconnect st) = subscribers st.
Proof.
  unfold scheduleReconnect.
  destruct (reconnectTimer st); [reflexivity|].
  destruct (isShuttingDown st); [reflexivity|]. cbv zeta.
  destruct (maxReconnectAttempts <? _); reflexivity.
Qed.

Lemma connect_subscribers (outcome : ConnectOutcome) (st st' : State) :
  connect outcome st = Some st' -> subscribers st' = subscribers st.
Proof.
  unfold connect. destruct (databaseUrl st); [|discriminate].
  destruct outcome; intros [= <-];
    [reflexivity | now rewrite scheduleReconnect_subscribers ..].
Qed.

Lemma handleDisconnect_subscribers (st : State) :
  subscribers (handleDisconnect st) = subscribers st.
Proof.
  unfold handleDisconnect. cbn. destruct (client st); cbn;
    (destruct (isShuttingDown st); cbn;
     [reflexivity | now rewrite scheduleReconnect_subscribers]).
Qed.

Lemma on_client_error_subscribers (message : string) (st : State) :
  subscribers (on_client_error message st) = subscribers st.
Proof. unfold on_client_error. now rewrite handleDisconnect_subscribers. Qed.

Lemma on_reconnect_timer_subscribers (outcome : ConnectOutcome) (st : State) :
  subscribers (on_reconnect_timer outcome st) = subscribers st.
Proof.
  unfold on_reconnect_timer.
  destruct (connect outcome _) as [st'|] eqn:Hc; [|reflexivity].
  apply connect_subscribers in Hc. now rewrite Hc.
Qed.

Lemma initialize_subscribers (url : string) (outcome : ConnectOutcome)
  (st st' : State) :
  initialize url outcome st = Some st' -> subscribers st' = subscribers st.
Proof.
  unfold initialize. destruct (client st).
  - now intros [= <-].
  - intros H. apply connect_subscribers in H. now rewrite H.
Qed.

Lemma log_all_subscribers (lines : list ConsoleLine) (st : State) :
  subscribers (log_all lines st) = subscribers st.
Proof.
  revert st. induction lines as [|l lines IH]; intros st; cbn; [reflexivity|].
  unfold log_all in IH. now rewrite IH.
Qed.

Lemma handleNotification_subscribers parse (msg : PgNotification)
  (st : State) :
  subscribers (handleNotification parse msg st) = subscribers st.
Proof.
  unfold handleNotification. destruct (payload msg) as [text|]; [|reflexivity].
  destruct (_ || _); [reflexivity|].
  destruct (parse text) as [event|]; [|reflexivity].
  destruct (filter_by_project _ _) as [[|sub matching]|]; try reflexivity.
  now rewrite log_all_subscribers.
Qed.

Lemma subscribe_subscribers (s : LogSubscriber) (st : State) :
  subscribers (snd (subscribe s st)) = map_set (id s) s (subscribers st).
Proof. reflexivity. Qed.

Lemma unsubscribe_subscribers (i : string) (st : State) :
  subscribers (unsubscribe i st) = map_delete i (subscribers st).
Proof.
  unfold unsubscribe. destruct (map_has i (subscribers st)); reflexivity.
Qed.

Lemma shutdown_subscribers (closes : bool) (st : State) :
  subscribers (shutdown closes st) = [].
Proof. reflexivity. Qed.

(** The operations that change the registry. *)
Definition registry_op (op : Op) : bool :=
  match op with
  | OSubscribe _ | OUnsubscribe _ | OCallHandle _ | OShutdown _ => true
  | _ => false
  end.

Lemma step_subscribers parse (op : Op) (st : State) :
  registry_op op = false ->
  subscribers (step parse op st) = subscribers st.
Proof.
  destruct op; cbn [registry_op step]; try discriminate; intros _.
  - destruct (initialize url outcome st) eqn:H; [|reflexivity].
    now apply initialize_subscribers in H.
  - destruct (client st); [apply handleNotification_subscribers | reflexivity].
  - destruct (client st); [apply on_client_error_subscribers | reflexivity].
  - destruct (reconnectTimer st);
      [apply on_reconnect_timer_subscribers | reflexivity].
Qed.


Lemma run_cons parse (op : Op) (ops : list Op) (st : State) :
  run parse (op :: ops) st = run parse ops (step parse op st).
Proof. reflexivity. Qed.

Lemma step_NoDup parse (op : Op) (st : State) :
  NoDup (map_keys (subscribers st)) ->
  NoDup (map_keys (subscribers (step parse op st))).
Proof.
  intros Hnd.
  destruct (registry_op op) eqn:Hop;
    [|now rewrite step_subscribers].
  destruct op as [| s | i | [i] | | | |]; try discriminate; cbn [step call_handle].
  - rewrite subscribe_subscribers. now apply map_set_NoDup.
  - rewrite unsubscribe_subscribers. now apply map_delete_NoDup.
  - rewrite unsubscribe_subscribers. now apply map_delete_NoDup.
  - rewrite shutdown_subscribers. constructor.
Qed.

Lemma run_NoDup parse (ops : list Op) (st : State) :
  NoDup (map_keys (subscribers st)) ->
  NoDup (map_keys (subscribers (run parse ops st))).
Proof.
  revert st. induction ops as [|op ops IH]; intros st Hnd; [exact Hnd|].
  rewrite run_cons. apply IH. now apply step_NoDup.
Qed.

(** The client's errors and the firings of the reconnect timer. *)
Inductive ConnectionEvent :=
| ClientFails (message : string)
| TimerFires (outcome : ConnectOutcome).

Definition connection_op (e : ConnectionEvent) : Op :=
  match e with
  | ClientFails message => OClientError message
  | TimerFires outcome => OReconnectTimer outcome
  end.

Lemma run_connection_events parse (es : list ConnectionEvent) (st : State) :
  subscribers (run parse (map connection_op es) st) = subscribers st.
Proof.
  revert st. induction es as [|e es IH]; intros st; [reflexivity|].
  cbn [map]. rewrite run_cons, IH.
  apply step_subscribers. now destruct e.
Qed.

(** C4. The handler of a connection error, [handleDisconnect],
    [scheduleReconnect], [connect] and every sequence of client errors and
    reconnect attempts, however they end, leave the subscriber map as it
    was: the same ids with the same subscribers in the same order. An id
    leaves the map only through [unsubscribe] (called directly or through
    a handle) or through [shutdown], which empties the map. *)
Theorem subscribers_survive_reconnects parse :
  (forall (es : list ConnectionEvent) (st : State),
     subscribers (run parse (map connection_op es) st) = subscribers st)
  /\ (forall message st,
        subscribers (on_client_error message st) = subscribers st)
  /\ (forall st, subscribers (handleDisconnect st) = subscribers st)
  /\ (forall st, subscribers (scheduleReconnect st) = subscribers st)
  /\ (forall outcome st st',
        connect outcome st = Some st' -> subscribers st' = subscribers st)
  /\ (forall op st i,
        In i (map_keys (subscribers st)) ->
        ~ In i (map_keys (subscribers (step parse op st))) ->
        op = OUnsubscribe i \/ op = OCallHandle (Unsubscribe i)
        \/ exists closes, op = OShutdown closes)
  /\ (forall closes st, subscribers (shutdown closes st) = []).
Proof.
  split; [apply run_connection_events|].
  split; [apply on_client_error_subscribers|].
  split; [apply handleDisconnect_subscribers|].
  split; [apply scheduleReconnect_subscribers|].
  split; [apply connect_subscribers|].
  split; [|apply shutdown_subscribers].
  intros op st i Hin Hout.
  destruct (registry_op op) eqn:Hop.
  - destruct op as [| s | k | [k] | | | | closes]; try discriminate;
      cbn [step call_handle] in Hout.
    + exfalso. apply Hout. rewrite subscribe_subscribers.
      apply map_set_keys_in. now right.
    + left. f_equal. destruct (String.string_dec i k) as [|Hne]; [auto|].
      exfalso. apply Hout. rewrite unsubscribe_subscribers.
      now apply map_delete_keys_other.
    + right; left. do 2 f_equal.
      destruct (String.string_dec i k) as [|Hne]; [auto|].
      exfalso. apply Hout. rewrite unsubscribe_subscribers.
      now apply map_delete_keys_other.
    + right; right. now exists closes.
  - exfalso. apply Hout. now rewrite step_subscribers.
Qed.

(** *** Dispatch of a notification *)

Section DispatchProperties.

Variable parse : string -> option Value.

(** [JSON.parse] rejects the empty text. *)
Hypothesis parse_empty : parse "" = None.

(** The subscriber's project is the event's [projectId]. *)
Definition project_matches (event : Value) (sub : LogSubscriber) : bool :=
  match get_prop event "projectId" with
  | Some v => strict_eq_string (projectId sub) v
  | None => false
  end.


Lemma filter_by_project_some (event : Value) (subs matching : list LogSubscriber) :
  filter_by_project event subs = Some matching ->
  matching = filter (project_matches event) subs.
Proof.
  revert matching.
  induction subs as [|sub subs IH]; intros matching;
    cbn [filter_by_project filter].
  - now intros [= <-].
  - destruct (get_prop event "projectId") as [v|] eqn:Hg; [|discriminate].
    destruct (filter_by_project event subs) as [m|]; [|discriminate].
    rewrite (IH m eq_refl).
    assert (Hpm : project_matches event sub
                  = strict_eq_string (projectId sub) v)
      by (unfold project_matches; now rewrite Hg).
    rewrite Hpm. destruct (strict_eq_string _ _); now intros [= <-].
Qed.

Lemma filter_by_project_none (event : Value) (subs : list LogSubscriber) :
  filter_by_project event subs = None ->
  get_prop event "projectId" = None.
Proof.
  induction subs as [|sub subs IH]; cbn; [discriminate|].
  destruct (get_prop event "projectId") as [v|]; [|reflexivity].
  destruct (filter_by_project event subs) as [m|].
  - destruct (strict_eq_string _ _); discriminate.
  - intros _. now apply IH.
Qed.

Lemma log_all_invocations (lines : list ConsoleLine) (st : State) :
  invocations (log_all lines st) = invocations st.
Proof.
  revert st. induction lines as [|l lines IH]; intros st; cbn; [reflexivity|].
  unfold log_all in IH. now rewrite IH.
Qed.

(** The calls that a message owes to the registered subscribers. *)
Definition dispatched (msg : PgNotification) (st : State)
  : list (LogSubscriber * Value) :=
  match payload msg with
  | Some text =>
      if String.eqb (channel msg) "logs_new" then
        match parse text with
        | Some event =>
            map (fun sub => (sub, event))
              (filter (project_matches event) (map_values (subscribers st)))
        | None => []
        end
      else []
  | None => []
  end.

Lemma handleNotification_invocations (msg : PgNotification) (st : State) :
  invocations (handleNotification parse msg st)
    = invocations st ++ dispatched msg st.
Proof.
  unfold handleNotification, dispatched.
  destruct (payload msg) as [text|]; [|now rewrite app_nil_r].
  destruct (String.eqb (channel msg) "logs_new"); cbn [negb orb];
    [|now rewrite app_nil_r].
  destruct (String.eqb_spec text "") as [->|_].
  - rewrite parse_empty. now rewrite app_nil_r.
  - destruct (parse text) as [event|]; [|cbn; now rewrite app_nil_r].
    destruct (filter_by_project event _) as [matching|] eqn:Hf.
    + apply filter_by_project_some in Hf. rewrite <- Hf.
      destruct matching; [cbn; now rewrite app_nil_r|].
      now rewrite log_all_invocations.
    + apply filter_by_project_none in Hf.
      replace (filter _ _) with (@nil LogSubscriber);
        [cbn; now rewrite app_nil_r|].
      symmetry. induction (map_values (subscribers st)) as [|sub subs IH];
        [reflexivity|].
      cbn [filter]. unfold project_matches at 1. now rewrite Hf.
Qed.


End DispatchProperties.

(** *** Reconnection with backoff *)








Section ReconnectProperties.

Variable parse : string -> option Value.




End ReconnectProperties.

(** C10. In every state that the manager reaches, the subscriber map holds
    each id at most once. [subscribe] always returns; after it the
    subscriber's id maps to the subscriber just given, so an earlier
    subscriber of that id is replaced, where it stood and without a second
    entry, and the other ids keep their subscribers. The handle it returns
    is the handle of that id, the same for every [subscribe] of the id,
    and calling it at any later time leaves the id unregistered. *)
Theorem subscribers_one_per_id parse (ops : list Op) :
  let st := run parse ops initial in
  NoDup (map_keys (subscribers st))
  /\ forall s : LogSubscriber,
       let h := fst (subscribe s st) in
       let st' := snd (subscribe s st) in
       h = Unsubscribe (id s)
       /\ lookup (id s) (subscribers st') = Some s
       /\ NoDup (map_keys (subscribers st'))
       /\ (In (id s) (map_keys (subscribers st)) ->
           map_keys (subscribers st') = map_keys (subscribers st))
       /\ (~ In (id s) (map_keys (subscribers st)) ->
           subscribers st' = subscribers st ++ [(id s, s)])
       /\ (forall i, i <> id s ->
             lookup i (subscribers st') = lookup i (subscribers st))
       /\ (forall s2, id s2 = id s -> fst (subscribe s2 st') = h)
       /\ (forall later,
             lookup (id s)
               (subscribers (call_handle h (run parse later st'))) = None).
Proof.
  intros st.
  assert (Hnd : NoDup (map_keys (subscribers st))).
  { apply run_NoDup. constructor. }
  split; [exact Hnd|]. intros s h st'.
  assert (Hnd' : NoDup (map_keys (subscribers st'))).
  { unfold st'. rewrite subscribe_subscribers. now apply map_set_NoDup. }
  split; [reflexivity|].
  split; [apply map_set_lookup_same|].
  split; [exact Hnd'|].
  split; [apply map_set_present|].
  split; [apply map_set_absent|].
  split; [intros i Hi; now apply map_set_lookup_other|].
  split; [intros s2 Hs2; cbn; now rewrite Hs2|].
  intros later. cbn [h call_handle fst subscribe].
  rewrite unsubscribe_subscribers. apply map_delete_lookup.
  now apply run_NoDup.
Qed.

(** *** A run of the manager *)

Definition dq : string := String (Ascii.ascii_of_nat 34) "".

(** The JSON text of an object whose only property is [projectId]. *)
Definition project_text (project : string) : string :=
  ("{" ++ dq ++ "projectId" ++ dq ++ ":" ++ dq ++ project ++ dq ++ "}")%string.

(** A parser of the texts that the examples use: the literal [null] and the
    payloads of the projects p1 and p2. *)
Definition parse_example (text : string) : option Value :=
  if String.eqb text "null" then Some VNull
  else if String.eqb text (project_text "p1")
  then Some (VObject [("projectId", VString "p1")])
  else if String.eqb text (project_text "p2")
  then Some (VObject [("projectId", VString "p2")])
  else None.


Definition dashboard (connection project : string) : LogSubscriber :=
  mkLogSubscriber connection project None None (fun _ => None).





(** *** Status, and the registry seen through it *)

(** The result of [getStatus()]. *)
Record Status := mkStatus {
  connected_status : bool;
  subscriberCount : nat
}.

Definition getStatus (st : State) : Status :=
  mkStatus (isConnected st) (List.length (subscribers st)).

Definition isReady (st : State) : bool := isConnected st.

Lemma map_has_in {A : Type} (k : string) (m : list (string * A)) :
  map_has k m = true <-> In k (map_keys m).
Proof.
  unfold map_has. rewrite lookup_in_keys.
  destruct (lookup k m) as [v|]; split; try discriminate; eauto.
  intros [v H]. discriminate.
Qed.

Lemma map_delete_absent {A : Type} (k : string) (m : list (string * A)) :
  ~ In k (map_keys m) -> map_delete k m = m.
Proof.
  unfold map_keys. induction m as [|[k' x] m IH]; cbn; [reflexivity|].
  intros H. destruct (String.eqb_spec k k') as [->|Hne]; [tauto|].
  rewrite IH; tauto.
Qed.

Lemma map_delete_last {A : Type} (k : string) (v : A)
  (m : list (string * A)) :
  ~ In k (map_keys m) -> map_delete k (m ++ [(k, v)]) = m.
Proof.
  unfold map_keys. induction m as [|[k' x] m IH]; cbn.
  - now rewrite String.eqb_refl.
  - intros H. destruct (String.eqb_spec k k') as [->|Hne]; [tauto|].
    rewrite IH; tauto.
Qed.

Lemma map_set_length {A : Type} (k : string) (v : A)
  (m : list (string * A)) :
  List.length (map_set k v m)
  = if map_has k m then List.length m else S (List.length m).
Proof.
  unfold map_has. induction m as [|[k' x] m IH]; cbn; [reflexivity|].
  destruct (String.eqb_spec k k') as [->|Hne]; cbn; [reflexivity|].
  rewrite IH. now destruct (lookup k m).
Qed.

Lemma map_delete_length {A : Type} (k : string) (m : list (string * A)) :
  List.length (map_delete k m)
  = if map_has k m then List.length m - 1 else List.length m.
Proof.
  unfold map_has. induction m as [|[k' x] m IH]; cbn; [reflexivity|].
  destruct (String.eqb_spec k k') as [->|Hne]; cbn; [lia|].
  rewrite IH. destruct (lookup k m) eqn:Hl; [|reflexivity].
  destruct m; [discriminate | cbn; lia].
Qed.

(** X3. Unsubscribing an id that is not registered changes nothing, not even
    the console. Subscribing under a new id and unsubscribing it again
    gives back the registry as it was. The count that [getStatus] reports
    grows by one for a new id and stays for a registered one on
    [subscribe], and on [unsubscribe] drops by one for a registered id and
    stays for an unknown one. *)
Theorem unsubscribe_undoes_subscribe :
  (forall i st, ~ In i (map_keys (subscribers st)) -> unsubscribe i st = st)
  /\ (forall s st,
        ~ In (id s) (map_keys (subscribers st)) ->
        subscribers (unsubscribe (id s) (snd (subscribe s st)))
        = subscribers st)
  /\ (forall s st,
        subscriberCount (getStatus (snd (subscribe s st)))
        = if map_has (id s) (subscribers st)
          then subscriberCount (getStatus st)
          else S (subscriberCount (getStatus st)))
  /\ (forall i st,
        subscriberCount (getStatus (unsubscribe i st))
        = if map_has i (subscribers st)
          then subscriberCount (getStatus st) - 1
          else subscriberCount (getStatus st)).
Proof.
  split; [|split; [|split]].
  - intros i st Hout. unfold unsubscribe.
    destruct (map_has i (subscribers st)) eqn:Hh.
    + apply map_has_in in Hh. contradiction.
    + rewrite (map_delete_absent _ _ Hout). now destruct st.
  - intros s st Hout. rewrite unsubscribe_subscribers, subscribe_subscribers.
    rewrite (map_set_absent _ _ _ Hout). now apply map_delete_last.
  - intros s st. cbn [getStatus subscriberCount].
    rewrite subscribe_subscribers. apply map_set_length.
  - intros i st. cbn [getStatus subscriberCount].
    rewrite unsubscribe_subscribers. apply map_delete_length.
Qed.

(** *** What a notification leaves alone *)

(** The second state differs from the first in its console and its list
    of invocations at most. *)
Definition unchanged_but_traces (st st' : State) : Prop :=
  client st' = client st
  /\ subscribers st' = subscribers st
  /\ reconnectTimer st' = reconnectTimer st
  /\ isConnected st' = isConnected st
  /\ isShuttingDown st' = isShuttingDown st
  /\ databaseUrl st' = databaseUrl st
  /\ reconnectAttempts st' = reconnectAttempts st
  /\ clientsCreated st' = clientsCreated st
  /\ events st' = events st
  /\ timeouts st' = timeouts st.

Lemma unchanged_refl (st : State) : unchanged_but_traces st st.
Proof. unfold unchanged_but_traces. tauto. Qed.

Lemma log_all_unchanged (lines : list ConsoleLine) (st : State) :
  unchanged_but_traces st (log_all lines st)
  /\ console (log_all lines st) = console st ++ lines
  /\ invocations (log_all lines st) = invocations st.
Proof.
  revert st. unfold log_all.
  induction lines as [|l lines IH]; intros st; cbn [fold_left].
  - split; [apply unchanged_refl|]. now rewrite app_nil_r.
  - destruct (IH (log l st)) as (Hu & Hc & Hi). split; [exact Hu|].
    rewrite Hc, Hi. cbn. now rewrite <- app_assoc.
Qed.

Lemma handleNotification_unchanged parse (msg : PgNotification)
  (st : State) :
  unchanged_but_traces st (handleNotification parse msg st).
Proof.
  unfold handleNotification. destruct (payload msg); [|apply unchanged_refl].
  destruct (_ || _); [apply unchanged_refl|].
  destruct (parse s); [|unfold unchanged_but_traces; cbn; tauto].
  destruct (filter_by_project _ _) as [[|sub l]|];
    try (unfold unchanged_but_traces; cbn; tauto).
  destruct (log_all_unchanged (rejections v (sub :: l))
              (invoke (map (fun s0 => (s0, v)) (sub :: l)) st)) as (Hu & _).
  unfold unchanged_but_traces in *. cbn in Hu. exact Hu.
Qed.




(** *** After [shutdown] *)

Lemma scheduleReconnect_shutting_down (st : State) :
  isShuttingDown st = true -> scheduleReconnect st = st.
Proof.
  intros H. unfold scheduleReconnect. rewrite H.
  now destruct (reconnectTimer st).
Qed.

(** The manager is shut down: the flag is set and no timer is pending. *)
Definition shut_down (st : State) : Prop :=
  isShuttingDown st = true /\ reconnectTimer st = None.

Lemma step_shut_down parse (op : Op) (st : State) :
  shut_down st ->
  shut_down (step parse op st) /\ timeouts (step parse op st) = timeouts st.
Proof.
  intros [Hs Ht]. unfold shut_down.
  destruct op as [url outcome|s|i|[i]|msg|message|outcome|closes];
    cbn [step].
  - unfold initialize. destruct (client st); [cbn; auto|].
    unfold connect. cbn [databaseUrl set_databaseUrl].
    destruct outcome; cbn zeta; try (cbn; auto; fail);
      rewrite scheduleReconnect_shutting_down by (cbn; exact Hs);
      cbn; auto.
  - cbn. auto.
  - unfold unsubscribe. destruct (map_has _ _); cbn; auto.
  - cbn [call_handle]. unfold unsubscribe.
    destruct (map_has _ _); cbn; auto.
  - destruct (client st); [|auto].
    destruct (handleNotification_unchanged parse msg st)
      as (_ & _ & H2 & _ & H4 & _ & _ & _ & _ & H9).
    rewrite H2, H4, H9. auto.
  - destruct (client st) eqn:Hc; [|auto].
    unfold on_client_error, handleDisconnect. cbn. rewrite Hc. cbn.
    rewrite Hs. cbn. auto.
  - rewrite Ht. auto.
  - destruct st as [c subs t ic sd url att cc ev co inv ts].
    cbn in Hs, Ht. subst. destruct c, closes; cbn; auto.
Qed.

(** X5. [shutdown] is final. After it the manager stays shut down whatever
    happens next, a new [initialize] included: [isShuttingDown] stays set,
    no reconnect timer is pending and none is ever started again, so a
    connection lost or refused after [shutdown] is never retried. *)
Theorem shutdown_is_final parse (closes : bool) (st : State)
  (ops : list Op) :
  let st' := run parse ops (shutdown closes st) in
  isShuttingDown st' = true
  /\ reconnectTimer st' = None
  /\ timeouts st' = timeouts st.
Proof.
  cbv zeta.
  assert (H0 : shut_down (shutdown closes st)
               /\ timeouts (shutdown closes st) = timeouts st).
  { unfold shut_down. destruct st as [c subs t ic sd url att cc ev co inv ts].
    destruct t, c, closes; cbn; auto. }
  revert H0. generalize (shutdown closes st) as s0.
  induction ops as [|op ops IH]; intros s0 [Hsd Hts].
  - destruct Hsd. auto.
  - rewrite run_cons. apply IH.
    destruct (step_shut_down parse op s0 Hsd) as [Hsd' Hts'].
    split; [exact Hsd' | congruence].
Qed.

(** *** The connection state *)

(** What [isReady()] and a pending timer say is true of the manager: it
    is connected only with a client in hand, no timer pending and the
    attempts counter at zero; a timer is pending only without a client,
    outside shutdown, for an attempt between the first and the tenth, and
    with the delay of that attempt. *)
Definition consistent (st : State) : Prop :=
  (isConnected st = true ->
   (exists c, client st = Some c)
   /\ reconnectTimer st = None
   /\ reconnectAttempts st = 0)
  /\ (forall d, reconnectTimer st = Some d ->
        client st = None
        /\ isShuttingDown st = false
        /\ 1 <= reconnectAttempts st <= maxReconnectAttempts
        /\ d = reconnect_delay (reconnectAttempts st)).

Definition is_initialize (op : Op) : bool :=
  match op with
  | OInitialize _ _ => true
  | _ => false
  end.

Lemma scheduleReconnect_consistent (st : State) :
  client st = None -> isConnected st = false ->
  (forall d, reconnectTimer st = Some d ->
     isShuttingDown st = false
     /\ 1 <= reconnectAttempts st <= maxReconnectAttempts
     /\ d = reconnect_delay (reconnectAttempts st)) ->
  consistent (scheduleReconnect st).
Proof.
  intros Hc Hi Ht. unfold scheduleReconnect.
  destruct (reconnectTimer st) as [d|] eqn:Hd.
  - split; [congruence|]. intros d' Hd'. rewrite Hd in Hd'.
    injection Hd' as <-. destruct (Ht d eq_refl) as (H1 & H2 & H3). auto.
  - destruct (isShuttingDown st) eqn:Hs.
    + split; [congruence|]. intros d' Hd'. congruence.
    + cbv zeta. cbn [reconnectAttempts set_reconnectAttempts].
      destruct (Nat.ltb_spec maxReconnectAttempts (S (reconnectAttempts st)))
        as [Hlt|Hge].
      * split; cbn; [congruence|]. intros d' Hd'. congruence.
      * split; cbn; [congruence|]. intros d' [= <-].
        repeat split; auto; lia.
Qed.

Lemma connect_consistent (outcome : ConnectOutcome) (st st' : State) :
  client st = None -> isConnected st = false -> reconnectTimer st = None ->
  connect outcome st = Some st' ->
  consistent st'.
Proof.
  intros Hc Hi Ht. unfold connect.
  destruct (databaseUrl st); [|discriminate].
  destruct outcome; intros [= <-].
  - split; cbn; [intros _; rewrite Ht; eauto|].
    intros d Hd. congruence.
  - apply scheduleReconnect_consistent; cbn; auto. intros d Hd. congruence.
  - apply scheduleReconnect_consistent; cbn; auto. intros d Hd. congruence.
Qed.

Lemma unchanged_consistent (st st' : State) :
  unchanged_but_traces st st' -> consistent st -> consistent st'.
Proof.
  intros (H0 & _ & H2 & H3 & H4 & _ & H6 & _) [Hc Ht].
  unfold consistent. rewrite H0, H2, H3, H4, H6. auto.
Qed.

Lemma unchanged_consistent_subscribers (st st' : State) :
  client st' = client st ->
  reconnectTimer st' = reconnectTimer st ->
  isConnected st' = isConnected st ->
  isShuttingDown st' = isShuttingDown st ->
  reconnectAttempts st' = reconnectAttempts st ->
  consistent st -> consistent st'.
Proof.
  intros H0 H2 H3 H4 H6 [Hc Ht].
  unfold consistent. rewrite H0, H2, H3, H4, H6. auto.
Qed.

Lemma step_consistent parse (op : Op) (st : State) :
  consistent st ->
  (is_initialize op = true -> reconnectTimer st = None) ->
  consistent (step parse op st).
Proof.
  intros Hcons Hinit.
  assert (Hnc : client st = None -> isConnected st = false).
  { intros Hc. destruct (isConnected st) eqn:Hi; [|reflexivity].
    destruct (proj1 Hcons Hi) as ([c Hc'] & _). congruence. }
  destruct op as [url outcome|s|i|[i]|msg|message|outcome|closes];
    cbn [step].
  - unfold initialize. destruct (client st) eqn:Hc.
    + eapply unchanged_consistent; [|exact Hcons].
      unfold unchanged_but_traces. cbn. tauto.
    + destruct (connect outcome _) as [st'|] eqn:Hco; [|exact Hcons].
      eapply connect_consistent; [| | |exact Hco]; cbn; auto.
  - eapply unchanged_consistent_subscribers; [..|exact Hcons]; reflexivity.
  - eapply unchanged_consistent_subscribers; [..|exact Hcons];
      unfold unsubscribe; destruct (map_has _ _); reflexivity.
  - eapply unchanged_consistent_subscribers; [..|exact Hcons];
      cbn [call_handle]; unfold unsubscribe; destruct (map_has _ _);
      reflexivity.
  - destruct (client st); [|exact Hcons].
    eapply unchanged_consistent; [|exact Hcons].
    apply handleNotification_unchanged.
  - destruct (client st) as [c|] eqn:Hc; [|exact Hcons].
    assert (Ht : reconnectTimer st = None).
    { destruct (reconnectTimer st) as [d|] eqn:Hd; [|reflexivity].
      destruct (proj2 Hcons d Hd) as (Hc' & _). congruence. }
    unfold on_client_error, handleDisconnect. cbn. rewrite Hc. cbn.
    destruct (isShuttingDown st) eqn:Hs; cbn.
    + split; cbn; [discriminate|]. intros d Hd. congruence.
    + apply scheduleReconnect_consistent; cbn; auto.
      intros d Hd. congruence.
  - destruct (reconnectTimer st) as [d|] eqn:Hd; [|exact Hcons].
    destruct (proj2 Hcons d Hd) as (Hc & Hs & Ha & _).
    unfold on_reconnect_timer.
    destruct (connect outcome _) as [st'|] eqn:Hco.
    + eapply connect_consistent; [| | |exact Hco]; cbn; auto.
    + split; cbn; [rewrite (Hnc Hc); discriminate|]. discriminate.
  - destruct st as [c subs t ic sd url att cc ev co inv ts].
    destruct t, c, closes; split; cbn; discriminate.
Qed.

(** X6. As long as [initialize] is not called again, the status that the
    manager reports is never stale: it says connected only while it holds
    a client, with no reconnect pending and the attempts counter at zero;
    and a reconnect is pending only while there is no client, outside
    shutdown, for one of the ten attempts and with that attempt's delay. *)
Theorem status_is_never_stale parse (url : string)
  (outcome : ConnectOutcome) (ops : list Op) :
  forallb (fun op => negb (is_initialize op)) ops = true ->
  let st := run parse (OInitialize url outcome :: ops) initial in
  (isReady st = true ->
   (exists c, client st = Some c)
   /\ reconnectTimer st = None
   /\ reconnectAttempts st = 0)
  /\ (forall d, reconnectTimer st = Some d ->
        client st = None
        /\ isShuttingDown st = false
        /\ 1 <= reconnectAttempts st <= maxReconnectAttempts
        /\ d = reconnect_delay (reconnectAttempts st)).
Proof.
  intros Hops. cbv zeta. change (consistent
    (run parse (OInitialize url outcome :: ops) initial)).
  rewrite run_cons.
  assert (H0 : consistent (step parse (OInitialize url outcome) initial)).
  { apply step_consistent; [|reflexivity].
    split; cbn; [discriminate|]. discriminate. }
  revert H0. generalize (step parse (OInitialize url outcome) initial) as s0.
  induction ops as [|op ops IH]; intros s0 H0; [exact H0|].
  cbn [forallb] in Hops. apply andb_true_iff in Hops. destruct Hops as [Hop Hops].
  rewrite run_cons. apply (IH Hops). apply step_consistent; [exact H0|].
  intros Hi. rewrite Hi in Hop. discriminate.
Qed.

Lemma status_is_never_stale_witness :
  (exists c,
     client
       (run parse_example
          [OInitialize "postgres://logtide" ConnectAndListen;
           OClientError "ECONNRESET"; OReconnectTimer ConnectAndListen]
          initial)
     = Some c)
  /\ reconnectTimer
       (run parse_example
          [OInitialize "postgres://logtide" ConnectAndListen;
           OClientError "ECONNRESET"; OReconnectTimer ConnectAndListen]
          initial)
     = None
  /\ reconnectAttempts
       (run parse_example
          [OInitialize "postgres://logtide" ConnectAndListen;
           OClientError "ECONNRESET"; OReconnectTimer ConnectAndListen]
          initial)
     = 0.
Proof.
  exact (proj1 (status_is_never_stale parse_example "postgres://logtide"
                  ConnectAndListen
                  [OClientError "ECONNRESET"; OReconnectTimer ConnectAndListen]
                  eq_refl)
           eq_refl).
Defined.

(** *** One call per subscriber *)

(** Every entry of the map is filed under its subscriber's id. *)
Definition keyed (m : list (string * LogSubscriber)) : Prop :=
  Forall (fun kv => fst kv = id (snd kv)) m.

Lemma map_set_keyed (s : LogSubscriber) (m : list (string * LogSubscriber)) :
  keyed m -> keyed (map_set (id s) s m).
Proof.
  unfold keyed. induction m as [|[k x] m IH]; cbn; intros H.
  - repeat constructor.
  - inversion H as [|? ? Hk Hm]; subst. cbn in Hk.
    destruct (String.eqb_spec (id s) k) as [<-|Hne].
    + constructor; [reflexivity | exact Hm].
    + constructor; [exact Hk | auto].
Qed.

Lemma map_delete_keyed (k : string) (m : list (string * LogSubscriber)) :
  keyed m -> keyed (map_delete k m).
Proof.
  unfold keyed. induction m as [|[k' x] m IH]; cbn; intros H; [exact H|].
  inversion H as [|? ? Hk Hm]; subst.
  destruct (String.eqb k k'); [exact Hm | constructor; auto].
Qed.

Lemma run_keyed parse (ops : list Op) (st : State) :
  keyed (subscribers st) -> keyed (subscribers (run parse ops st)).
Proof.
  revert st. induction ops as [|op ops IH]; intros st Hk; [exact Hk|].
  rewrite run_cons. apply IH.
  destruct (registry_op op) eqn:Hop; [|now rewrite step_subscribers].
  destruct op as [| s | i | [i] | | | |]; try discriminate;
    cbn [step call_handle].
  - rewrite subscribe_subscribers. now apply map_set_keyed.
  - rewrite unsubscribe_subscribers. now apply map_delete_keyed.
  - rewrite unsubscribe_subscribers. now apply map_delete_keyed.
  - rewrite shutdown_subscribers. constructor.
Qed.

Lemma keyed_ids (m : list (string * LogSubscriber)) :
  keyed m -> map id (map_values m) = map_keys m.
Proof.
  unfold keyed, map_values, map_keys.
  induction 1 as [|[k x] m Hk Hm IH]; cbn; [reflexivity|].
  cbn in Hk. now rewrite IH, Hk.
Qed.

Lemma NoDup_map_filter {A B : Type} (f : A -> B) (keep : A -> bool)
  (l : list A) :
  NoDup (map f l) -> NoDup (map f (filter keep l)).
Proof.
  induction l as [|x l IH]; cbn; intros H; [constructor|].
  inversion H as [|? ? Hout Hnd]; subst.
  destruct (keep x); cbn; [|auto]. constructor; [|auto].
  intros Hin. apply Hout. apply in_map_iff in Hin.
  destruct Hin as (y & Hy & Hin). apply filter_In in Hin.
  apply in_map_iff. exists y. tauto.
Qed.

Lemma filter_none {A : Type} (l : list A) : filter (fun _ => false) l = [].
Proof. induction l; cbn; auto. Qed.

(** X7. In every state that the manager reaches, a notification calls no
    subscriber id twice, and it calls the subscribers in the order of the
    map, which is the order in which their ids were first subscribed: the
    subscribers called are a selection of the map's values, in place. *)
Theorem each_subscriber_called_once parse (ops : list Op)
  (msg : PgNotification) :
  parse "" = None ->
  let st := run parse ops initial in
  exists calls,
    invocations (handleNotification parse msg st) = invocations st ++ calls
    /\ NoDup (map (fun call => id (fst call)) calls)
    /\ exists keep,
         map fst calls = filter keep (map_values (subscribers st)).
Proof.
  intros Hparse st. exists (dispatched parse msg st).
  split; [now apply handleNotification_invocations|].
  assert (Hnd : NoDup (map id (map_values (subscribers st)))).
  { rewrite keyed_ids by (apply run_keyed; constructor).
    apply run_NoDup. constructor. }
  assert (Hnil : NoDup (map (fun call : LogSubscriber * Value => id (fst call)) [])
                 /\ exists keep : LogSubscriber -> bool,
                      map fst (@nil (LogSubscriber * Value))
                      = filter keep (map_values (subscribers st))).
  { split; [constructor|]. exists (fun _ => false). now rewrite filter_none. }
  unfold dispatched. destruct (payload msg); [|exact Hnil].
  destruct (String.eqb _ _); [|exact Hnil].
  destruct (parse s) as [event|]; [|exact Hnil].
  split.
  - rewrite map_map. cbn [fst]. now apply NoDup_map_filter.
  - exists (project_matches event). rewrite map_map. cbn [fst].
    apply map_id.
Qed.

Lemma each_subscriber_called_once_witness :
  exists calls,
    invocations
      (handleNotification parse_example
         (mkPgNotification "logs_new" (Some (project_text "p1")))
         (run parse_example
            [OSubscribe (dashboard "c1" "p1");
             OSubscribe (dashboard "c2" "p1")] initial))
    = [] ++ calls
    /\ NoDup (map (fun call => id (fst call)) calls)
    /\ exists keep,
         map fst calls
         = filter keep [dashboard "c1" "p1"; dashboard "c2" "p1"].
Proof.
  exact (each_subscriber_called_once parse_example
           [OSubscribe (dashboard "c1" "p1"); OSubscribe (dashboard "c2" "p1")]
           (mkPgNotification "logs_new" (Some (project_text "p1")))
           eq_refl).
Defined.

End Listener.

(** ** From the publisher to the subscribers *)

Module Streaming.

Import JS.



Section EndToEnd.

Variable now : nat -> string.
Variable execute : nat -> Publisher.Notification -> option string.
Variable JSON_parse : string -> option Value.

(** The manager's listener called for each message, in order. *)
Definition receive (msgs : list Listener.PgNotification)
  (st : Listener.State) : Listener.State :=
  fold_left (fun st msg => Listener.handleNotification JSON_parse msg st)
    msgs st.


Hypothesis parse_empty : JSON_parse "" = None.

Lemma receive_subscribers (msgs : list Listener.PgNotification)
  (st : Listener.State) :
  Listener.subscribers (receive msgs st) = Listener.subscribers st.
Proof.
  revert st. induction msgs as [|msg msgs IH]; intros st; [reflexivity|].
  cbn [receive fold_left]. fold (receive msgs).
  now rewrite IH, Listener.handleNotification_subscribers.
Qed.








End EndToEnd.





End Streaming.

(** ** Ingestion schema (packages/shared/src/schemas/index.ts) *)

Module Schema.

Import JS.

(** A zod schema, as the predicate "[safeParse] succeeds". *)
Definition ZodType := Value -> bool.

(** A check chained on [z.string()] or [z.array()]. *)
Definition StringCheck := string -> bool.
Definition ArrayCheck := list Value -> bool.

(** [z.string()] followed by its checks. *)
Definition z_string (checks : list StringCheck) : ZodType :=
  fun v =>
    match v with
    | VString s => forallb (fun check => check s) checks
    | _ => false
    end.

Definition min (n : nat) : StringCheck := fun s => n <=? String.length s.
Definition max (n : nat) : StringCheck := fun s => String.length s <=? n.

(** [z.enum(values)] *)
Definition z_enum (values : list string) : ZodType :=
  fun v =>
    match v with
    | VString s => existsb (String.eqb s) values
    | _ => false
    end.

(** [z.date()]: a [Date] whose time is not [NaN]. *)
Definition z_date : ZodType :=
  fun v =>
    match v with
    | VDate (Some _) => true
    | _ => false
    end.

Definition z_unknown : ZodType := fun _ => true.

(** [a.or(b)] *)
Definition z_or (a b : ZodType) : ZodType := fun v => a v || b v.

(** [a.optional()]: [undefined], which is also what an absent key reads
    as, or a value of [a]. *)
Definition z_optional (a : ZodType) : ZodType :=
  fun v =>
    match v with
    | VUndefined => true
    | _ => a v
    end.

(** [z.record(value)] *)
Definition z_record (value : ZodType) : ZodType :=
  fun v =>
    match v with
    | VObject fields => forallb (fun kv => value (snd kv)) fields
    | _ => false
    end.

(** [z.array(element)] followed by its checks. *)
Definition z_array (element : ZodType) (checks : list ArrayCheck) : ZodType :=
  fun v =>
    match v with
    | VArray items =>
        forallb (fun check => check items) checks && forallb element items
    | _ => false
    end.

Definition array_min (n : nat) : ArrayCheck := fun l => n <=? List.length l.
Definition array_max (n : nat) : ArrayCheck := fun l => List.length l <=? n.

(** The value that an object's own properties give to a key. *)
Definition prop (fields : list (string * Value)) (key : string) : Value :=
  match lookup key fields with
  | Some v => v
  | None => VUndefined
  end.

(** [z.object(shape)]: every key of the shape is checked; keys outside the
    shape are stripped. *)
Definition z_object (shape : list (string * ZodType)) : ZodType :=
  fun v =>
    match v with
    | VObject fields =>
        forallb (fun entry => snd entry (prop fields (fst entry))) shape
    | _ => false
    end.

(** *** Regular expressions of the form [/^[ranges]{count}$/] *)

Record RegExp := mkRegExp {
  ranges : list (ascii * ascii);
  count : nat;
  ignoreCase : bool
}.

Definition in_range (c : ascii) (r : ascii * ascii) : bool :=
  (nat_of_ascii (fst r) <=? nat_of_ascii c)
  && (nat_of_ascii c <=? nat_of_ascii (snd r)).

(** [Canonicalize] of a character below 128: its upper case. *)
Definition canonicalize (c : ascii) : ascii :=
  if (97 <=? nat_of_ascii c) && (nat_of_ascii c <=? 122)
  then ascii_of_nat (nat_of_ascii c - 32)
  else c.

Definition members (r : ascii * ascii) : list ascii :=
  map ascii_of_nat
    (seq (nat_of_ascii (fst r))
       (S (nat_of_ascii (snd r)) - nat_of_ascii (fst r))).

(** A character matches the class: it lies in a range, or with the [i]
    flag it canonicalizes as a member of a range does. *)
Definition class_matches (re : RegExp) (c : ascii) : bool :=
  if ignoreCase re then
    existsb
      (fun r =>
         existsb (fun m => Ascii.eqb (canonicalize m) (canonicalize c))
           (members r))
      (ranges re)
  else existsb (in_range c) (ranges re).

(** [re.test(s)] *)
Definition test (re : RegExp) (s : string) : bool :=
  (String.length s =? count re)
  && forallb (class_matches re) (list_ascii_of_string s).

Definition regex (re : RegExp) : StringCheck := test re.

(** *** The schemas *)

(** packages/shared/src/constants/log-constants.ts *)
Definition LOG_LEVELS : list string :=
  ["debug"; "info"; "warn"; "error"; "critical"].

Definition logLevelSchema : ZodType := z_enum LOG_LEVELS.

(** [/^[a-f0-9]{16}$/i] *)
Definition span_id_regex : RegExp :=
  mkRegExp [("a"%char, "f"%char); ("0"%char, "9"%char)] 16 true.

Section WithDatetime.

(** The check of [z.string().datetime()], which belongs to zod. *)
Variable datetime : StringCheck.

Definition logSchema : ZodType :=
  z_object
    [("time", z_or (z_string [datetime]) z_date);
     ("service", z_string [min 1; max 100]);
     ("level", logLevelSchema);
     ("message", z_string [min 1]);
     ("metadata", z_optional (z_record z_unknown));
     ("trace_id", z_optional (z_string []));
     ("span_id", z_optional (z_string [regex span_id_regex]))].

Definition ingestRequestSchema : ZodType :=
  z_object [("logs", z_array logSchema [array_min 1; array_max 1000])].

End WithDatetime.

(** *** The batches of the specification *)




(** *** What the schemas accept *)












Section SchemaProperties.

Variable datetime : StringCheck.



End SchemaProperties.

(** *** Two batches *)

Definition log_with (extra : list (string * Value)) : Value :=
  VObject
    ([("service", VString "api");
      ("level", VString "info");
      ("message", VString "started")] ++ extra).




(** *** Batches cut and joined, and keys outside the shape *)

(** A request body that holds nothing but its logs. *)
Definition request (logs : list Value) : Value :=
  VObject [("logs", VArray logs)].

(** The keys of the shape of [logSchema]. *)
Definition log_keys : list string :=
  ["time"; "service"; "level"; "message"; "metadata"; "trace_id"; "span_id"].

Lemma prop_other (key k : string) (v : Value)
  (fields : list (string * Value)) :
  key <> k -> prop ((k, v) :: fields) key = prop fields key.
Proof.
  intros Hne. unfold prop. cbn [lookup].
  now rewrite (proj2 (String.eqb_neq key k) Hne).
Qed.

Section BatchProperties.

Variable datetime : StringCheck.

Lemma ingestRequestSchema_request (logs : list Value) :
  ingestRequestSchema datetime (request logs)
  = (1 <=? List.length logs) && (List.length logs <=? 1000)
    && forallb (logSchema datetime) logs.
Proof.
  unfold ingestRequestSchema, request, z_object, z_array, array_min,
    array_max.
  cbn [forallb fst snd prop lookup String.eqb Ascii.eqb Bool.eqb].
  now rewrite !andb_true_r.
Qed.

(** X14. Of the logs of a request that passes validation, every non-empty
    slice is a request that passes; and two requests that pass join into
    one that passes exactly when they hold 1000 logs or fewer together. *)
Theorem ingestRequestSchema_slices (logs more : list Value) (a b : nat) :
  ingestRequestSchema datetime (request logs) = true ->
  (a < b <= List.length logs ->
   ingestRequestSchema datetime (request (slice logs a b)) = true)
  /\ (ingestRequestSchema datetime (request more) = true ->
      (ingestRequestSchema datetime (request (logs ++ more)) = true
       <-> List.length logs + List.length more <= 1000)).
Proof.
  rewrite !ingestRequestSchema_request, !andb_true_iff, !Nat.leb_le.
  intros [[Hmin Hmax] Hall]. split.
  - intros Hab. unfold slice.
    assert (Hlen : List.length (firstn (b - a) (skipn a logs)) = b - a)
      by (rewrite firstn_length_le; [reflexivity | rewrite length_skipn; lia]).
    rewrite Hlen. repeat split; try lia.
    apply forallb_forall. intros x Hx.
    rewrite forallb_forall in Hall. apply Hall.
    rewrite <- (firstn_skipn a logs). apply in_or_app. right.
    rewrite <- (firstn_skipn (b - a) (skipn a logs)).
    apply in_or_app. now left.
  - intros [[Hmin' Hmax'] Hall'].
    rewrite length_app, forallb_app, Hall, Hall'. split.
    + intros [[_ H] _]. exact H.
    + intros H. repeat split; lia.
Qed.

(** X15. Validation reads no key outside the shapes: a property under another
    name changes the verdict neither of a log nor of a request. *)
Theorem schemas_ignore_other_keys (k : string) (v : Value)
  (fields : list (string * Value)) :
  (~ In k log_keys ->
   logSchema datetime (VObject ((k, v) :: fields))
   = logSchema datetime (VObject fields))
  /\ (k <> "logs" ->
      ingestRequestSchema datetime (VObject ((k, v) :: fields))
      = ingestRequestSchema datetime (VObject fields)).
Proof.
  split.
  - intros Hk. unfold logSchema, z_object. cbn [forallb fst snd].
    rewrite !prop_other; [reflexivity|..];
      intros <-; apply Hk; cbn; auto 8.
  - intros Hk. unfold ingestRequestSchema, z_object. cbn [forallb fst snd].
    rewrite prop_other; [reflexivity|]. congruence.
Qed.

End BatchProperties.

Lemma ingestRequestSchema_slices_witness :
  ingestRequestSchema (fun _ => true)
    (request
       (slice [log_with [("time", VDate (Some 0%Z))];
               log_with [("time", VDate (Some 1%Z))]] 0 1))
  = true.
Proof.
  refine (proj1 (ingestRequestSchema_slices (fun _ => true)
                   [log_with [("time", VDate (Some 0%Z))];
                    log_with [("time", VDate (Some 1%Z))]] [] 0 1 eq_refl)
            _).
  cbn. lia.
Defined.

End Schema.

(** ** Queue supervisor (packages/backend/src/queue/queue-factory.ts) *)

Module QueueSystem.

Import JS.

Inductive QueueBackend := bullmq | graphile.

Record QueueConfig := mkQueueConfig {
  backend : QueueBackend;
  redisUrl : option string;
  databaseUrl : string
}.

(** How a method ends. *)
Inductive Result (A : Type) :=
| Ok (a : A)
| Throw (message : string).
Arguments Ok {A} a.
Arguments Throw {A} message.

(** *** Options of the Redis connection *)

(** [retryStrategy]: [Math.min(times * 1000, maxDelay)] with
    [maxDelay = 30000]. *)
Definition retryStrategy (times : Z) : Z :=
  let maxDelay := 30000%Z in
  let delay := Z.min (times * 1000) maxDelay in
  delay.

Definition targetErrors : list string :=
  ["READONLY"; "ECONNRESET"; "ECONNREFUSED"].

(** [reconnectOnError], of [err.message]. *)
Definition reconnectOnError (message : string) : bool :=
  if existsb (fun e => includes message e) targetErrors then true else false.

(** *** The manager *)

Section WithProcessors.

(** The type of the functions given as [processor]. *)
Variable JobProcessor : Type.

(** The adapters, each with the number of the object that [new] made. *)
Record QueueAdapter := mkQueueAdapter {
  queue_object : nat;
  queue_backend : QueueBackend;
  queue_name : string;
  queue_connection : nat
}.

Record WorkerAdapter := mkWorkerAdapter {
  worker_object : nat;
  worker_backend : QueueBackend;
  worker_name : string;
  worker_processor : JobProcessor;
  worker_connection : nat
}.

(** The fields of [QueueSystemManager]; [objects] counts the objects made
    so far. *)
Record State := mkState {
  config : option QueueConfig;
  redisConnection : option nat;
  pgPool : option nat;
  initialized : bool;
  queueCache : list (string * QueueAdapter);
  workerCache : list (string * WorkerAdapter);
  objects : nat
}.

Definition fresh : State := mkState None None None false [] [] 0.

(** Whether the constructor of an adapter of this backend throws for this
    name, and with what: that is the adapters' and their libraries'. *)
Variable queue_constructor : QueueBackend -> string -> option string.
Variable worker_constructor : QueueBackend -> string -> option string.

Definition initialize (cfg : QueueConfig) (st : State)
  : Result unit * State :=
  if initialized st then (Ok tt, st)
  else
    let st := mkState (Some cfg) (redisConnection st) (pgPool st)
                (initialized st) (queueCache st) (workerCache st)
                (objects st) in
    match backend cfg with
    | bullmq =>
        match redisUrl cfg with
        | None | Some EmptyString =>
            (Throw "[QueueSystem] Redis URL required for BullMQ backend", st)
        | Some _ =>
            (Ok tt,
             mkState (config st) (Some (objects st)) (pgPool st) true
               (queueCache st) (workerCache st) (S (objects st)))
        end
    | graphile =>
        (Ok tt,
         mkState (config st) (redisConnection st) (Some (objects st)) true
           (queueCache st) (workerCache st) (S (objects st)))
    end.

Definition getRedisConnection (st : State) : Result nat :=
  match redisConnection st with
  | None =>
      Throw "[QueueSystem] Redis connection not available. Using graphile backend?"
  | Some c => Ok c
  end.

Definition getPgPool (st : State) : Result nat :=
  match pgPool st with
  | None =>
      Throw "[QueueSystem] PostgreSQL pool not available. Using bullmq backend?"
  | Some c => Ok c
  end.

(** The connection that the adapters of a backend are built on. *)
Definition connection_of (b : QueueBackend) (st : State) : Result nat :=
  match b with
  | bullmq => getRedisConnection st
  | graphile => getPgPool st
  end.

Definition createQueue (name : string) (st : State)
  : Result QueueAdapter * State :=
  match config st with
  | None =>
      (Throw "[QueueSystem] Not initialized. Call initialize() first.", st)
  | Some cfg =>
      match lookup name (queueCache st) with
      | Some cached => (Ok cached, st)
      | None =>
          match connection_of (backend cfg) st with
          | Throw e => (Throw e, st)
          | Ok connection =>
              match queue_constructor (backend cfg) name with
              | Some e => (Throw e, st)
              | None =>
                  let queue :=
                    mkQueueAdapter (objects st) (backend cfg) name connection in
                  (Ok queue,
                   mkState (config st) (redisConnection st) (pgPool st)
                     (initialized st) (map_set name queue (queueCache st))
                     (workerCache st) (S (objects st)))
              end
          end
      end
  end.

Definition createWorker (name : string) (processor : JobProcessor)
  (st : State) : Result WorkerAdapter * State :=
  match config st with
  | None =>
      (Throw "[QueueSystem] Not initialized. Call initialize() first.", st)
  | Some cfg =>
      match lookup name (workerCache st) with
      | Some cached => (Ok cached, st)
      | None =>
          match connection_of (backend cfg) st with
          | Throw e => (Throw e, st)
          | Ok connection =>
              match worker_constructor (backend cfg) name with
              | Some e => (Throw e, st)
              | None =>
                  let worker :=
                    mkWorkerAdapter (objects st) (backend cfg) name processor
                      connection in
                  (Ok worker,
                   mkState (config st) (redisConnection st) (pgPool st)
                     (initialized st) (queueCache st)
                     (map_set name worker (workerCache st))
                     (S (objects st)))
              end
          end
      end
  end.

(** Calls of the two factories, in any order and with any arguments. *)
Inductive Call :=
| CreateQueue (name : string)
| CreateWorker (name : string) (processor : JobProcessor).

Definition call (c : Call) (st : State) : State :=
  match c with
  | CreateQueue name => snd (createQueue name st)
  | CreateWorker name processor => snd (createWorker name processor st)
  end.

Definition calls (cs : list Call) (st : State) : State :=
  fold_left (fun st c => call c st) cs st.

(** *** The caches *)










(** *** The life cycle of the manager *)

Definition getBackend (st : State) : Result QueueBackend :=
  match config st with
  | None => Throw "[QueueSystem] Not initialized. Call initialize() first."
  | Some cfg => Ok (backend cfg)
  end.

(** How [shutdown] ends. The failures of the adapters' [close] are caught;
    the calls awaited after the caches are cleared may reject: the stop of
    the graphile runner, the end of the pool, the quit of Redis. *)
Inductive ShutdownOutcome :=
| Completes
| StopRejects (error : string)
| PoolEndRejects (error : string)
| QuitRejects (error : string).

Definition clear_caches (st : State) : State :=
  mkState (config st) (redisConnection st) (pgPool st) (initialized st)
    [] [] (objects st).

(** The part of [shutdown] that runs on the graphile backend. *)
Definition shutdown_graphile (outcome : ShutdownOutcome) (st : State)
  : Result unit * State :=
  match config st with
  | Some (mkQueueConfig graphile _ _) =>
      match outcome with
      | StopRejects e => (Throw e, st)
      | _ =>
          match pgPool st with
          | Some _ =>
              match outcome with
              | PoolEndRejects e => (Throw e, st)
              | _ =>
                  (Ok tt,
                   mkState (config st) (redisConnection st) None
                     (initialized st) (queueCache st) (workerCache st)
                     (objects st))
              end
          | None => (Ok tt, st)
          end
      end
  | _ => (Ok tt, st)
  end.

Definition shutdown_redis (outcome : ShutdownOutcome) (st : State)
  : Result unit * State :=
  match redisConnection st with
  | Some _ =>
      match outcome with
      | QuitRejects e => (Throw e, st)
      | _ =>
          (Ok tt,
           mkState (config st) None (pgPool st) (initialized st)
             (queueCache st) (workerCache st) (objects st))
      end
  | None => (Ok tt, st)
  end.

Definition shutdown (outcome : ShutdownOutcome) (st : State)
  : Result unit * State :=
  let st := clear_caches st in
  match shutdown_graphile outcome st with
  | (Throw e, st) => (Throw e, st)
  | (Ok _, st) =>
      match shutdown_redis outcome st with
      | (Throw e, st) => (Throw e, st)
      | (Ok _, st) =>
          (Ok tt,
           mkState (config st) (redisConnection st) (pgPool st) false
             (queueCache st) (workerCache st) (objects st))
      end
  end.

(** The calls that drive the manager. *)
Inductive Lifecycle :=
| LInitialize (cfg : QueueConfig)
| LCreate (c : Call)
| LShutdown (outcome : ShutdownOutcome).

Definition lifecycle_step (l : Lifecycle) (st : State) : State :=
  match l with
  | LInitialize cfg => snd (initialize cfg st)
  | LCreate c => call c st
  | LShutdown outcome => snd (shutdown outcome st)
  end.

Definition lifecycle_run (ls : list Lifecycle) (st : State) : State :=
  fold_left (fun st l => lifecycle_step l st) ls st.

(** What holds of the manager in every state: the adapters cached are
    filed under their own names and were built, as objects older than the
    counter, for the configured backend on the connection now held; and a
    manager that is not initialised holds no connection and no adapter. *)
Definition coherent (st : State) : Prop :=
  (forall name q, lookup name (queueCache st) = Some q ->
     queue_name q = name
     /\ queue_object q < objects st
     /\ exists cfg, config st = Some cfg
                    /\ queue_backend q = backend cfg
                    /\ connection_of (backend cfg) st
                       = Ok (queue_connection q))
  /\ (forall name w, lookup name (workerCache st) = Some w ->
        worker_name w = name
        /\ worker_object w < objects st
        /\ exists cfg, config st = Some cfg
                       /\ worker_backend w = backend cfg
                       /\ connection_of (backend cfg) st
                          = Ok (worker_connection w))
  /\ (initialized st = false ->
      redisConnection st = None /\ pgPool st = None
      /\ queueCache st = [] /\ workerCache st = [])
  /\ (initialized st = true ->
      exists cfg c, config st = Some cfg
                    /\ connection_of (backend cfg) st = Ok c)
  /\ (forall c, redisConnection st = Some c \/ pgPool st = Some c ->
        c < objects st)
  /\ (forall c, redisConnection st = Some c ->
        exists cfg, config st = Some cfg /\ backend cfg = bullmq)
  /\ (forall c, pgPool st = Some c ->
        exists cfg, config st = Some cfg /\ backend cfg = graphile).

Lemma fresh_coherent : coherent fresh.
Proof.
  unfold coherent, fresh. cbn. repeat split; try discriminate.
  intros c [H|H]; discriminate.
Qed.

Lemma initialize_coherent (cfg : QueueConfig) (st : State) :
  coherent st -> coherent (snd (initialize cfg st)).
Proof.
  intros Hco. unfold initialize.
  destruct (initialized st) eqn:Hi; [exact Hco|].
  destruct Hco as (_ & _ & Hun & _).
  destruct (Hun Hi) as (Hr & Hp & Hq & Hw).
  destruct cfg as [b u d]. cbn [backend redisUrl].
  destruct b; [destruct u as [[|a u]|]|];
    unfold coherent; cbn; rewrite ?Hq, ?Hw, ?Hr, ?Hp; cbn;
    repeat split; try discriminate; try (intros; discriminate);
    try (intros c [H|H]; try discriminate; injection H as <-; lia);
    try (intros _; eexists; eexists; split; reflexivity);
    try (intros c _; eexists; split; reflexivity).
Qed.


Lemma connection_of_same (b : QueueBackend) (st st' : State) :
  redisConnection st' = redisConnection st ->
  pgPool st' = pgPool st ->
  connection_of b st' = connection_of b st.
Proof.
  intros Hr Hp. unfold connection_of, getRedisConnection, getPgPool.
  now rewrite Hr, Hp.
Qed.

Lemma connection_of_bound (b : QueueBackend) (st : State) (c : nat) :
  coherent st -> connection_of b st = Ok c -> c < objects st.
Proof.
  intros (_ & _ & _ & _ & Hb & _) H. apply Hb.
  unfold connection_of, getRedisConnection, getPgPool in H.
  destruct b.
  - destruct (redisConnection st); [injection H as ->; now left | discriminate].
  - destruct (pgPool st); [injection H as ->; now right | discriminate].
Qed.

Lemma createQueue_coherent (name : string) (st : State) :
  coherent st -> coherent (snd (createQueue name st)).
Proof.
  intros Hco. unfold createQueue.
  destruct (config st) as [cfg|] eqn:Hcfg; [|exact Hco].
  destruct (lookup name (queueCache st)) as [cached|] eqn:Hl; [exact Hco|].
  destruct (connection_of (backend cfg) st) as [c|e] eqn:Hc; [|exact Hco].
  destruct (queue_constructor (backend cfg) name); [exact Hco|].
  pose proof (connection_of_bound _ _ _ Hco Hc) as Hcb.
  destruct Hco as (Hq & Hw & Hun & Hin & Hb & Hr & Hp).
  unfold coherent. cbn [snd queueCache workerCache objects config
                        initialized redisConnection pgPool].
  split; [|split; [|split; [|split; [|split; [|split]]]]].
  - intros n q Hn. destruct (String.eqb_spec n name) as [->|Hne].
    + rewrite map_set_lookup_same in Hn. injection Hn as <-. cbn.
      split; [reflexivity|]. split; [lia|]. exists cfg.
      repeat split; auto.
    + rewrite map_set_lookup_other in Hn by exact Hne.
      destruct (Hq n q Hn) as (H1 & H2 & cfg' & H3 & H4 & H5).
      split; [exact H1|]. split; [lia|]. exists cfg'.
      rewrite Hcfg in H3. split; [exact H3|]. split; [exact H4 | exact H5].
  - intros n w Hn. destruct (Hw n w Hn) as (H1 & H2 & cfg' & H3 & H4 & H5).
    split; [exact H1|]. split; [lia|]. exists cfg'.
    rewrite Hcfg in H3. split; [exact H3|]. split; [exact H4 | exact H5].
  - intros Hi. destruct (Hun Hi) as (H1 & H2 & _).
    unfold connection_of, getRedisConnection, getPgPool in Hc.
    rewrite H1, H2 in Hc. destruct (backend cfg); discriminate.
  - intros Hi. destruct (Hin Hi) as (cfg' & c' & H3 & H4).
    rewrite Hcfg in H3. exists cfg', c'. split; [exact H3 | exact H4].
  - intros c0 H0. specialize (Hb c0 H0). lia.
  - intros c0 H0. destruct (Hr c0 H0) as (cfg' & H3 & H4).
    rewrite Hcfg in H3. now exists cfg'.
  - intros c0 H0. destruct (Hp c0 H0) as (cfg' & H3 & H4).
    rewrite Hcfg in H3. now exists cfg'.
Qed.

Lemma createWorker_coherent (name : string) (p : JobProcessor) (st : State) :
  coherent st -> coherent (snd (createWorker name p st)).
Proof.
  intros Hco. unfold createWorker.
  destruct (config st) as [cfg|] eqn:Hcfg; [|exact Hco].
  destruct (lookup name (workerCache st)) as [cached|] eqn:Hl; [exact Hco|].
  destruct (connection_of (backend cfg) st) as [c|e] eqn:Hc; [|exact Hco].
  destruct (worker_constructor (backend cfg) name); [exact Hco|].
  pose proof (connection_of_bound _ _ _ Hco Hc) as Hcb.
  destruct Hco as (Hq & Hw & Hun & Hin & Hb & Hr & Hp).
  unfold coherent. cbn [snd queueCache workerCache objects config
                        initialized redisConnection pgPool].
  split; [|split; [|split; [|split; [|split; [|split]]]]].
  - intros n q Hn. destruct (Hq n q Hn) as (H1 & H2 & cfg' & H3 & H4 & H5).
    split; [exact H1|]. split; [lia|]. exists cfg'.
    rewrite Hcfg in H3. split; [exact H3|]. split; [exact H4 | exact H5].
  - intros n w Hn. destruct (String.eqb_spec n name) as [->|Hne].
    + rewrite map_set_lookup_same in Hn. injection Hn as <-. cbn.
      split; [reflexivity|]. split; [lia|]. exists cfg.
      repeat split; auto.
    + rewrite map_set_lookup_other in Hn by exact Hne.
      destruct (Hw n w Hn) as (H1 & H2 & cfg' & H3 & H4 & H5).
      split; [exact H1|]. split; [lia|]. exists cfg'.
      rewrite Hcfg in H3. split; [exact H3|]. split; [exact H4 | exact H5].
  - intros Hi. destruct (Hun Hi) as (H1 & H2 & _).
    unfold connection_of, getRedisConnection, getPgPool in Hc.
    rewrite H1, H2 in Hc. destruct (backend cfg); discriminate.
  - intros Hi. destruct (Hin Hi) as (cfg' & c' & H3 & H4).
    rewrite Hcfg in H3. exists cfg', c'. split; [exact H3 | exact H4].
  - intros c0 H0. specialize (Hb c0 H0). lia.
  - intros c0 H0. destruct (Hr c0 H0) as (cfg' & H3 & H4).
    rewrite Hcfg in H3. now exists cfg'.
  - intros c0 H0. destruct (Hp c0 H0) as (cfg' & H3 & H4).
    rewrite Hcfg in H3. now exists cfg'.
Qed.

Lemma shutdown_coherent (outcome : ShutdownOutcome) (st : State) :
  coherent st -> coherent (snd (shutdown outcome st)).
Proof.
  intros (Hq & Hw & Hun & Hin & Hb & Hr & Hp).
  destruct st as [cfg r pp ini qc wc ob].
  cbn [config redisConnection pgPool initialized queueCache workerCache
       objects] in *.
  assert (Hr' : forall c, r = Some c ->
                  exists u d, cfg = Some (mkQueueConfig bullmq u d)).
  { intros c Hc. destruct (Hr c Hc) as ([b u d] & -> & Hbk).
    cbn in Hbk. subst b. eauto. }
  assert (Hp' : forall c, pp = Some c ->
                  exists u d, cfg = Some (mkQueueConfig graphile u d)).
  { intros c Hc. destruct (Hp c Hc) as ([b u d] & -> & Hbk).
    cbn in Hbk. subst b. eauto. }
  assert (Hin' : ini = true ->
            match cfg with
            | Some (mkQueueConfig bullmq _ _) => r <> None
            | Some (mkQueueConfig graphile _ _) => pp <> None
            | None => False
            end).
  { intros Hi. destruct (Hin Hi) as ([b u d] & c & -> & Hc).
    unfold connection_of, getRedisConnection, getPgPool in Hc. cbn in Hc.
    destruct b; [destruct r | destruct pp]; discriminate. }
  assert (Hun' : ini = false -> r = None /\ pp = None).
  { intros Hi. destruct (Hun Hi) as (H1 & H2 & _). auto. }
  clear Hq Hw Hun Hin Hr Hp.
  unfold shutdown, clear_caches, shutdown_graphile, shutdown_redis.
  cbn [config redisConnection pgPool initialized queueCache workerCache
       objects].
  destruct cfg as [[[] u d]|]; destruct pp as [pc|], r as [rc|];
    try (destruct (Hr' _ eq_refl) as (? & ? & [=]); fail);
    try (destruct (Hp' _ eq_refl) as (? & ? & [=]); fail);
    destruct outcome; cbn; unfold coherent;
    cbn [config redisConnection pgPool initialized queueCache workerCache
         objects lookup];
    (split; [intros ? ? [=]|]); (split; [intros ? ? [=]|]);
    (split; [try (intros _; repeat split; reflexivity);
             intros Hi; destruct (Hun' Hi); repeat split; congruence|]);
    (split; [try (intros [=]; fail);
             intros Hi; specialize (Hin' Hi); cbn in Hin';
             try contradiction;
             eexists; eexists; split; reflexivity|]);
    (split; [intros c H0; apply Hb; exact H0 || (destruct H0; discriminate)|]);
    (split; [intros c [=]; eauto | intros c [=]; eauto]).
Qed.

Lemma lifecycle_run_coherent (ls : list Lifecycle) (st : State) :
  coherent st -> coherent (lifecycle_run ls st).
Proof.
  revert st. induction ls as [|l ls IH]; intros st Hco; [exact Hco|].
  change (lifecycle_run (l :: ls) st)
    with (lifecycle_run ls (lifecycle_step l st)).
  apply IH. destruct l as [cfg|[n|n p]|o]; cbn [lifecycle_step call].
  - now apply initialize_coherent.
  - now apply createQueue_coherent.
  - now apply createWorker_coherent.
  - now apply shutdown_coherent.
Qed.

(** X8. In every state that the manager reaches from a fresh one through
    [initialize], the two factories and [shutdown], however these end: a
    cached queue or worker is filed under its own name and was built for
    the configured backend on the very connection that the manager now
    holds, so no adapter of a closed connection is ever handed out; and a
    manager that is not initialised holds no connection and an empty
    cache. *)
Theorem caches_follow_the_connection (ls : list Lifecycle) :
  let st := lifecycle_run ls fresh in
  (forall name q, lookup name (queueCache st) = Some q ->
     queue_name q = name
     /\ exists cfg, config st = Some cfg
                    /\ queue_backend q = backend cfg
                    /\ connection_of (backend cfg) st
                       = Ok (queue_connection q))
  /\ (forall name w, lookup name (workerCache st) = Some w ->
        worker_name w = name
        /\ exists cfg, config st = Some cfg
                       /\ worker_backend w = backend cfg
                       /\ connection_of (backend cfg) st
                          = Ok (worker_connection w))
  /\ (initialized st = false ->
      redisConnection st = None /\ pgPool st = None
      /\ queueCache st = [] /\ workerCache st = []).
Proof.
  cbv zeta.
  destruct (lifecycle_run_coherent ls fresh fresh_coherent)
    as (Hq & Hw & Hun & _).
  split; [|split; [|exact Hun]].
  - intros name q H. destruct (Hq name q H) as (H1 & _ & H3). auto.
  - intros name w H. destruct (Hw name w H) as (H1 & _ & H3). auto.
Qed.

(** X9. In every reachable state, [createQueue] returns a queue exactly when
    the manager is initialised and the name is cached or the adapter's
    constructor accepts it; the queue then bears the name asked for. When
    it throws, it changes nothing. The same holds of [createWorker]. *)
Theorem factories_need_initialize (ls : list Lifecycle) (name : string)
  (processor : JobProcessor) :
  let st := lifecycle_run ls fresh in
  ((exists q, fst (createQueue name st) = Ok q)
   <-> initialized st = true
       /\ ((exists q, lookup name (queueCache st) = Some q)
           \/ exists cfg, config st = Some cfg
                          /\ queue_constructor (backend cfg) name = None))
  /\ (forall q, fst (createQueue name st) = Ok q -> queue_name q = name)
  /\ (forall e, fst (createQueue name st) = Throw e ->
        snd (createQueue name st) = st)
  /\ ((exists w, fst (createWorker name processor st) = Ok w)
      <-> initialized st = true
          /\ ((exists w, lookup name (workerCache st) = Some w)
              \/ exists cfg, config st = Some cfg
                             /\ worker_constructor (backend cfg) name = None))
  /\ (forall w, fst (createWorker name processor st) = Ok w ->
        worker_name w = name)
  /\ (forall e, fst (createWorker name processor st) = Throw e ->
        snd (createWorker name processor st) = st).
Proof.
  cbv zeta.
  destruct (lifecycle_run_coherent ls fresh fresh_coherent)
    as (Hq & Hw & Hun & Hin & _).
  set (st := lifecycle_run ls fresh) in *.
  assert (Hconn : forall cfg, config st = Some cfg ->
            match connection_of (backend cfg) st with
            | Ok _ => initialized st = true
            | Throw _ => initialized st = false
            end).
  { intros cfg Hcfg. destruct (initialized st) eqn:Hi.
    - destruct (Hin eq_refl) as (cfg' & c & H1 & H2).
      rewrite Hcfg in H1. injection H1 as <-. now rewrite H2.
    - destruct (Hun eq_refl) as (H1 & H2 & _).
      unfold connection_of, getRedisConnection, getPgPool.
      rewrite H1, H2. now destruct (backend cfg). }
  assert (Hcq : forall q, lookup name (queueCache st) = Some q ->
                          initialized st = true).
  { intros q H. destruct (initialized st) eqn:Hi; [reflexivity|].
    destruct (Hun eq_refl) as (_ & _ & H1 & _). rewrite H1 in H.
    discriminate. }
  assert (Hcw : forall w, lookup name (workerCache st) = Some w ->
                          initialized st = true).
  { intros w H. destruct (initialized st) eqn:Hi; [reflexivity|].
    destruct (Hun eq_refl) as (_ & _ & _ & H1). rewrite H1 in H.
    discriminate. }
  unfold createQueue, createWorker.
  destruct (config st) as [cfg|] eqn:Hcfg.
  2:{ cbn.
      assert (Hni : initialized st = true -> False)
        by (intros Hi; destruct (Hin Hi) as (? & ? & [=] & _)).
      split; [split; [intros [? [=]] | intros [Hi _]; destruct (Hni Hi)]|].
      split; [intros ? [=]|]. split; [reflexivity|].
      split; [split; [intros [? [=]] | intros [Hi _]; destruct (Hni Hi)]|].
      split; [intros ? [=] | reflexivity]. }
  specialize (Hconn cfg eq_refl).
  split; [|split; [|split; [|split; [|split]]]].
  - destruct (lookup name (queueCache st)) as [q|] eqn:Hl.
    + cbn. split; [intros _; split; [eapply Hcq; eauto | left; eauto]|].
      intros _. eauto.
    + destruct (connection_of (backend cfg) st).
      * destruct (queue_constructor (backend cfg) name) eqn:Hk; cbn.
        -- split; [intros [? [=]]|].
           intros [_ [[? [=]]|(cfg' & [= <-] & H)]]. congruence.
        -- split; [intros _; split; [exact Hconn|]; right; eauto | eauto].
      * cbn. split; [intros [? [=]] | intros [Hi _]; congruence].
  - destruct (lookup name (queueCache st)) as [q|] eqn:Hl.
    + cbn. intros q' [= <-]. apply (Hq name q Hl).
    + destruct (connection_of (backend cfg) st); [|intros ? [=]].
      destruct (queue_constructor (backend cfg) name); cbn;
        [intros ? [=] | now intros ? [= <-]].
  - destruct (lookup name (queueCache st)); [intros ? [=]|].
    destruct (connection_of (backend cfg) st); [|reflexivity].
    destruct (queue_constructor (backend cfg) name);
      [reflexivity | intros ? [=]].
  - destruct (lookup name (workerCache st)) as [w|] eqn:Hl.
    + cbn. split; [intros _; split; [eapply Hcw; eauto | left; eauto]|].
      intros _. eauto.
    + destruct (connection_of (backend cfg) st).
      * destruct (worker_constructor (backend cfg) name) eqn:Hk; cbn.
        -- split; [intros [? [=]]|].
           intros [_ [[? [=]]|(cfg' & [= <-] & H)]]. congruence.
        -- split; [intros _; split; [exact Hconn|]; right; eauto | eauto].
      * cbn. split; [intros [? [=]] | intros [Hi _]; congruence].
  - destruct (lookup name (workerCache st)) as [w|] eqn:Hl.
    + cbn. intros w' [= <-]. apply (Hw name w Hl).
    + destruct (connection_of (backend cfg) st); [|intros ? [=]].
      destruct (worker_constructor (backend cfg) name); cbn;
        [intros ? [=] | now intros ? [= <-]].
  - destruct (lookup name (workerCache st)); [intros ? [=]|].
    destruct (connection_of (backend cfg) st); [|reflexivity].
    destruct (worker_constructor (backend cfg) name);
      [reflexivity | intros ? [=]].
Qed.

(** X10. [shutdown] empties both caches even when it throws. When it
    completes, in any reachable state, the manager is left without a
    connection and not initialised, with its configuration still in
    place; both factories throw from then on and change nothing; and a
    further [shutdown], however it ends, leaves the manager as it is. A
    [shutdown] of a manager that was never initialised completes and
    changes nothing. *)
Theorem shutdown_is_repeatable (ls : list Lifecycle)
  (outcome outcome' : ShutdownOutcome) :
  let st := lifecycle_run ls fresh in
  let st1 := snd (shutdown outcome st) in
  (queueCache st1 = [] /\ workerCache st1 = [])
  /\ (fst (shutdown outcome st) = Ok tt ->
      initialized st1 = false
      /\ redisConnection st1 = None
      /\ pgPool st1 = None
      /\ config st1 = config st
      /\ snd (shutdown outcome' st1) = st1
      /\ (forall name, exists e, createQueue name st1 = (Throw e, st1))
      /\ (forall name p, exists e, createWorker name p st1 = (Throw e, st1)))
  /\ shutdown outcome fresh = (Ok tt, fresh).
Proof.
  cbv zeta.
  destruct (lifecycle_run_coherent ls fresh fresh_coherent)
    as (_ & _ & Hun & Hin & _ & Hr & Hp).
  destruct (lifecycle_run ls fresh) as [cfg r pp ini qc wc ob].
  cbn [config redisConnection pgPool initialized queueCache workerCache
       objects] in *.
  assert (Hr' : forall c, r = Some c ->
                  exists u d, cfg = Some (mkQueueConfig bullmq u d)).
  { intros c Hc. destruct (Hr c Hc) as ([b u d] & -> & Hbk).
    cbn in Hbk. subst b. eauto. }
  assert (Hp' : forall c, pp = Some c ->
                  exists u d, cfg = Some (mkQueueConfig graphile u d)).
  { intros c Hc. destruct (Hp c Hc) as ([b u d] & -> & Hbk).
    cbn in Hbk. subst b. eauto. }
  clear Hun Hin Hr Hp.
  split; [|split].
  - unfold shutdown, clear_caches, shutdown_graphile, shutdown_redis. cbn.
    destruct cfg as [[[] u d]|]; destruct pp, r, outcome; cbn; auto.
  - unfold shutdown, clear_caches, shutdown_graphile, shutdown_redis,
      createQueue, createWorker, connection_of, getRedisConnection, getPgPool.
    cbn.
    destruct cfg as [[[] u d]|]; destruct pp as [pc|], r as [rc|];
      try (destruct (Hr' _ eq_refl) as (? & ? & [=]); fail);
      try (destruct (Hp' _ eq_refl) as (? & ? & [=]); fail);
      destruct outcome; cbn; try discriminate; intros _;
      (split; [reflexivity|]); (split; [reflexivity|]);
      (split; [reflexivity|]); (split; [reflexivity|]);
      (split; [destruct outcome'; reflexivity|]);
      (split; intros; eexists; reflexivity).
  - reflexivity.
Qed.

(** X11. On an initialised manager [initialize] does nothing, whatever the
    configuration it is given: the first one stays. An [initialize] for
    BullMQ without a Redis URL, on a manager that is not initialised,
    throws and leaves the manager not initialised, but with the
    configuration recorded: [getBackend] then answers bullmq, and the
    factories throw for the missing connection and change nothing. *)
Theorem initialize_once (ls : list Lifecycle) (cfg : QueueConfig)
  (databaseUrl : string) :
  let st := lifecycle_run ls fresh in
  (initialized st = true -> initialize cfg st = (Ok tt, st))
  /\ (initialized st = false ->
      let r := initialize (mkQueueConfig bullmq None databaseUrl) st in
      (exists e, fst r = Throw e)
      /\ initialized (snd r) = false
      /\ getBackend (snd r) = Ok bullmq
      /\ forall name,
           createQueue name (snd r)
           = (Throw "[QueueSystem] Redis connection not available. Using graphile backend?",
              snd r)).
Proof.
  cbv zeta.
  destruct (lifecycle_run_coherent ls fresh fresh_coherent)
    as (_ & _ & Hun & _).
  split.
  - intros Hi. unfold initialize. now rewrite Hi.
  - intros Hi. destruct (Hun Hi) as (Hr & Hp & Hq & Hw).
    unfold initialize. rewrite Hi. cbn.
    split; [eauto|]. split; [reflexivity|]. split; [reflexivity|].
    intros name. unfold createQueue. cbn. rewrite Hq. cbn.
    unfold getRedisConnection. cbn. now rewrite Hr.
Qed.

(** The function [getRedisConnection] that the module exports beside the
    class: the manager's, with [null] where the manager's throws. *)
Definition getRedisConnection_or_null (st : State) : option nat :=
  match getRedisConnection st with
  | Ok connection => Some connection
  | Throw _ => None
  end.

(** X12. In every state that the manager reaches, it holds the connection of
    one backend at most, the configured one: the exported
    [getRedisConnection] answers [null] exactly when the manager is not
    initialised or runs on graphile, and [getPgPool] throws exactly when
    the manager is not initialised or runs on BullMQ. *)
Theorem connection_matches_backend (ls : list Lifecycle) :
  let st := lifecycle_run ls fresh in
  (getRedisConnection_or_null st = None
   <-> initialized st = false \/ getBackend st = Ok graphile)
  /\ ((exists e, getPgPool st = Throw e)
      <-> initialized st = false \/ getBackend st = Ok bullmq)
  /\ (redisConnection st = None \/ pgPool st = None).
Proof.
  cbv zeta.
  destruct (lifecycle_run_coherent ls fresh fresh_coherent)
    as (_ & _ & Hun & Hin & _ & Hr & Hp).
  set (st := lifecycle_run ls fresh) in *.
  unfold getRedisConnection_or_null, getRedisConnection, getPgPool,
    getBackend.
  destruct (initialized st) eqn:Hi.
  - destruct (Hin eq_refl) as (cfg & c & Hcfg & Hc). rewrite Hcfg.
    unfold connection_of, getRedisConnection, getPgPool in Hc.
    destruct (backend cfg) eqn:Hb.
    + destruct (redisConnection st) as [r|] eqn:Hrc; [|discriminate].
      destruct (pgPool st) as [p|] eqn:Hpc.
      * destruct (Hp p eq_refl) as (cfg' & Hcfg' & Hb'). congruence.
      * repeat split; try discriminate; eauto.
        intros [H|H]; discriminate.
    + destruct (pgPool st) as [p|] eqn:Hpc; [|discriminate].
      destruct (redisConnection st) as [r|] eqn:Hrc.
      * destruct (Hr r eq_refl) as (cfg' & Hcfg' & Hb'). congruence.
      * repeat split; auto; try (intros [e H]; discriminate).
        intros [H|H]; discriminate.
  - destruct (Hun eq_refl) as (Hrc & Hpc & _). rewrite Hrc, Hpc.
    repeat split; eauto.
Qed.

End WithProcessors.




(** *** Backoff of the Redis connection *)

Section Backoff.

Import QArith Qminmax Lqa.

(** A delay that grows exponentially in the number of the retry up to a
    ceiling. *)
Definition exponential_backoff (delay : Z -> Z) (ceiling : Z) : Prop :=
  exists base factor : Q,
    (0 < base)%Q /\ (1 < factor)%Q
    /\ forall k : Z, (1 <= k)%Z ->
         (inject_Z (delay k)
          == Qmin (base * factor ^ (k - 1)) (inject_Z ceiling))%Q.

Lemma retryStrategy_not_exponential :
  ~ exponential_backoff retryStrategy 30000.
Proof.
  intros (base & factor & Hb & Hf & H).
  pose proof (H 1%Z ltac:(lia)) as H1.
  pose proof (H 2%Z ltac:(lia)) as H2.
  pose proof (H 3%Z ltac:(lia)) as H3.
  change (retryStrategy 1) with 1000%Z in H1.
  change (retryStrategy 2) with 2000%Z in H2.
  change (retryStrategy 3) with 3000%Z in H3.
  unfold inject_Z in *.
  change (factor ^ (1 - 1))%Q with 1%Q in H1.
  change (factor ^ (2 - 1))%Q with factor in H2.
  change (factor ^ (3 - 1))%Q with (factor * factor)%Q in H3.
  destruct (Q.min_spec (base * 1) (30000 # 1)) as [[L1 E1]|[L1 E1]];
    rewrite E1 in H1; [|lra].
  destruct (Q.min_spec (base * factor) (30000 # 1)) as [[L2 E2]|[L2 E2]];
    rewrite E2 in H2; [|lra].
  destruct (Q.min_spec (base * (factor * factor)) (30000 # 1))
    as [[L3 E3]|[L3 E3]];
    rewrite E3 in H3; [|lra].
  assert (Hbase : base == 1000) by lra.
  rewrite Hbase in H2, H3.
  assert (Hfac : factor == 2) by lra.
  rewrite Hfac in H3. lra.
Qed.

End Backoff.

(** The first three delays are 1, 2 and 3 seconds: no exponential. *)
Lemma retryStrategy_linear_not_exponential :
  retryStrategy 1 = 1000%Z
  /\ retryStrategy 2 = 2000%Z
  /\ retryStrategy 3 = 3000%Z
  /\ ~ exponential_backoff retryStrategy 30000.
Proof.
  repeat split. exact retryStrategy_not_exponential.
Qed.

Lemma reconnectOnError_spec (message : string) :
  reconnectOnError message = true
  <-> exists target pre post,
        In target targetErrors
        /\ message = (pre ++ target ++ post)%string.
Proof.
  unfold reconnectOnError.
  destruct (existsb _ targetErrors) eqn:He.
  - apply existsb_exists in He. destruct He as (target & Hin & Hinc).
    apply includes_spec in Hinc. destruct Hinc as (pre & post & ->).
    split; [intros _; now exists target, pre, post | reflexivity].
  - split; [discriminate|]. intros (target & pre & post & Hin & ->).
    assert (existsb (fun e => includes (pre ++ target ++ post)%string e)
              targetErrors = true) as Ht; [|congruence].
    apply existsb_exists. exists target. split; [exact Hin|].
    apply includes_spec. now exists pre, post.
Qed.

(** C8 (as amended). The delay before the k-th retry of the Redis
    connection grows linearly, by one second per retry: it is
    [1000 * k] ms up to the thirtieth retry and 30000 ms from then on,
    never decreasing and never above 30000 ms. [reconnectOnError] asks
    for a reconnect exactly when the error message contains READONLY,
    ECONNRESET or ECONNREFUSED. *)
Theorem redis_retry_and_reconnect :
  (forall times, (1 <= times <= 30)%Z ->
     retryStrategy times = (1000 * times)%Z)
  /\ (forall times, (30 <= times)%Z -> retryStrategy times = 30000%Z)
  /\ (forall times, (1 <= times)%Z ->
        (retryStrategy times <= retryStrategy (times + 1) <= 30000)%Z)
  /\ (forall message,
        reconnectOnError message = true
        <-> exists target pre post,
              In target ["READONLY"; "ECONNRESET"; "ECONNREFUSED"]
              /\ message = (pre ++ target ++ post)%string).
Proof.
  unfold retryStrategy. repeat split; try lia.
  - apply reconnectOnError_spec.
  - apply reconnectOnError_spec.
Qed.

End QueueSystem.

(** ** Incident correlator *)

Module Correlator.

Import JS.

(** packages/shared/src/constants/siem-constants.ts *)
Inductive Severity := critical | high | medium | low | informational.

Inductive IncidentStatus := open | investigating | resolved | false_positive.

(** [getSeverityWeight] of packages/shared/src/utils/severity.ts. *)
Definition getSeverityWeight (severity : Severity) : nat :=
  match severity with
  | critical => 5
  | high => 4
  | medium => 3
  | low => 2
  | informational => 1
  end.

(** A detection event, with the service of the log that it matched. *)
Record DetectionEvent := mkDetectionEvent {
  event_tenant : string;
  event_project : string;
  event_rule : string;
  event_log : string;
  event_service : string;
  event_severity : Severity;
  event_timestamp : Z
}.

Record Incident := mkIncident {
  tenant : string;
  project : string;
  family : string;
  status : IncidentStatus;
  severity : Severity;
  detectionCount : nat;
  affectedServices : list string;
  createdAt : Z;
  updatedAt : Z
}.

(** Fifteen minutes, in milliseconds. *)
Definition WINDOW : Z := 15 * 60 * 1000.

Definition is_open (s : IncidentStatus) : bool :=
  match s with
  | open => true
  | _ => false
  end.

Definition is_terminal (s : IncidentStatus) : bool :=
  match s with
  | resolved | false_positive => true
  | _ => false
  end.

Section WithRuleFamily.

(** Modelled from the spec: the rule family of a rule id, which is the id
    stripped of its instance suffix (incident correlator; the suffix is
    left open). *)
Variable ruleFamily : string -> string.

(** Modelled from the spec: the event has the incident's correlation key
    (tenant, project, rule-family) (incident correlator). *)
Definition same_key (e : DetectionEvent) (i : Incident) : bool :=
  String.eqb (event_tenant e) (tenant i)
  && String.eqb (event_project e) (project i)
  && String.eqb (ruleFamily (event_rule e)) (family i).

(** Modelled from the spec: an open incident with the event's key that
    was updated within the last 15 minutes (incident correlator). *)
Definition appendable (e : DetectionEvent) (i : Incident) : bool :=
  is_open (status i)
  && same_key e i
  && (event_timestamp e - WINDOW <=? updatedAt i)%Z.

(** Modelled from the spec: the severity lifted to the maximum, by
    weight (incident correlator). *)
Definition max_severity (a b : Severity) : Severity :=
  if getSeverityWeight a <? getSeverityWeight b then b else a.

(** Modelled from the spec: the union of the affected services with a
    service (incident correlator). *)
Definition add_service (s : string) (services : list string) : list string :=
  if existsb (String.eqb s) services then services else services ++ [s].

(** Modelled from the spec: the incident with the event appended
    (incident correlator). *)
Definition append_event (e : DetectionEvent) (i : Incident) : Incident :=
  mkIncident (tenant i) (project i) (family i) (status i)
    (max_severity (severity i) (event_severity e))
    (S (detectionCount i))
    (add_service (event_service e) (affectedServices i))
    (createdAt i) (event_timestamp e).

(** Modelled from the spec: the incident opened for an event (incident
    correlator). *)
Definition open_incident (e : DetectionEvent) : Incident :=
  mkIncident (event_tenant e) (event_project e) (ruleFamily (event_rule e))
    open (event_severity e) 1 [event_service e]
    (event_timestamp e) (event_timestamp e).

(** Modelled from the spec: the event appended to the first incident that
    can take it, if there is one (incident correlator). *)
Fixpoint append_to_first (e : DetectionEvent) (incidents : list Incident)
  : option (list Incident) :=
  match incidents with
  | [] => None
  | i :: rest =>
      if appendable e i then Some (append_event e i :: rest)
      else
        match append_to_first e rest with
        | Some rest' => Some (i :: rest')
        | None => None
        end
  end.

(** Modelled from the spec: the policy of the incident correlator for one
    event, whose code is not among the sources. *)
Definition correlate (e : DetectionEvent) (incidents : list Incident)
  : list Incident :=
  match append_to_first e incidents with
  | Some incidents' => incidents'
  | None => incidents ++ [open_incident e]
  end.

Lemma append_to_first_some (e : DetectionEvent) (incidents : list Incident) :
  forall before i after,
    incidents = before ++ i :: after ->
    forallb (fun j => negb (appendable e j)) before = true ->
    appendable e i = true ->
    append_to_first e incidents = Some (before ++ append_event e i :: after).
Proof.
  intros before. revert incidents.
  induction before as [|j before IH]; intros incidents i after -> Hb Hi; cbn.
  - now rewrite Hi.
  - cbn in Hb. apply andb_true_iff in Hb. destruct Hb as [Hj Hb].
    apply negb_true_iff in Hj. rewrite Hj.
    now rewrite (IH _ i after eq_refl Hb Hi).
Qed.

Lemma append_to_first_none (e : DetectionEvent) (incidents : list Incident) :
  forallb (fun j => negb (appendable e j)) incidents = true ->
  append_to_first e incidents = None.
Proof.
  induction incidents as [|j incidents IH]; cbn; [reflexivity|].
  intros H. apply andb_true_iff in H. destruct H as [Hj H].
  apply negb_true_iff in Hj. rewrite Hj. now rewrite IH.
Qed.

Lemma appendable_spec (e : DetectionEvent) (i : Incident) :
  appendable e i = true
  <-> status i = open
      /\ event_tenant e = tenant i
      /\ event_project e = project i
      /\ ruleFamily (event_rule e) = family i
      /\ (event_timestamp e - updatedAt i <= 900000)%Z.
Proof.
  unfold appendable, same_key, WINDOW.
  rewrite !andb_true_iff, !String.eqb_eq, Z.leb_le.
  destruct (status i); cbn; intuition (try discriminate; try lia).
Qed.

Lemma add_service_in (s x : string) (services : list string) :
  In x (add_service s services) <-> x = s \/ In x services.
Proof.
  unfold add_service. destruct (existsb _ services) eqn:He.
  - apply existsb_exists in He. destruct He as (y & Hy & Heq).
    apply String.eqb_eq in Heq. subst y. intuition congruence.
  - rewrite in_app_iff. cbn. intuition congruence.
Qed.

Lemma max_severity_weight (a b : Severity) :
  getSeverityWeight (max_severity a b)
  = Nat.max (getSeverityWeight a) (getSeverityWeight b).
Proof.
  unfold max_severity.
  destruct (Nat.ltb_spec (getSeverityWeight a) (getSeverityWeight b)); lia.
Qed.

(** The incident can take the event, in the words of the policy. *)
Definition takes (e : DetectionEvent) (i : Incident) : Prop :=
  status i = open
  /\ event_tenant e = tenant i
  /\ event_project e = project i
  /\ ruleFamily (event_rule e) = family i
  /\ (event_timestamp e - updatedAt i <= 15 * 60 * 1000)%Z.

Lemma takes_appendable (e : DetectionEvent) (i : Incident) :
  takes e i <-> appendable e i = true.
Proof. symmetry. apply appendable_spec. Qed.

Lemma none_takes (e : DetectionEvent) (incidents : list Incident) :
  Forall (fun i => ~ takes e i) incidents ->
  forallb (fun j => negb (appendable e j)) incidents = true.
Proof.
  intros H. apply forallb_forall. intros j Hj.
  rewrite Forall_forall in H. specialize (H j Hj).
  destruct (appendable e j) eqn:Ha; [|reflexivity].
  exfalso. apply H. now apply takes_appendable.
Qed.

Lemma first_taker (e : DetectionEvent) (incidents : list Incident) :
  Exists (takes e) incidents ->
  exists before i after,
    incidents = before ++ i :: after
    /\ takes e i
    /\ Forall (fun j => ~ takes e j) before.
Proof.
  induction incidents as [|j incidents IH]; intros H; [inversion H|].
  destruct (appendable e j) eqn:Ha.
  - exists [], j, incidents. split; [reflexivity|].
    split; [now apply takes_appendable | constructor].
  - destruct IH as (before & i & after & -> & Hi & Hb).
    + inversion H as [? ? Hj|]; subst; [|assumption].
      apply takes_appendable in Hj. congruence.
    + exists (j :: before), i, after. split; [reflexivity|].
      split; [exact Hi|]. constructor; [|exact Hb].
      intros Hj. apply takes_appendable in Hj. congruence.
Qed.

(** C9. For a detection event and the incidents known so far: if an open
    incident with the event's (tenant, project, rule-family) key was
    updated within the last 15 minutes, the first such incident takes the
    event, which raises its detection count by one, adds the event's
    service to its affected services, and lifts its severity to the
    heavier of the two, while every other incident stays as it is;
    otherwise a new incident is opened, with status open, the event's
    severity and detection count 1. A resolved or false-positive incident
    never takes an event and stays as it is: an event that only matches
    such incidents opens a new one. *)
Theorem correlate_policy (e : DetectionEvent) (incidents : list Incident) :
  (Exists (takes e) incidents ->
   exists before i after i',
     incidents = before ++ i :: after
     /\ takes e i
     /\ Forall (fun j => ~ takes e j) before
     /\ correlate e incidents = before ++ i' :: after
     /\ detectionCount i' = S (detectionCount i)
     /\ (forall s, In s (affectedServices i')
                   <-> s = event_service e \/ In s (affectedServices i))
     /\ getSeverityWeight (severity i')
        = Nat.max (getSeverityWeight (severity i))
            (getSeverityWeight (event_severity e))
     /\ (severity i' = severity i \/ severity i' = event_severity e)
     /\ status i' = open
     /\ (tenant i', project i', family i') = (tenant i, project i, family i))
  /\ (Forall (fun i => ~ takes e i) incidents ->
      exists n,
        correlate e incidents = incidents ++ [n]
        /\ status n = open
        /\ severity n = event_severity e
        /\ detectionCount n = 1
        /\ affectedServices n = [event_service e]
        /\ (tenant n, project n, family n)
           = (event_tenant e, event_project e, ruleFamily (event_rule e)))
  /\ (forall i, In i incidents ->
        status i = resolved \/ status i = false_positive ->
        ~ takes e i /\ In i (correlate e incidents))
  /\ ((forall i, In i incidents ->
         (event_tenant e, event_project e, ruleFamily (event_rule e))
         = (tenant i, project i, family i) ->
         status i = resolved \/ status i = false_positive) ->
      correlate e incidents = incidents ++ [open_incident e]).
Proof.
  assert (Hterm : forall i, status i = resolved \/ status i = false_positive ->
                            ~ takes e i).
  { intros i [Hs|Hs] (Ho & _); congruence. }
  split; [|split; [|split]].
  - intros H. apply first_taker in H.
    destruct H as (before & i & after & -> & Hi & Hb).
    exists before, i, after, (append_event e i).
    split; [reflexivity|]. split; [exact Hi|]. split; [exact Hb|].
    unfold correlate.
    rewrite (append_to_first_some e _ before i after eq_refl
               (none_takes e before Hb) (proj1 (takes_appendable e i) Hi)).
    split; [reflexivity|]. split; [reflexivity|].
    split; [intros s; apply add_service_in|].
    split; [apply max_severity_weight|].
    split; [cbn; unfold max_severity; destruct (_ <? _); auto|].
    split; [apply Hi | reflexivity].
  - intros H. exists (open_incident e). unfold correlate.
    rewrite (append_to_first_none e incidents (none_takes e incidents H)).
    repeat split.
  - intros i Hin Hs. split; [now apply Hterm|].
    unfold correlate.
    destruct (append_to_first e incidents) as [incidents'|] eqn:Ha;
      [|apply in_or_app; now left].
    revert incidents' Ha. induction incidents as [|j incidents IH];
      intros incidents' Ha; [inversion Hin|].
    cbn in Ha. destruct (appendable e j) eqn:Hj.
    + injection Ha as <-. destruct Hin as [->|Hin]; [|now right].
      exfalso. apply (Hterm i Hs). now apply takes_appendable.
    + destruct (append_to_first e incidents) as [rest|]; [|discriminate].
      injection Ha as <-. destruct Hin as [->|Hin]; [now left|].
      right. now apply IH.
  - intros H. unfold correlate. rewrite append_to_first_none; [reflexivity|].
    apply none_takes, Forall_forall. intros i Hin Ht.
    apply (Hterm i); [|exact Ht]. apply (H i Hin).
    destruct Ht as (_ & -> & -> & -> & _). reflexivity.
Qed.

End WithRuleFamily.


(** *** The scenario of the specification *)

(** Rule ids of the scenario carry no instance suffix. *)
Definition whole_rule (rule : string) : string := rule.

Definition detection (service : string) (sev : Severity) (minutes : Z)
  : DetectionEvent :=
  mkDetectionEvent "org" "p1" "critical-errors" "log" service sev
    (minutes * 60 * 1000).

(** Two events within 15 minutes make one incident of two detections; a
    third event 20 minutes later opens a second incident. *)
Example correlate_three_events :
  map (fun i => (detectionCount i, severity i, affectedServices i))
    (correlate whole_rule (detection "api" high 30)
       (correlate whole_rule (detection "worker" critical 10)
          (correlate whole_rule (detection "api" medium 0) [])))
  = [(2, critical, ["api"; "worker"]); (1, high, ["api"])].
Proof. reflexivity. Qed.

End Correlator.

(** ** The worker adapters of the two backends *)

Module Adapters.

(** A [Date] by its time value in milliseconds; [None] is the invalid
    date. *)
Definition Date := option Z.

(** [new Date(value)] for a whole number of milliseconds. *)
Definition new_Date (value : Z) : Date :=
  if (Z.abs value <=? 8640000000000000)%Z then Some value else None.

Section WithData.

(** The type of the data of a job. *)
Variable T : Type.

Record IJob := mkIJob {
  id : string;
  data : T;
  name : string;
  attemptsMade : nat;
  timestamp : option Date
}.

(** What a handler is called with. *)
Inductive Arguments :=
| OfCompleted (job : IJob)
| OfFailed (job : option IJob) (error : string)
| OfError (error : string).

(** How the call of a handler ends: it returns, nothing or a promise that
    is fulfilled; it returns a promise that rejects; or it throws. *)
Inductive Ending :=
| Returns
| Rejects (reason : string)
| Throws (exception : string).

(** A handler is a function object: its number, and how its calls end. *)
Record Handler := mkHandler {
  handler_object : nat;
  behaviour : Arguments -> Ending
}.

Record EventHandlers := mkEventHandlers {
  completed : option Handler;
  failed : option Handler;
  error : option Handler
}.

(** A [BullMQWorkerAdapter] or a [GraphileWorkerAdapter], with the calls
    of handlers that it made and the lines that it wrote with
    [console.error]. *)
Record WorkerAdapter := mkWorkerAdapter {
  worker_name : string;
  eventHandlers : EventHandlers;
  invocations : list (Handler * Arguments);
  console : list (string * string)
}.

(** The adapter that either constructor returns. *)
Definition new_worker (name : string) : WorkerAdapter :=
  mkWorkerAdapter name (mkEventHandlers None None None) [] [].

Definition set_eventHandlers (h : EventHandlers) (w : WorkerAdapter)
  : WorkerAdapter :=
  mkWorkerAdapter (worker_name w) h (invocations w) (console w).

(** [on], which the two classes define alike. *)
Definition on (event : string) (handler : Handler) (w : WorkerAdapter)
  : WorkerAdapter :=
  let h := eventHandlers w in
  if (event =? "completed")%string then
    set_eventHandlers (mkEventHandlers (Some handler) (failed h) (error h)) w
  else if (event =? "failed")%string then
    set_eventHandlers (mkEventHandlers (completed h) (Some handler) (error h)) w
  else if (event =? "error")%string then
    set_eventHandlers (mkEventHandlers (completed h) (failed h) (Some handler)) w
  else w.

(** [Promise.resolve(handler(...)).catch(err => console.error(...))]: the
    handler is called; a rejection is written to the console, after the
    name of the library and of the worker; an exception thrown by the
    call itself goes to the caller. *)
Definition settle (library kind : string) (handler : Handler)
  (args : Arguments) (w : WorkerAdapter) : option string * WorkerAdapter :=
  let called :=
    mkWorkerAdapter (worker_name w) (eventHandlers w)
      (invocations w ++ [(handler, args)]) (console w) in
  match behaviour handler args with
  | Returns => (None, called)
  | Rejects reason =>
      (None,
       mkWorkerAdapter (worker_name w) (eventHandlers w)
         (invocations called)
         (console w
          ++ [(("[" ++ library ++ ":" ++ worker_name w ++ "] Error in "
                ++ kind ++ " handler:")%string, reason)]))
  | Throws exception => (Some exception, called)
  end.

(** *** packages/backend/src/queue/adapters/bullmq-adapter.ts *)

(** The fields of a BullMQ job that the adapter reads. *)
Record BullJob := mkBullJob {
  bull_id : option string;
  bull_data : T;
  bull_name : string;
  bull_attemptsMade : nat;
  bull_timestamp : Z
}.

Definition adaptBullJob (bullJob : BullJob) : IJob :=
  mkIJob
    (match bull_id bullJob with
     | Some i => i
     | None => ""
     end)
    (bull_data bullJob)
    (bull_name bullJob)
    (bull_attemptsMade bullJob)
    (if (bull_timestamp bullJob =? 0)%Z then None
     else Some (new_Date (bull_timestamp bullJob))).

(** The events of the BullMQ worker that the adapter listens to. *)
Inductive WorkerEvent :=
| Completed (bullJob : BullJob)
| Failed (bullJob : option BullJob) (error : string)
| Error (error : string).

(** The listener of each event; the result is the exception that leaves
    the listener, if any. *)
Definition emit (event : WorkerEvent) (w : WorkerAdapter)
  : option string * WorkerAdapter :=
  match event with
  | Completed bullJob =>
      match completed (eventHandlers w) with
      | Some handler =>
          let adaptedJob := adaptBullJob bullJob in
          settle "BullMQ" "completed" handler (OfCompleted adaptedJob) w
      | None => (None, w)
      end
  | Failed bullJob error =>
      match failed (eventHandlers w) with
      | Some handler =>
          let adaptedJob := option_map adaptBullJob bullJob in
          settle "BullMQ" "failed" handler (OfFailed adaptedJob error) w
      | None => (None, w)
      end
  | Error err =>
      match error (eventHandlers w) with
      | Some handler => settle "BullMQ" "error" handler (OfError err) w
      | None => (None, w)
      end
  end.

(** *** The graphile-worker adapter *)

(** The fields of a graphile-worker job that the adapter reads. *)
Record GraphileJob := mkGraphileJob {
  job_id : string;
  attempts : nat;
  created_at : Date
}.

Definition adaptGraphileJob (taskIdentifier : string) (payload : T)
  (job : GraphileJob) : IJob :=
  mkIJob (job_id job) payload taskIdentifier (attempts job)
    (Some (created_at job)).

Definition triggerCompleted (job : IJob) (w : WorkerAdapter)
  : option string * WorkerAdapter :=
  match completed (eventHandlers w) with
  | Some handler => settle "Graphile" "completed" handler (OfCompleted job) w
  | None => (None, w)
  end.

Definition triggerFailed (job : option IJob) (error : string)
  (w : WorkerAdapter) : option string * WorkerAdapter :=
  match failed (eventHandlers w) with
  | Some handler => settle "Graphile" "failed" handler (OfFailed job error) w
  | None => (None, w)
  end.

(** How a promise is settled. *)
Inductive Settled :=
| Fulfilled
| Rejected (reason : string).

(** The task that [registerTask] files under the name of a worker: the
    processor is awaited and the worker told how it ended; what is thrown
    inside the [try], by the processor or by the completed handler, is
    caught, reported as a failure and thrown again. *)
Definition task (processor : IJob -> Settled) (payload : T)
  (job : GraphileJob) (w : WorkerAdapter) : Settled * WorkerAdapter :=
  let adaptedJob := adaptGraphileJob (worker_name w) payload job in
  let catch (error : string) (w : WorkerAdapter) :=
    match triggerFailed (Some adaptedJob) error w with
    | (Some exception, w) => (Rejected exception, w)
    | (None, w) => (Rejected error, w)
    end in
  match processor adaptedJob with
  | Fulfilled =>
      match triggerCompleted adaptedJob w with
      | (Some exception, w) => catch exception w
      | (None, w) => (Fulfilled, w)
      end
  | Rejected error => catch error w
  end.

(** *** Properties *)

(** The name of an event, and what its handler is called with. *)
Definition kind (event : WorkerEvent) : string :=
  match event with
  | Completed _ => "completed"
  | Failed _ _ => "failed"
  | Error _ => "error"
  end.

Definition arguments (event : WorkerEvent) : Arguments :=
  match event with
  | Completed bullJob => OfCompleted (adaptBullJob bullJob)
  | Failed bullJob error => OfFailed (option_map adaptBullJob bullJob) error
  | Error error => OfError error
  end.

(** Calls of [on], in order. *)
Definition register (regs : list (string * Handler)) (w : WorkerAdapter)
  : WorkerAdapter :=
  fold_left (fun w r => on (fst r) (snd r) w) regs w.

(** The handler of the last [on] for an event. *)
Definition latest (k : string) (regs : list (string * Handler))
  : option Handler :=
  match find (fun r => (fst r =? k)%string) (rev regs) with
  | Some r => Some (snd r)
  | None => None
  end.

(** The handler in the slot of an event. *)
Definition slot (k : string) (h : EventHandlers) : option Handler :=
  if (k =? "completed")%string then completed h
  else if (k =? "failed")%string then failed h
  else if (k =? "error")%string then error h
  else None.

Lemma on_slot (event k : string) (handler : Handler) (w : WorkerAdapter) :
  k = "completed" \/ k = "failed" \/ k = "error" ->
  slot k (eventHandlers (on event handler w))
  = if (event =? k)%string then Some handler else slot k (eventHandlers w).
Proof.
  intros Hk. unfold on, slot.
  destruct Hk as [-> | [-> | ->]];
    destruct (String.eqb_spec event "completed") as [-> | H1];
    try reflexivity;
    destruct (String.eqb_spec event "failed") as [-> | H2];
    try reflexivity;
    destruct (String.eqb_spec event "error") as [-> | H3];
    reflexivity.
Qed.

Lemma on_traces (event : string) (handler : Handler) (w : WorkerAdapter) :
  worker_name (on event handler w) = worker_name w
  /\ invocations (on event handler w) = invocations w
  /\ console (on event handler w) = console w.
Proof.
  unfold on.
  destruct ((event =? "completed")%string); [now cbn|].
  destruct ((event =? "failed")%string); [now cbn|].
  destruct ((event =? "error")%string); now cbn.
Qed.

Lemma register_traces (regs : list (string * Handler)) (w : WorkerAdapter) :
  worker_name (register regs w) = worker_name w
  /\ invocations (register regs w) = invocations w
  /\ console (register regs w) = console w.
Proof.
  revert w. induction regs as [|r regs IH]; intros w; [now cbn|].
  change (register (r :: regs) w) with (register regs (on (fst r) (snd r) w)).
  destruct (IH (on (fst r) (snd r) w)) as (H1 & H2 & H3).
  destruct (on_traces (fst r) (snd r) w) as (G1 & G2 & G3).
  rewrite H1, H2, H3. auto.
Qed.

Lemma register_slot (k : string) (regs : list (string * Handler))
  (w : WorkerAdapter) :
  k = "completed" \/ k = "failed" \/ k = "error" ->
  slot k (eventHandlers (register regs w))
  = match latest k regs with
    | Some handler => Some handler
    | None => slot k (eventHandlers w)
    end.
Proof.
  intros Hk. unfold latest. revert w.
  induction regs as [|r regs IH] using rev_ind; intros w; [reflexivity|].
  unfold register. rewrite fold_left_app. cbn [fold_left].
  rewrite rev_app_distr. cbn [rev app find].
  rewrite on_slot by exact Hk.
  destruct ((fst r =? k)%string); [reflexivity|]. apply IH.
Qed.

Lemma new_worker_slot (k name : string) (regs : list (string * Handler)) :
  k = "completed" \/ k = "failed" \/ k = "error" ->
  slot k (eventHandlers (register regs (new_worker name))) = latest k regs.
Proof.
  intros Hk. rewrite (register_slot k regs _ Hk).
  destruct (latest k regs); [reflexivity|].
  destruct Hk as [-> | [-> | ->]]; reflexivity.
Qed.

Lemma emit_slot (event : WorkerEvent) (w : WorkerAdapter) :
  emit event w
  = match slot (kind event) (eventHandlers w) with
    | Some handler =>
        settle "BullMQ" (kind event) handler (arguments event) w
    | None => (None, w)
    end.
Proof. destruct event; reflexivity. Qed.

(** X16. An adapter keeps one handler for each of its three events, the one
    registered last: whatever calls of [on] were made on a new BullMQ
    adapter, an event of the worker calls the handler of the last [on] for
    that event, once and with the adapted job, and no other handler; with
    no such [on], nothing happens. A promise that the handler returns and
    that rejects is written to the console, once; an exception that the
    handler throws leaves the listener. The handlers registered stay. *)
Theorem worker_events_reach_latest_handler (name : string)
  (regs : list (string * Handler)) (event : WorkerEvent) :
  let w := register regs (new_worker name) in
  let w' := snd (emit event w) in
  eventHandlers w' = eventHandlers w
  /\ match latest (kind event) regs with
     | None => emit event w = (None, w)
     | Some handler =>
         invocations w' = [(handler, arguments event)]
         /\ fst (emit event w)
            = match behaviour handler (arguments event) with
              | Throws exception => Some exception
              | _ => None
              end
         /\ console w'
            = match behaviour handler (arguments event) with
              | Rejects reason =>
                  [(("[BullMQ:" ++ name ++ "] Error in " ++ kind event
                     ++ " handler:")%string, reason)]
              | _ => []
              end
     end.
Proof.
  cbv zeta. rewrite emit_slot.
  assert (Hk : kind event = "completed" \/ kind event = "failed"
               \/ kind event = "error")
    by (destruct event; cbn; auto).
  rewrite (new_worker_slot _ name regs Hk).
  destruct (register_traces regs (new_worker name)) as (Hn & Hi & Hc).
  destruct (latest (kind event) regs) as [handler|]; [|auto].
  unfold settle. rewrite Hn, Hi, Hc.
  cbn [new_worker worker_name invocations console app].
  destruct (behaviour handler (arguments event)); cbn; auto.
Qed.

Lemma trigger_slots (w : WorkerAdapter) :
  completed (eventHandlers w) = slot "completed" (eventHandlers w)
  /\ failed (eventHandlers w) = slot "failed" (eventHandlers w).
Proof. split; reflexivity. Qed.

(** X17. The task of a graphile worker tells the worker how the processor
    ended, once: for any calls of [on] made on a new adapter, and
    handlers that do not throw, the task settles as the processor does,
    and the only handler called is the last one registered for completed
    when the processor fulfils, with the adapted job, and the last one
    registered for failed when it rejects, with the job and the reason.
    A handler for error is never called. A completed handler that throws
    turns a job whose processor fulfilled into a failed one: the failed
    handler is called with what was thrown, and the task rejects. *)
Theorem graphile_task_reports_outcome (name : string)
  (regs : list (string * Handler)) (processor : IJob -> Settled)
  (payload : T) (job : GraphileJob) :
  let w := register regs (new_worker name) in
  let adaptedJob := adaptGraphileJob name payload job in
  let r := task processor payload job w in
  eventHandlers (snd r) = eventHandlers w
  /\ (forall handler err, ~ In (handler, OfError err) (invocations (snd r)))
  /\ ((forall handler args exception,
         In handler (map snd regs) ->
         behaviour handler args <> Throws exception) ->
      fst r = processor adaptedJob
      /\ invocations (snd r)
         = match processor adaptedJob with
           | Fulfilled =>
               match latest "completed" regs with
               | Some handler => [(handler, OfCompleted adaptedJob)]
               | None => []
               end
           | Rejected reason =>
               match latest "failed" regs with
               | Some handler => [(handler, OfFailed (Some adaptedJob) reason)]
               | None => []
               end
           end)
  /\ (forall handler exception,
        processor adaptedJob = Fulfilled ->
        latest "completed" regs = Some handler ->
        behaviour handler (OfCompleted adaptedJob) = Throws exception ->
        (exists reason, fst r = Rejected reason)
        /\ forall handler',
             latest "failed" regs = Some handler' ->
             In (handler', OfFailed (Some adaptedJob) exception)
               (invocations (snd r))).
Proof.
  cbv zeta.
  destruct (register_traces regs (new_worker name)) as (Hn & Hi & _).
  pose proof (new_worker_slot "completed" name regs (or_introl eq_refl))
    as Hsc.
  pose proof (new_worker_slot "failed" name regs
                (or_intror (or_introl eq_refl))) as Hsf.
  change (slot "completed" ?h) with (completed h) in Hsc.
  change (slot "failed" ?h) with (failed h) in Hsf.
  assert (Hin : forall k handler,
            latest k regs = Some handler -> In handler (map snd regs)).
  { intros k handler. unfold latest.
    destruct (find _ (rev regs)) as [r|] eqn:Hf; [|discriminate].
    intros [= <-]. apply find_some in Hf. apply in_map, in_rev, Hf. }
  destruct (register regs (new_worker name)) as [n [c f e] inv con].
  cbn in Hn, Hi, Hsc, Hsf. subst n inv c f.
  unfold task, triggerCompleted, triggerFailed, settle.
  cbn [worker_name eventHandlers completed failed invocations console app].
  destruct (processor (adaptGraphileJob name payload job)) as [|reason]
    eqn:Hp;
    destruct (latest "completed" regs) as [hc|] eqn:Hlc;
    destruct (latest "failed" regs) as [hf|] eqn:Hlf;
    try (destruct (behaviour hc (OfCompleted _)) as [|?|thrown] eqn:Hbc);
    cbn [fst snd worker_name eventHandlers completed failed invocations
           console app];
    try (destruct (behaviour hf (OfFailed _ _)) as [|?|?] eqn:Hbf);
    cbn [fst snd worker_name eventHandlers completed failed invocations
           console app].
  all: split; [reflexivity|].
  all: split; [intros h0 err0 Hx; cbn in Hx;
               repeat (destruct Hx as [Hx|Hx]; [discriminate|]); exact Hx|].
  all: split.
  all: try (intros Hnt; split; reflexivity).
  all: try (intros Hnt; exfalso;
            first [ eapply (Hnt hc); [eapply Hin; eassumption | eassumption]
                  | eapply (Hnt hf); [eapply Hin; eassumption | eassumption]]).
  all: intros h0 exc Hf Hl Hb; try discriminate.
  all: injection Hl as <-; rewrite Hbc in Hb; try discriminate.
  all: injection Hb as <-.
  all: split; [eexists; reflexivity|].
  all: intros h1 Hl'; try discriminate.
  all: injection Hl' as <-; cbn; auto.
Qed.

End WithData.

(** *** The manager of the graphile runner *)

Inductive ManagerLine :=
| NoTasksRegistered
| WorkerStarted (tasks : nat)
| FailedToStartWorker (error : string)
| WorkerStopped
| ErrorStoppingWorker (error : string).

(** The fields of [GraphileWorkerManager]. Runners, pools and workers are
    objects, known by their numbers; [taskList] maps the name of a task
    to the worker that it reports to; [runners] counts the runners
    started. *)
Record Manager := mkManager {
  runner : option nat;
  taskList : list (string * nat);
  pool : option nat;
  workers : list (string * nat);
  isRunning : bool;
  manager_console : list ManagerLine;
  runners : nat
}.

Definition new_manager : Manager := mkManager None [] None [] false [] 0.

Definition manager_log (line : ManagerLine) (m : Manager) : Manager :=
  mkManager (runner m) (taskList m) (pool m) (workers m) (isRunning m)
    (manager_console m ++ [line]) (runners m).

Definition manager_initialize (p : nat) (m : Manager) : Manager :=
  mkManager (runner m) (taskList m) (Some p) (workers m) (isRunning m)
    (manager_console m) (runners m).

(** [taskList[name] = ...] on a plain object: the name [__proto__] sets
    the prototype and adds no key. *)
Definition set_task (name : string) (worker : nat)
  (tasks : list (string * nat)) : list (string * nat) :=
  if (name =? "__proto__")%string then tasks
  else JS.map_set name worker tasks.

Definition registerTask (name : string) (worker : nat) (m : Manager)
  : Manager :=
  mkManager (runner m) (set_task name worker (taskList m)) (pool m)
    (JS.map_set name worker (workers m)) (isRunning m) (manager_console m)
    (runners m).

(** How the promise of graphile-worker's [run], or of the runner's
    [stop], is settled. *)
Definition start (outcome : Settled) (m : Manager)
  : Settled * Manager :=
  match isRunning m, pool m with
  | true, _ | _, None => (Fulfilled, m)
  | false, Some _ =>
      if List.length (JS.map_keys (taskList m)) =? 0 then
        (Fulfilled,
         manager_log NoTasksRegistered m)
      else
        match outcome with
        | Fulfilled =>
            (Fulfilled,
             manager_log
               (WorkerStarted (List.length (JS.map_keys (taskList m))))
               (mkManager (Some (runners m)) (taskList m) (pool m)
                  (workers m) true (manager_console m) (S (runners m))))
        | Rejected error =>
            (Rejected error,
             manager_log (FailedToStartWorker error) m)
        end
  end.

Definition stop (outcome : Settled) (m : Manager) : Manager :=
  match isRunning m, runner m with
  | true, Some _ =>
      match outcome with
      | Fulfilled =>
          manager_log WorkerStopped
            (mkManager None (taskList m) (pool m) (workers m) false
               (manager_console m) (runners m))
      | Rejected error => manager_log (ErrorStoppingWorker error) m
      end
  | _, _ => m
  end.

Definition isActive (m : Manager) : bool := isRunning m.

Definition getWorkerCount (m : Manager) : nat := List.length (workers m).

(** The calls that reach the manager. *)
Inductive ManagerCall :=
| CallInitialize (p : nat)
| CallRegisterTask (name : string) (worker : nat)
| CallStart (outcome : Settled)
| CallStop (outcome : Settled).

Definition manager_step (c : ManagerCall) (m : Manager) : Manager :=
  match c with
  | CallInitialize p => manager_initialize p m
  | CallRegisterTask name worker => registerTask name worker m
  | CallStart outcome => snd (start outcome m)
  | CallStop outcome => stop outcome m
  end.

Definition manager_run (calls : list ManagerCall) (m : Manager) : Manager :=
  fold_left (fun m c => manager_step c m) calls m.

(** The names registered by a list of calls. *)
Definition registered (calls : list ManagerCall) : list string :=
  flat_map
    (fun c =>
       match c with
       | CallRegisterTask name _ => [name]
       | _ => []
       end)
    calls.

(** What holds of the manager in every state. *)
Definition sound (m : Manager) : Prop :=
  (isRunning m = true <-> exists r, runner m = Some r)
  /\ (isRunning m = true ->
      (exists p, pool m = Some p) /\ taskList m <> [])
  /\ NoDup (JS.map_keys (workers m)).

Lemma set_task_nonempty (name : string) (worker : nat)
  (tasks : list (string * nat)) :
  tasks <> [] -> set_task name worker tasks <> [].
Proof.
  unfold set_task. destruct ((name =? "__proto__")%string); [auto|].
  intros Hne. destruct tasks as [|[k v] tasks]; [congruence|].
  cbn. destruct (String.eqb name k); discriminate.
Qed.

Lemma manager_step_sound (c : ManagerCall) (m : Manager) :
  sound m -> sound (manager_step c m).
Proof.
  intros Hs. pose proof Hs as (Hr & Hp & Hn).
  destruct c as [p|name worker|outcome|outcome]; cbn [manager_step].
  - unfold sound, manager_initialize. cbn. split; [exact Hr|].
    split; [|exact Hn]. intros H. split; [eauto | now apply Hp].
  - unfold sound, registerTask. cbn. split; [exact Hr|].
    split; [|now apply JS.map_set_NoDup].
    intros H. destruct (Hp H) as [Hpool Ht].
    split; [exact Hpool | now apply set_task_nonempty].
  - unfold start. destruct (isRunning m) eqn:Hi; [exact Hs|].
    destruct (pool m) as [p|] eqn:Hpool; [|exact Hs].
    destruct (Nat.eqb_spec (List.length (JS.map_keys (taskList m))) 0)
      as [H0|H0]; [exact Hs|].
    destruct outcome; [|exact Hs].
    unfold sound. cbn. split; [split; eauto|].
    split; [|exact Hn].
    intros _. split; [eauto|]. intros Ht. rewrite Ht in H0. now apply H0.
  - unfold stop. destruct (isRunning m) eqn:Hi; [|exact Hs].
    destruct (runner m) as [r|] eqn:Hrun; [|exact Hs].
    destruct outcome; [|exact Hs].
    unfold sound. cbn.
    split; [split; [discriminate | intros [? [=]]]|].
    split; [discriminate | exact Hn].
Qed.

Lemma manager_run_sound (calls : list ManagerCall) (m : Manager) :
  sound m -> sound (manager_run calls m).
Proof.
  revert m. induction calls as [|c calls IH]; intros m H; [exact H|].
  apply IH, manager_step_sound, H.
Qed.

Lemma manager_step_workers (c : ManagerCall) (m : Manager) (name : string) :
  In name (JS.map_keys (workers (manager_step c m)))
  <-> In name (JS.map_keys (workers m)) \/ In name (registered [c]).
Proof.
  destruct c as [p|n worker|outcome|outcome]; cbn [manager_step registered
    flat_map app].
  - cbn. tauto.
  - cbn [registerTask workers]. rewrite JS.map_set_keys_in. cbn.
    intuition congruence.
  - unfold start. destruct (isRunning m); [cbn; tauto|].
    destruct (pool m); [|cbn; tauto].
    destruct (_ =? 0); [cbn; tauto|]. destruct outcome; cbn; tauto.
  - unfold stop. destruct (isRunning m); [|cbn; tauto].
    destruct (runner m); [|cbn; tauto]. destruct outcome; cbn; tauto.
Qed.

Lemma manager_run_workers (calls : list ManagerCall) (m : Manager)
  (name : string) :
  In name (JS.map_keys (workers (manager_run calls m)))
  <-> In name (JS.map_keys (workers m)) \/ In name (registered calls).
Proof.
  revert m. induction calls as [|c calls IH]; intros m.
  - cbn. tauto.
  - change (manager_run (c :: calls) m)
      with (manager_run calls (manager_step c m)).
    rewrite IH, manager_step_workers. unfold registered.
    cbn [flat_map]. rewrite !in_app_iff. cbn [In]. tauto.
Qed.

(** X18. Whatever calls reach the manager, and however the runner starts and
    stops: [isActive] answers true exactly while the manager holds a
    runner, and then it has a pool and a task; and the workers that
    [getWorkerCount] counts are the names ever registered, each once,
    since nothing unregisters a worker, [stop] no more than the rest. *)
Theorem graphile_manager_truthful (calls : list ManagerCall) :
  let m := manager_run calls new_manager in
  (isActive m = true <-> exists r, runner m = Some r)
  /\ (isActive m = true ->
      (exists p, pool m = Some p) /\ taskList m <> [])
  /\ NoDup (JS.map_keys (workers m))
  /\ getWorkerCount m = List.length (JS.map_keys (workers m))
  /\ (forall name,
        In name (JS.map_keys (workers m)) <-> In name (registered calls)).
Proof.
  cbv zeta.
  assert (Hs : sound new_manager).
  { unfold sound, new_manager. cbn. split; [split|split].
    - discriminate.
    - intros [? [=]].
    - discriminate.
    - constructor. }
  destruct (manager_run_sound calls new_manager Hs) as (H1 & H2 & H3).
  split; [exact H1|]. split; [exact H2|]. split; [exact H3|].
  split; [unfold getWorkerCount, JS.map_keys; now rewrite length_map|].
  intros name. rewrite manager_run_workers. cbn. tauto.
Qed.

End Adapters.

(** ** Strings of JavaScript *)

Module JSString.

(** [String.prototype.split] with a separator of one character. *)
Fixpoint split (sep : ascii) (s : string) : list string :=
  match s with
  | EmptyString => [""]
  | String c s' =>
      if Ascii.eqb c sep then "" :: split sep s'
      else
        match split sep s' with
        | word :: words => String c word :: words
        | [] => [String c ""]
        end
  end.

(** [Array.prototype.join] of strings. *)
Fixpoint join (sep : string) (words : list string) : string :=
  match words with
  | [] => ""
  | [word] => word
  | word :: words => (word ++ sep ++ join sep words)%string
  end.

(** Whether a character occurs in a string. *)
Fixpoint occurs (c : ascii) (s : string) : bool :=
  match s with
  | EmptyString => false
  | String d s' => Ascii.eqb d c || occurs c s'
  end.

(** [toUpperCase] of a character below 128. *)
Definition upper (c : ascii) : ascii :=
  if (97 <=? nat_of_ascii c) && (nat_of_ascii c <=? 122)
  then ascii_of_nat (nat_of_ascii c - 32)
  else c.

(** [String.prototype.toUpperCase] on strings of characters below 128,
    where it maps character by character. *)
Fixpoint toUpperCase (s : string) : string :=
  match s with
  | EmptyString => ""
  | String c s' => String (upper c) (toUpperCase s')
  end.

(** Every character is below 128. *)
Fixpoint is_ascii (s : string) : bool :=
  match s with
  | EmptyString => true
  | String c s' => (nat_of_ascii c <? 128) && is_ascii s'
  end.

(** [s.charAt(0)] and [s.slice(1)] *)
Definition charAt0 (s : string) : string :=
  match s with
  | EmptyString => ""
  | String c _ => String c ""
  end.

Definition slice1 (s : string) : string :=
  match s with
  | EmptyString => ""
  | String _ s' => s'
  end.

Definition is_digit (c : ascii) : bool :=
  (48 <=? nat_of_ascii c) && (nat_of_ascii c <=? 57).

Fixpoint all_digits (s : string) : bool :=
  match s with
  | EmptyString => true
  | String c s' => is_digit c && all_digits s'
  end.

Lemma split_nonempty (sep : ascii) (s : string) : split sep s <> [].
Proof.
  destruct s as [|c s]; cbn; [discriminate|].
  destruct (Ascii.eqb c sep); [discriminate|].
  destruct (split sep s); discriminate.
Qed.

Lemma split_none (sep : ascii) (s : string) :
  occurs sep s = false -> split sep s = [s].
Proof.
  induction s as [|c s IH]; cbn; [reflexivity|].
  intros H. apply orb_false_iff in H. destruct H as [Hc Hs].
  rewrite Hc, (IH Hs). reflexivity.
Qed.

Lemma split_app (sep : ascii) (word rest : string) :
  occurs sep word = false ->
  split sep (word ++ String sep rest) = word :: split sep rest.
Proof.
  induction word as [|c word IH]; cbn.
  - intros _. now rewrite Ascii.eqb_refl.
  - intros H. apply orb_false_iff in H. destruct H as [Hc Hs].
    rewrite Hc, (IH Hs). reflexivity.
Qed.

Lemma append_length (a b : string) :
  String.length (a ++ b) = String.length a + String.length b.
Proof. induction a as [|x a IH]; cbn; [reflexivity | now rewrite IH]. Qed.

(** [split] undoes [join]. *)
Lemma split_join (sep : ascii) (words : list string) :
  words <> [] ->
  Forall (fun word => occurs sep word = false) words ->
  split sep (join (String sep "") words) = words.
Proof.
  induction words as [|word words IH]; [congruence|].
  intros _ H. inversion H as [|? ? Hw Hws]; subst.
  destruct words as [|word' words].
  - cbn [join]. now apply split_none.
  - change (join (String sep "") (word :: word' :: words))
      with (word ++ String sep (join (String sep "") (word' :: words)))%string.
    rewrite split_app by exact Hw. f_equal. apply IH; [discriminate|exact Hws].
Qed.

(** [join] undoes [split]. *)
Lemma join_split (sep : ascii) (s : string) :
  join (String sep "") (split sep s) = s.
Proof.
  induction s as [|c s IH]; [reflexivity|].
  cbn [split]. destruct (Ascii.eqb_spec c sep) as [->|Hc].
  - pose proof (split_nonempty sep s) as Hne.
    destruct (split sep s) as [|w ws] eqn:Hs; [congruence|].
    change (join (String sep "") ("" :: w :: ws))
      with (String sep (join (String sep "") (w :: ws))).
    now rewrite IH.
  - pose proof (split_nonempty sep s) as Hne.
    destruct (split sep s) as [|w ws] eqn:Hs; [congruence|].
    rewrite <- IH. destruct ws; reflexivity.
Qed.

Lemma split_words (sep : ascii) (s : string) :
  Forall (fun word => occurs sep word = false) (split sep s).
Proof.
  induction s as [|c s IH]; cbn [split].
  - constructor; [reflexivity | constructor].
  - destruct (Ascii.eqb c sep) eqn:Hc.
    + constructor; [reflexivity | exact IH].
    + pose proof (split_nonempty sep s) as Hne.
      destruct (split sep s) as [|w ws]; [congruence|].
      inversion IH; subst. constructor; [|assumption].
      cbn. now rewrite Hc.
Qed.

Lemma digits_no_dot (s : string) :
  all_digits s = true -> occurs "." s = false.
Proof.
  induction s as [|c s IH]; cbn; [reflexivity|].
  intros H. apply andb_true_iff in H. destruct H as [Hc Hs].
  rewrite (IH Hs), orb_false_r.
  revert Hc. destruct c as [[] [] [] [] [] [] [] []]; vm_compute; congruence.
Qed.

End JSString.

(** ** MITRE ATT&CK helpers *)

Module Mitre.

Import JSString.

(** The function that [formatTacticId] maps on the words. *)
Definition capitalize (word : string) : string :=
  (toUpperCase (charAt0 word) ++ slice1 word)%string.

Definition formatTacticId (tacticId : string) : string :=
  join " " (map capitalize (split "_" tacticId)).

Definition techniques_url : string := "https://attack.mitre.org/techniques/".

(** [subId] is [None] for [null] and for [undefined]. *)
Definition getMitreUrl (techniqueId : string) : string :=
  let baseId := nth 0 (split "." techniqueId) "" in
  let subId :=
    if JS.includes techniqueId "."
    then nth_error (split "." techniqueId) 1
    else None in
  match subId with
  | Some (String c sub) =>
      (techniques_url ++ baseId ++ "/" ++ String c sub ++ "/")%string
  | _ => (techniques_url ++ baseId ++ "/")%string
  end.

(** [/^T\d{4}(\.\d{3})?$/i.test(s)] *)
Definition technique_regex_test (s : string) : bool :=
  match s with
  | String t (String d1 (String d2 (String d3 (String d4 rest)))) =>
      Ascii.eqb (upper t) "T"
      && is_digit d1 && is_digit d2 && is_digit d3 && is_digit d4
      && match rest with
         | EmptyString => true
         | String dot (String e1 (String e2 (String e3 EmptyString))) =>
             Ascii.eqb dot "." && is_digit e1 && is_digit e2 && is_digit e3
         | _ => false
         end
  | _ => false
  end.

Definition formatMitreTechnique (technique : string) : string :=
  if technique_regex_test technique then toUpperCase technique
  else technique.

(** *** Properties *)

Lemma includes_occurs (c : ascii) (s : string) :
  JS.includes s (String c "") = occurs c s.
Proof.
  induction s as [|d s IH]; [reflexivity|].
  cbn [JS.includes JS.startsWith occurs]. rewrite IH.
  replace (JS.startsWith s "") with true by (destruct s; reflexivity).
  rewrite andb_true_r, (Ascii.eqb_sym c d). reflexivity.
Qed.

Lemma occurs_app (c : ascii) (a b : string) :
  occurs c (a ++ b) = occurs c a || occurs c b.
Proof.
  induction a as [|x a IH]; [reflexivity|].
  cbn. now rewrite IH, orb_assoc.
Qed.

Lemma upper_idempotent (c : ascii) : upper (upper c) = upper c.
Proof.
  destruct c as [[] [] [] [] [] [] [] []]; vm_compute; reflexivity.
Qed.

Lemma upper_keeps (c x : ascii) :
  (x = "_" \/ x = "." \/ is_digit x = true)%char ->
  Ascii.eqb (upper c) x = Ascii.eqb c x.
Proof.
  intros Hx.
  destruct (Ascii.eqb_spec c x) as [->|Hne].
  - replace (upper x) with x; [apply Ascii.eqb_refl|].
    destruct Hx as [-> | [-> | Hd]]; [reflexivity | reflexivity |].
    revert Hd. destruct x as [[] [] [] [] [] [] [] []]; vm_compute;
      congruence.
  - apply Ascii.eqb_neq. intros Hu. apply Hne. subst x.
    revert Hx. clear Hne.
    destruct c as [[] [] [] [] [] [] [] []]; vm_compute;
      intuition congruence.
Qed.

Lemma toUpperCase_length (s : string) :
  String.length (toUpperCase s) = String.length s.
Proof. induction s as [|c s IH]; cbn; [reflexivity | now rewrite IH]. Qed.

Lemma toUpperCase_digits (s : string) :
  all_digits s = true -> toUpperCase s = s.
Proof.
  induction s as [|c s IH]; cbn; [reflexivity|].
  intros H. apply andb_true_iff in H. destruct H as [Hc Hs].
  rewrite (IH Hs). f_equal.
  pose proof (upper_keeps c c (or_intror (or_intror Hc))) as H.
  rewrite Ascii.eqb_refl in H. now apply Ascii.eqb_eq in H.
Qed.

Lemma capitalize_length (word : string) :
  String.length (capitalize word) = String.length word.
Proof. destruct word; reflexivity. Qed.

Lemma capitalize_occurs (word : string) :
  occurs "_" (capitalize word) = occurs "_" word.
Proof.
  destruct word as [|c word]; [reflexivity|].
  cbn. f_equal. apply upper_keeps. auto.
Qed.

Lemma join_length (a b : ascii) (words words' : list string) :
  map String.length words' = map String.length words ->
  String.length (join (String a "") words')
  = String.length (join (String b "") words).
Proof.
  revert words'. induction words as [|w ws IH]; intros [|w' ws'] H;
    try discriminate; [reflexivity|].
  injection H as Hw Hws. specialize (IH ws' Hws).
  destruct ws as [|v ws]; destruct ws' as [|v' ws']; try discriminate.
  - exact Hw.
  - change (join (String a "") (w' :: v' :: ws'))
      with (w' ++ String a (join (String a "") (v' :: ws')))%string.
    change (join (String b "") (w :: v :: ws))
      with (w ++ String b (join (String b "") (v :: ws)))%string.
    rewrite !append_length. cbn [String.length]. now rewrite Hw, IH.
Qed.

Lemma join_occurs (c sep : ascii) (words : list string) :
  sep <> c ->
  Forall (fun word => occurs c word = false) words ->
  occurs c (join (String sep "") words) = false.
Proof.
  intros Hsep. induction words as [|w ws IH]; intros H; [reflexivity|].
  inversion H as [|? ? Hw Hws]; subst. specialize (IH Hws).
  destruct ws as [|v ws]; [exact Hw|].
  change (join (String sep "") (w :: v :: ws))
    with (w ++ String sep (join (String sep "") (v :: ws)))%string.
  rewrite occurs_app, Hw. cbn [occurs orb]. rewrite IH, orb_false_r.
  now apply Ascii.eqb_neq.
Qed.

(** A string that starts as a capitalized word does is left as it is. *)
Lemma capitalize_fixed (s : string) :
  match s with
  | EmptyString => True
  | String c _ => upper c = c
  end ->
  capitalize s = s.
Proof. destruct s as [|c s]; [reflexivity|]. cbn. now intros ->. Qed.

Lemma formatTacticId_head (words : list string) :
  match join " " (map capitalize words) with
  | EmptyString => True
  | String c _ => upper c = c
  end.
Proof.
  destruct words as [|w ws]; [exact I|].
  destruct w as [|c w].
  - destruct ws as [|v ws]; [exact I|]. reflexivity.
  - destruct ws as [|v ws]; cbn; apply upper_idempotent.
Qed.

(** X19. On an id of characters below 128, [formatTacticId] writes the words
    that underscores separate with a capital each and a space between
    them; it keeps the length, leaves no underscore, and formatting twice
    is formatting once. *)
Theorem formatTacticId_words :
  (forall words,
     words <> [] ->
     Forall (fun word => occurs "_" word = false) words ->
     is_ascii (join "_" words) = true ->
     formatTacticId (join "_" words) = join " " (map capitalize words))
  /\ (forall tacticId,
        is_ascii tacticId = true ->
        String.length (formatTacticId tacticId) = String.length tacticId
        /\ occurs "_" (formatTacticId tacticId) = false
        /\ formatTacticId (formatTacticId tacticId)
           = formatTacticId tacticId).
Proof.
  split.
  - intros words Hne Hw _. unfold formatTacticId.
    now rewrite (split_join "_" words Hne Hw).
  - intros s _.
    assert (Hnone : occurs "_" (formatTacticId s) = false).
    { unfold formatTacticId. apply join_occurs; [discriminate|].
      apply Forall_map. eapply Forall_impl; [|apply (split_words "_" s)].
      intros w Hw. now rewrite capitalize_occurs. }
    split; [|split; [exact Hnone|]].
    + rewrite <- (join_split "_" s) at 2. unfold formatTacticId.
      apply join_length. rewrite map_map. apply map_ext.
      intros w. apply capitalize_length.
    + unfold formatTacticId at 1. rewrite (split_none _ _ Hnone).
      cbn [map join]. apply capitalize_fixed. apply formatTacticId_head.
Qed.

Lemma getMitreUrl_no_dot (techniqueId : string) :
  occurs "." techniqueId = false ->
  getMitreUrl techniqueId = (techniques_url ++ techniqueId ++ "/")%string.
Proof.
  intros Hs. unfold getMitreUrl.
  rewrite includes_occurs, Hs, (split_none _ _ Hs). reflexivity.
Qed.

Lemma getMitreUrl_dotted (base sub rest : string) :
  occurs "." base = false ->
  occurs "." sub = false ->
  let url :=
    match sub with
    | EmptyString => (techniques_url ++ base ++ "/")%string
    | _ => (techniques_url ++ base ++ "/" ++ sub ++ "/")%string
    end in
  getMitreUrl (base ++ "." ++ sub) = url
  /\ getMitreUrl (base ++ "." ++ sub ++ "." ++ rest) = url.
Proof.
  intros Hb Hsub. cbv zeta. unfold getMitreUrl.
  rewrite !includes_occurs, !occurs_app. cbn [occurs Ascii.eqb].
  rewrite !orb_true_r.
  change (base ++ "." ++ sub)%string with (base ++ String "." sub)%string.
  change (base ++ "." ++ sub ++ "." ++ rest)%string
    with (base ++ String "." (sub ++ String "." rest))%string.
  rewrite !(split_app "." base) by exact Hb.
  rewrite (split_none _ _ Hsub), (split_app "." sub) by exact Hsub.
  cbn [nth nth_error]. destruct sub; auto.
Qed.

(** X20. The URL of a technique is made of the part of the id before the first
    dot and, when there is a dot with something after it, of the part up
    to the second dot; whatever follows a second dot is dropped, and a
    dot that nothing follows is as no dot. *)
Theorem getMitreUrl_parts :
  (forall techniqueId,
     occurs "." techniqueId = false ->
     getMitreUrl techniqueId
     = (techniques_url ++ techniqueId ++ "/")%string)
  /\ (forall base sub rest,
        occurs "." base = false ->
        occurs "." sub = false ->
        let url :=
          match sub with
          | EmptyString => (techniques_url ++ base ++ "/")%string
          | _ => (techniques_url ++ base ++ "/" ++ sub ++ "/")%string
          end in
        getMitreUrl (base ++ "." ++ sub) = url
        /\ getMitreUrl (base ++ "." ++ sub ++ "." ++ rest) = url).
Proof.
  split; [exact getMitreUrl_no_dot | exact getMitreUrl_dotted].
Qed.

Lemma is_digit_upper (c : ascii) : is_digit (upper c) = is_digit c.
Proof.
  destruct c as [[] [] [] [] [] [] [] []]; vm_compute; reflexivity.
Qed.

Lemma technique_regex_test_upper (s : string) :
  technique_regex_test (toUpperCase s) = technique_regex_test s.
Proof.
  destruct s as [|t [|d1 [|d2 [|d3 [|d4 rest]]]]]; try reflexivity.
  cbn [toUpperCase technique_regex_test].
  rewrite upper_idempotent, !is_digit_upper. f_equal.
  destruct rest as [|dot [|e1 [|e2 [|e3 [|x rest]]]]]; try reflexivity.
  cbn [toUpperCase]. rewrite !is_digit_upper.
  rewrite (upper_keeps dot ".") by auto. reflexivity.
Qed.

Lemma toUpperCase_idempotent (s : string) :
  toUpperCase (toUpperCase s) = toUpperCase s.
Proof.
  induction s as [|c s IH]; cbn; [reflexivity|].
  now rewrite upper_idempotent, IH.
Qed.

Lemma toUpperCase_app (a b : string) :
  toUpperCase (a ++ b) = (toUpperCase a ++ toUpperCase b)%string.
Proof. induction a as [|c a IH]; cbn; [reflexivity | now rewrite IH]. Qed.

Lemma formatMitreTechnique_base (t : ascii) (digits : string) :
  (t = "t" \/ t = "T")%char ->
  String.length digits = 4 ->
  all_digits digits = true ->
  formatMitreTechnique (String t digits) = String "T" digits.
Proof.
  intros Ht Hl Hd. unfold formatMitreTechnique.
  assert (Hu : toUpperCase (String t digits) = String "T" digits).
  { cbn [toUpperCase]. rewrite (toUpperCase_digits _ Hd).
    destruct Ht as [-> | ->]; reflexivity. }
  rewrite Hu.
  replace (technique_regex_test (String t digits)) with true; [reflexivity|].
  destruct digits as [|d1 [|d2 [|d3 [|d4 [|x r]]]]]; try discriminate.
  cbn in Hd. cbn [technique_regex_test].
  repeat (apply andb_true_iff in Hd; destruct Hd as [?H Hd]).
  rewrite H, H0, H1, H2.
  destruct Ht as [-> | ->]; reflexivity.
Qed.

Lemma formatMitreTechnique_sub (t : ascii) (digits sub : string) :
  (t = "t" \/ t = "T")%char ->
  String.length digits = 4 ->
  all_digits digits = true ->
  String.length sub = 3 ->
  all_digits sub = true ->
  formatMitreTechnique (String t digits ++ "." ++ sub)
  = (String "T" digits ++ "." ++ sub)%string.
Proof.
  intros Ht Hl Hd Hls Hs. unfold formatMitreTechnique.
  assert (Hu : toUpperCase (String t digits ++ "." ++ sub)
               = (String "T" digits ++ "." ++ sub)%string).
  { rewrite !toUpperCase_app. cbn [toUpperCase].
    rewrite (toUpperCase_digits _ Hd), (toUpperCase_digits _ Hs).
    destruct Ht as [-> | ->]; reflexivity. }
  rewrite Hu.
  replace (technique_regex_test (String t digits ++ "." ++ sub)) with true;
    [reflexivity|].
  destruct digits as [|d1 [|d2 [|d3 [|d4 [|x r]]]]]; try discriminate.
  destruct sub as [|e1 [|e2 [|e3 [|y r]]]]; try discriminate.
  cbn in Hd, Hs. cbn [append technique_regex_test].
  repeat (apply andb_true_iff in Hd; destruct Hd as [?H Hd]).
  repeat (apply andb_true_iff in Hs; destruct Hs as [?H Hs]).
  rewrite H, H0, H1, H2, H3, H4, H5.
  destruct Ht as [-> | ->]; reflexivity.
Qed.

(** X21. [formatMitreTechnique] touches nothing but the ids of the form of a
    technique, T and four digits, or of a sub-technique, with a dot and
    three digits more, in either case of the letter; those it writes with
    a capital T, digits as they were. Formatting twice is formatting once,
    and the URL of a formatted id is that of the technique. *)
Theorem formatMitreTechnique_canonical :
  (forall technique,
     formatMitreTechnique (formatMitreTechnique technique)
     = formatMitreTechnique technique)
  /\ (forall technique,
        technique_regex_test technique = false ->
        formatMitreTechnique technique = technique)
  /\ (forall t digits,
        (t = "t" \/ t = "T")%char ->
        String.length digits = 4 ->
        all_digits digits = true ->
        formatMitreTechnique (String t digits) = String "T" digits
        /\ getMitreUrl (formatMitreTechnique (String t digits))
           = (techniques_url ++ String "T" digits ++ "/")%string)
  /\ (forall t digits sub,
        (t = "t" \/ t = "T")%char ->
        String.length digits = 4 ->
        all_digits digits = true ->
        String.length sub = 3 ->
        all_digits sub = true ->
        formatMitreTechnique (String t digits ++ "." ++ sub)
        = (String "T" digits ++ "." ++ sub)%string
        /\ getMitreUrl (formatMitreTechnique (String t digits ++ "." ++ sub))
           = (techniques_url ++ String "T" digits ++ "/" ++ sub ++ "/")%string).
Proof.
  split; [|split; [|split]].
  - intros t. unfold formatMitreTechnique.
    destruct (technique_regex_test t) eqn:Ht.
    + now rewrite technique_regex_test_upper, Ht, toUpperCase_idempotent.
    + now rewrite Ht.
  - intros t Ht. unfold formatMitreTechnique. now rewrite Ht.
  - intros t digits Ht Hl Hd.
    rewrite (formatMitreTechnique_base t digits Ht Hl Hd).
    split; [reflexivity|]. apply getMitreUrl_no_dot.
    cbn [occurs]. now rewrite (digits_no_dot _ Hd).
  - intros t digits sub Ht Hl Hd Hls Hs.
    rewrite (formatMitreTechnique_sub t digits sub Ht Hl Hd Hls Hs).
    split; [reflexivity|].
    destruct (getMitreUrl_dotted (String "T" digits) sub "") as [H _].
    + cbn [occurs]. now rewrite (digits_no_dot _ Hd).
    + now apply digits_no_dot.
    + rewrite H. destruct sub; [discriminate | reflexivity].
Qed.

End Mitre.

(** ** Relative times *)

Module DateTime.

(** A number that is whole or [NaN] ([None]). *)
Definition Number := option Z.

(** A [Date] by its time value in milliseconds, [NaN] for the invalid
    date. *)
Definition Date := Number.

Definition getTime (date : Date) : Number := date.

Definition isNaN (x : Number) : bool :=
  match x with
  | Some _ => false
  | None => true
  end.

(** [a - b] *)
Definition minus (a b : Number) : Number :=
  match a, b with
  | Some x, Some y => Some (x - y)%Z
  | _, _ => None
  end.

(** [Math.floor(a / k)] for a whole [k > 0]; with [a] below [2^53] in
    magnitude the rounded quotient has the floor of the exact one. *)
Definition floor_div (a : Number) (k : Z) : Number :=
  match a with
  | Some x => Some (x / k)%Z
  | None => None
  end.

(** [a < k] and [a > k]: false of [NaN]. *)
Definition lt (a : Number) (k : Z) : bool :=
  match a with
  | Some x => (x <? k)%Z
  | None => false
  end.

Definition gt (a : Number) (k : Z) : bool :=
  match a with
  | Some x => (x >? k)%Z
  | None => false
  end.

(** The decimal numeral of a whole number. *)
Definition decimal (n : Z) : string :=
  DecimalString.NilZero.string_of_int (Z.to_int n).

(** A number inside a template literal. *)
Definition to_string (x : Number) : string :=
  match x with
  | Some n => decimal n
  | None => "NaN"
  end.

(** The argument [date: Date | string]. *)
Inductive DateArgument :=
| OfDate (date : Date)
| OfString (text : string).

Section WithDateParse.

(** [new Date(text)], which is the engine's. *)
Variable new_Date : string -> Date.

Definition formatTimeAgo (date : DateArgument) (now : Date) : string :=
  let dateObj :=
    match date with
    | OfString text => new_Date text
    | OfDate date => date
    end in
  if isNaN (getTime dateObj) then "Invalid date"
  else
    let diffMs := minus (getTime now) (getTime dateObj) in
    let diffMins := floor_div diffMs 60000 in
    let diffHours := floor_div diffMs 3600000 in
    let diffDays := floor_div diffMs 86400000 in
    if lt diffMins 1 then "just now"
    else if lt diffMins 60 then
      (to_string diffMins ++ " minute"
       ++ (if gt diffMins 1 then "s" else "") ++ " ago")%string
    else if lt diffHours 24 then
      (to_string diffHours ++ " hour"
       ++ (if gt diffHours 1 then "s" else "") ++ " ago")%string
    else
      (to_string diffDays ++ " day"
       ++ (if gt diffDays 1 then "s" else "") ++ " ago")%string.

(** *** Properties *)

(** A floor of a quotient is below a whole number when the dividend is
    below the product. *)
Lemma floor_lt (e d : Z) :
  (0 < d)%Z -> forall k, (e / d <? k)%Z = (e <? d * k)%Z.
Proof.
  intros Hd k. destruct (Z.ltb_spec (e / d) k) as [H|H];
    destruct (Z.ltb_spec e (d * k)) as [G|G]; try reflexivity; exfalso.
  - apply (Z.div_le_mono _ _ d) in G; [|lia].
    rewrite Z.mul_comm, Z.div_mul in G; lia.
  - apply Z.div_lt_upper_bound in G; lia.
Qed.

(** The date that the argument stands for. *)
Definition date_of (date : DateArgument) : Date :=
  match date with
  | OfString text => new_Date text
  | OfDate date => date
  end.

(** "[count] [unit]s ago", with the plural for every count but one. *)
Definition ago (count : Z) (unit : string) : string :=
  (decimal count ++ " " ++ unit ++ (if (count =? 1)%Z then "" else "s")
   ++ " ago")%string.

(** X22. For a valid date and a valid [now], with [elapsed] the milliseconds
    from the one to the other: below a minute, and for any date in the
    future, the text is "just now"; below an hour it counts the whole
    minutes, from 1 to 59; below a day the whole hours, from 1 to 23;
    from a day on the whole days, 1 at least. The unit is in the plural
    for every count but one, and a count of zero is never shown. *)
Theorem formatTimeAgo_buckets (date : DateArgument) (time now : Z) :
  date_of date = Some time ->
  (Z.abs (now - time) < 2 ^ 53)%Z ->
  let elapsed := (now - time)%Z in
  formatTimeAgo date (Some now)
  = (if (elapsed <? 60000)%Z then "just now"
     else if (elapsed <? 3600000)%Z then ago (elapsed / 60000) "minute"
     else if (elapsed <? 86400000)%Z then ago (elapsed / 3600000) "hour"
     else ago (elapsed / 86400000) "day")
  /\ ((60000 <= elapsed < 3600000)%Z -> (1 <= elapsed / 60000 <= 59)%Z)
  /\ ((3600000 <= elapsed < 86400000)%Z -> (1 <= elapsed / 3600000 <= 23)%Z)
  /\ ((86400000 <= elapsed)%Z -> (1 <= elapsed / 86400000)%Z).
Proof.
  intros Hd _. cbv zeta.
  set (e := (now - time)%Z).
  pose proof (floor_lt e 60000 eq_refl) as Hm.
  pose proof (floor_lt e 3600000 eq_refl) as Hh.
  split; [|split; [|split]].
  - unfold formatTimeAgo. fold (date_of date). rewrite Hd.
    cbn [getTime isNaN minus floor_div lt gt to_string]. fold e.
    rewrite (Hm 1%Z), (Hm 60%Z), (Hh 24%Z).
    change (60000 * 1)%Z with 60000%Z.
    change (60000 * 60)%Z with 3600000%Z.
    change (3600000 * 24)%Z with 86400000%Z.
    destruct (Z.ltb_spec e 60000) as [H1|H1]; [reflexivity|].
    destruct (Z.ltb_spec e 3600000) as [H2|H2].
    { unfold ago. rewrite Z.gtb_ltb.
      assert (1 <= e / 60000)%Z by (apply Z.div_le_lower_bound; lia).
      destruct (Z.ltb_spec 1 (e / 60000)), (Z.eqb_spec (e / 60000) 1);
        try lia; reflexivity. }
    destruct (Z.ltb_spec e 86400000) as [H3|H3].
    { unfold ago. rewrite Z.gtb_ltb.
      assert (1 <= e / 3600000)%Z by (apply Z.div_le_lower_bound; lia).
      destruct (Z.ltb_spec 1 (e / 3600000)), (Z.eqb_spec (e / 3600000) 1);
        try lia; reflexivity. }
    unfold ago. rewrite Z.gtb_ltb.
    assert (1 <= e / 86400000)%Z by (apply Z.div_le_lower_bound; lia).
    destruct (Z.ltb_spec 1 (e / 86400000)), (Z.eqb_spec (e / 86400000) 1);
      try lia; reflexivity.
  - intros [H1 H2]. split; [apply Z.div_le_lower_bound; lia|].
    assert (e / 60000 < 60)%Z by (apply Z.div_lt_upper_bound; lia). lia.
  - intros [H1 H2]. split; [apply Z.div_le_lower_bound; lia|].
    assert (e / 3600000 < 24)%Z by (apply Z.div_lt_upper_bound; lia). lia.
  - intros H1. apply Z.div_le_lower_bound; lia.
Qed.

(** *** The relative times of the frontend *)

(** [formatTimeAgo] of packages/frontend/src/lib/utils/siem.ts; [now] is
    the time value of [new Date()]. *)
Definition siem_formatTimeAgo (dateStr : string) (now : Z) : string :=
  let date := new_Date dateStr in
  let diffMs := minus (Some now) (getTime date) in
  let diffMins := floor_div diffMs 60000 in
  let diffHours := floor_div diffMs 3600000 in
  let diffDays := floor_div diffMs 86400000 in
  if lt diffMins 1 then "Just now"
  else if lt diffMins 60 then (to_string diffMins ++ "m ago")%string
  else if lt diffHours 24 then (to_string diffHours ++ "h ago")%string
  else (to_string diffDays ++ "d ago")%string.

(** [formatTime] of RecentErrorsWidget.svelte. *)
Definition formatTime (time : string) (now : Z) : string :=
  let date := new_Date time in
  let diff := minus (Some now) (getTime date) in
  let minutes := floor_div diff 60000 in
  if lt minutes 1 then "Just now"
  else if lt minutes 60 then (to_string minutes ++ "m ago")%string
  else
    let hours := floor_div minutes 60 in
    if lt hours 24 then (to_string hours ++ "h ago")%string
    else
      let days := floor_div hours 24 in
      (to_string days ++ "d ago")%string.

(** X23. The two relative times of the frontend are the same text for every
    date, although the widget divides the minutes and then the hours
    where the other divides the milliseconds: for a valid date, "Just
    now" below a minute and in the future, then the whole minutes, hours
    or days with the bounds of [formatTimeAgo]; for a text that is no
    date, "NaNd ago", where [formatTimeAgo] says "Invalid date". *)
Theorem time_ago_variants_agree (text : string) (now : Z) :
  match new_Date text with
  | None =>
      formatTime text now = "NaNd ago"
      /\ siem_formatTimeAgo text now = "NaNd ago"
      /\ formatTimeAgo (OfString text) (Some now) = "Invalid date"
  | Some time =>
      (Z.abs (now - time) < 2 ^ 53)%Z ->
      let elapsed := (now - time)%Z in
      formatTime text now = siem_formatTimeAgo text now
      /\ siem_formatTimeAgo text now
         = (if (elapsed <? 60000)%Z then "Just now"
            else if (elapsed <? 3600000)%Z
                 then decimal (elapsed / 60000) ++ "m ago"
            else if (elapsed <? 86400000)%Z
                 then decimal (elapsed / 3600000) ++ "h ago"
            else decimal (elapsed / 86400000) ++ "d ago")%string
  end.
Proof.
  unfold formatTime, siem_formatTimeAgo, formatTimeAgo.
  destruct (new_Date text) as [time|]; [|repeat split].
  intros _. cbv zeta.
  cbn [getTime minus floor_div lt to_string].
  set (e := (now - time)%Z).
  rewrite !Z.div_div by lia.
  change (60000 * 60)%Z with 3600000%Z.
  change (3600000 * 24)%Z with 86400000%Z.
  split; [reflexivity|].
  pose proof (floor_lt e 60000 eq_refl) as Hm.
  pose proof (floor_lt e 3600000 eq_refl) as Hh.
  rewrite (Hm 1%Z), (Hm 60%Z), (Hh 24%Z). reflexivity.
Qed.

End WithDateParse.

Lemma formatTimeAgo_buckets_witness :
  formatTimeAgo (fun _ => None) (OfDate (Some 0%Z)) (Some 5400000%Z)
  = "1 hour ago".
Proof.
  exact (proj1 (formatTimeAgo_buckets (fun _ => None) (OfDate (Some 0%Z))
                  0 5400000 eq_refl eq_refl)).
Defined.

End DateTime.

(** ** Enrichment of detections *)

Module Enrichment.

Import JSString.

(** The value of a numeral of decimal digits. *)
Fixpoint digits_value (acc : Z) (s : string) : option Z :=
  match s with
  | EmptyString => Some acc
  | String c s' =>
      if is_digit c
      then digits_value (10 * acc + Z.of_nat (nat_of_ascii c - 48)) s'
      else None
  end.

(** [Number(s)] on the strings of decimal digits, which the parts of an
    address matched by [ipv4Regex] are; [None] is [NaN]. The other forms
    that [Number] reads (signs, fractions, exponents, other bases, white
    space) do not occur in such parts. *)
Definition Number (s : string) : option Z := digits_value 0 s.

(** [parts[i]]: [None] for [undefined] and for [NaN], of which every
    comparison is false. *)
Definition part (parts : list (option Z)) (i : nat) : option Z :=
  match nth_error parts i with
  | Some x => x
  | None => None
  end.

Definition eq (x : option Z) (k : Z) : bool :=
  match x with
  | Some n => (n =? k)%Z
  | None => false
  end.

Definition ge (x : option Z) (k : Z) : bool :=
  match x with
  | Some n => (k <=? n)%Z
  | None => false
  end.

Definition le (x : option Z) (k : Z) : bool :=
  match x with
  | Some n => (n <=? k)%Z
  | None => false
  end.

Definition isPrivateIp (ip : string) : bool :=
  let parts := map Number (split "." ip) in
  if eq (part parts 0) 10 then true
  else if eq (part parts 0) 172 && ge (part parts 1) 16
          && le (part parts 1) 31 then true
  else if eq (part parts 0) 192 && eq (part parts 1) 168 then true
  else if eq (part parts 0) 127 then true
  else if eq (part parts 0) 169 && eq (part parts 1) 254 then true
  else false.

(** *** Properties *)

(** A part of an address: one to three digits, 255 at most. *)
Definition octet (s : string) (value : Z) : Prop :=
  all_digits s = true /\ s <> "" /\ Number s = Some value
  /\ (0 <= value <= 255)%Z.

(** The address as a number of 32 bits. *)
Definition address (a b c d : Z) : Z :=
  (Z.shiftl a 24 + Z.shiftl b 16 + Z.shiftl c 8 + d)%Z.

(** The block [base/len] in CIDR notation: the addresses whose first
    [len] bits are those of [base]. *)
Definition in_block (addr base : Z) (len : Z) : Prop :=
  Z.shiftr addr (32 - len) = Z.shiftr base (32 - len).

Lemma split_quad (a b c d : string) :
  all_digits a = true -> all_digits b = true ->
  all_digits c = true -> all_digits d = true ->
  split "." (a ++ "." ++ b ++ "." ++ c ++ "." ++ d) = [a; b; c; d].
Proof.
  intros Ha Hb Hc Hd.
  change (a ++ "." ++ b ++ "." ++ c ++ "." ++ d)%string
    with (a ++ String "." (b ++ String "." (c ++ String "." d)))%string.
  rewrite !split_app by now apply digits_no_dot.
  rewrite split_none by now apply digits_no_dot. reflexivity.
Qed.

(** X24. On a dotted quad, [isPrivateIp] answers true exactly for the
    addresses of the five blocks that its comments name: 10.0.0.0/8,
    172.16.0.0/12, 192.168.0.0/16, 127.0.0.0/8 and 169.254.0.0/16. *)
Theorem isPrivateIp_blocks (a b c d : string) (va vb vc vd : Z) :
  octet a va -> octet b vb -> octet c vc -> octet d vd ->
  let addr := address va vb vc vd in
  isPrivateIp (a ++ "." ++ b ++ "." ++ c ++ "." ++ d) = true
  <-> in_block addr (address 10 0 0 0) 8
      \/ in_block addr (address 172 16 0 0) 12
      \/ in_block addr (address 192 168 0 0) 16
      \/ in_block addr (address 127 0 0 0) 8
      \/ in_block addr (address 169 254 0 0) 16.
Proof.
  intros (Ha & _ & Na & Ra) (Hb & _ & Nb & Rb) (Hc & _ & Nc & Rc)
    (Hd & _ & Nd & Rd).
  cbv zeta.
  assert (B10 : in_block (address va vb vc vd) (address 10 0 0 0) 8
                <-> va = 10%Z).
  { unfold in_block, address.
    rewrite !Z.shiftl_mul_pow2, !Z.shiftr_div_pow2 by lia.
    cbn. split; intros Hyp; [revert Hyp|]; Z.div_mod_to_equations; lia. }
  assert (B172 : in_block (address va vb vc vd) (address 172 16 0 0) 12
                 <-> va = 172%Z /\ (16 <= vb <= 31)%Z).
  { unfold in_block, address.
    rewrite !Z.shiftl_mul_pow2, !Z.shiftr_div_pow2 by lia.
    cbn. split; intros Hyp; [revert Hyp|]; Z.div_mod_to_equations; lia. }
  assert (B192 : in_block (address va vb vc vd) (address 192 168 0 0) 16
                 <-> va = 192%Z /\ vb = 168%Z).
  { unfold in_block, address.
    rewrite !Z.shiftl_mul_pow2, !Z.shiftr_div_pow2 by lia.
    cbn. split; intros Hyp; [revert Hyp|]; Z.div_mod_to_equations; lia. }
  assert (B127 : in_block (address va vb vc vd) (address 127 0 0 0) 8
                 <-> va = 127%Z).
  { unfold in_block, address.
    rewrite !Z.shiftl_mul_pow2, !Z.shiftr_div_pow2 by lia.
    cbn. split; intros Hyp; [revert Hyp|]; Z.div_mod_to_equations; lia. }
  assert (B169 : in_block (address va vb vc vd) (address 169 254 0 0) 16
                 <-> va = 169%Z /\ vb = 254%Z).
  { unfold in_block, address.
    rewrite !Z.shiftl_mul_pow2, !Z.shiftr_div_pow2 by lia.
    cbn. split; intros Hyp; [revert Hyp|]; Z.div_mod_to_equations; lia. }
  rewrite B10, B172, B192, B127, B169.
  unfold isPrivateIp.
  rewrite (split_quad a b c d Ha Hb Hc Hd).
  cbn [map part nth_error]. rewrite Na, Nb. cbn [eq ge le].
  destruct (Z.eqb_spec va 10); [tauto|].
  destruct (Z.eqb_spec va 172), (Z.leb_spec 16 vb), (Z.leb_spec vb 31);
    cbn [andb]; try (split; [reflexivity | lia]);
    try (split; [discriminate | lia]);
    (destruct (Z.eqb_spec va 192), (Z.eqb_spec vb 168); cbn [andb];
     try (split; [reflexivity | lia]);
     destruct (Z.eqb_spec va 127); try (split; [reflexivity | lia]);
     destruct (Z.eqb_spec va 169), (Z.eqb_spec vb 254); cbn [andb];
     split; intros Hyp; try reflexivity; try discriminate; lia).
Qed.

Lemma isPrivateIp_blocks_witness : isPrivateIp "172.20.0.1" = true.
Proof.
  refine (proj2 (isPrivateIp_blocks "172" "20" "0" "1" 172 20 0 1 _ _ _ _) _);
    [unfold octet; repeat split; (reflexivity || discriminate) ..
    | right; left; reflexivity].
Defined.

End Enrichment.

(** ** Severities *)

Module Severity.

(** packages/shared/src/constants/siem-constants.ts *)
Definition SEVERITIES : list string :=
  ["critical"; "high"; "medium"; "low"; "informational"].

(** packages/shared/src/constants/sigma-constants.ts *)
Definition SIGMA_LEVELS : list string :=
  ["informational"; "low"; "medium"; "high"; "critical"].

(** The functions take a [Severity], which is a string when the code
    runs; the [default] of each [switch] takes the other strings. *)
Definition getSeverityColor (severity : string) : string :=
  if (severity =? "critical")%string then "#a855f7"
  else if (severity =? "high")%string then "#ef4444"
  else if (severity =? "medium")%string then "#f97316"
  else if (severity =? "low")%string then "#eab308"
  else if (severity =? "informational")%string then "#3b82f6"
  else "#6b7280".

Definition getSeverityLabel (severity : string) : string :=
  if (severity =? "critical")%string then "Critical"
  else if (severity =? "high")%string then "High"
  else if (severity =? "medium")%string then "Medium"
  else if (severity =? "low")%string then "Low"
  else if (severity =? "informational")%string then "Informational"
  else severity.

Definition getSeverityWeight (severity : string) : nat :=
  if (severity =? "critical")%string then 5
  else if (severity =? "high")%string then 4
  else if (severity =? "medium")%string then 3
  else if (severity =? "low")%string then 2
  else if (severity =? "informational")%string then 1
  else 0.

(** *** Properties *)

(** The rank of a string in a list, from the end: the last entry has rank
    1, and a string that is not listed has rank 0. *)
Fixpoint rank (s : string) (l : list string) : nat :=
  match l with
  | [] => 0
  | x :: l' => if (s =? x)%string then S (List.length l') else rank s l'
  end.

Lemma In_SEVERITIES (s : string) :
  In s SEVERITIES
  <-> s = "critical" \/ s = "high" \/ s = "medium" \/ s = "low"
      \/ s = "informational".
Proof. cbn. intuition congruence. Qed.

Ltac by_name s :=
  destruct (String.eqb_spec s "critical") as [->|?];
  [|destruct (String.eqb_spec s "high") as [->|?];
    [|destruct (String.eqb_spec s "medium") as [->|?];
      [|destruct (String.eqb_spec s "low") as [->|?];
        [|destruct (String.eqb_spec s "informational") as [->|?]]]]].

(** X25. [getSeverityWeight] ranks the severities as [SEVERITIES] lists them,
    the first the heaviest, and as [SIGMA_LEVELS] lists its levels, the
    last the heaviest: the two constants hold the same five names in
    opposite orders. A string that is none of them weighs 0, less than
    each of them, is its own label and has the colour of no severity;
    two severities never share a weight or a colour. *)
Theorem getSeverityWeight_ranks (severity : string) :
  getSeverityWeight severity = rank severity SEVERITIES
  /\ getSeverityWeight severity = rank severity (rev SIGMA_LEVELS)
  /\ (getSeverityWeight severity = 0 <-> ~ In severity SEVERITIES)
  /\ (~ In severity SEVERITIES -> getSeverityLabel severity = severity)
  /\ (forall other,
        In severity SEVERITIES ->
        other <> severity ->
        getSeverityWeight other <> getSeverityWeight severity
        /\ getSeverityColor other <> getSeverityColor severity).
Proof.
  split; [reflexivity|]. split; [reflexivity|]. split; [|split].
  - rewrite In_SEVERITIES. unfold getSeverityWeight.
    by_name severity; split; try discriminate; try tauto;
      intros H'; exfalso; apply H'; tauto.
  - rewrite In_SEVERITIES. unfold getSeverityLabel.
    by_name severity; try reflexivity; intros H'; exfalso; apply H'; tauto.
  - intros other Hin Hne. apply In_SEVERITIES in Hin.
    unfold getSeverityWeight, getSeverityColor.
    destruct Hin as [-> | [-> | [-> | [-> | ->]]]]; cbn;
      by_name other; split; (discriminate || congruence).
Qed.

End Severity.

(** ** The traces table *)

Module Traces.

(** A [Date] by its time value in milliseconds; [None] is the invalid
    date, of which every comparison is false. *)
Definition Date := option Z.

Definition date_lt (a b : Date) : bool :=
  match a, b with
  | Some x, Some y => (x <? y)%Z
  | _, _ => false
  end.

Definition date_gt (a b : Date) : bool :=
  match a, b with
  | Some x, Some y => (x >? y)%Z
  | _, _ => false
  end.

(** [a.getTime() - b.getTime()]; [None] is [NaN]. *)
Definition time_between (a b : Date) : option Z :=
  match a, b with
  | Some x, Some y => Some (x - y)%Z
  | _, _ => None
  end.

(** [value || fallback] of an optional string: the empty string is falsy,
    as [undefined] is. *)
Definition or_else (value fallback : option string) : option string :=
  match value with
  | Some (String c s) => Some (String c s)
  | _ => fallback
  end.

(** The fields of an [AggregatedTrace] that [upsertTrace] reads;
    [start_time] and [end_time] are the dates that [new Date] makes of
    the fields. *)
Record AggregatedTrace := mkAggregatedTrace {
  trace_id : string;
  service_name : string;
  root_service_name : option string;
  root_operation_name : option string;
  start_time : Date;
  end_time : Date;
  duration_ms : option Z;
  span_count : Z;
  error : bool
}.

(** A row of the table [traces]. *)
Record TraceRow := mkTraceRow {
  row_trace_id : string;
  row_organization_id : string;
  row_project_id : string;
  row_service_name : string;
  row_root_service_name : option string;
  row_root_operation_name : option string;
  row_start_time : Date;
  row_end_time : Date;
  row_duration_ms : option Z;
  row_span_count : Z;
  row_error : bool
}.

(** How a query ends. *)
Inductive Query :=
| Executes
| Fails (reason : string).

Inductive Settled :=
| Fulfilled
| Rejected (reason : string).

(** [.where('trace_id', '=', traceId).where('project_id', '=', projectId)] *)
Definition selected (traceId projectId : string) (row : TraceRow) : bool :=
  ((row_trace_id row =? traceId) && (row_project_id row =? projectId))%string.

(** [upsertTrace]: the first query reads the first row of the trace, the
    second one inserts a row or updates the rows of the trace. A query
    that fails changes nothing and rejects the call. *)
Definition upsertTrace (select write : Query) (trace : AggregatedTrace)
  (projectId organizationId : string) (table : list TraceRow)
  : Settled * list TraceRow :=
  match select with
  | Fails reason => (Rejected reason, table)
  | Executes =>
      match find (selected (trace_id trace) projectId) table, write with
      | _, Fails reason => (Rejected reason, table)
      | None, Executes =>
          (Fulfilled,
           table
           ++ [mkTraceRow (trace_id trace) organizationId projectId
                 (service_name trace)
                 (or_else (root_service_name trace) None)
                 (or_else (root_operation_name trace) None)
                 (start_time trace) (end_time trace) (duration_ms trace)
                 (span_count trace) (error trace)])
      | Some existing, Executes =>
          let newStart := start_time trace in
          let newEnd := end_time trace in
          let existingStart := row_start_time existing in
          let existingEnd := row_end_time existing in
          let startTime :=
            if date_lt newStart existingStart then newStart
            else existingStart in
          let endTime :=
            if date_gt newEnd existingEnd then newEnd else existingEnd in
          let durationMs := time_between endTime startTime in
          (Fulfilled,
           map
             (fun row =>
                if selected (trace_id trace) projectId row then
                  mkTraceRow (row_trace_id row) (row_organization_id row)
                    (row_project_id row) (row_service_name row)
                    (or_else (root_service_name trace)
                       (row_root_service_name row))
                    (or_else (root_operation_name trace)
                       (row_root_operation_name row))
                    startTime endTime durationMs
                    (row_span_count existing + span_count trace)%Z
                    (row_error existing || error trace)
                else row)
             table)
      end
  end.

(** *** Properties *)

(** The parts of a trace upserted one after the other, every query being
    executed. *)
Definition upsert_all (parts : list AggregatedTrace)
  (projectId organizationId : string) (table : list TraceRow)
  : list TraceRow :=
  fold_left
    (fun table part =>
       snd (upsertTrace Executes Executes part projectId organizationId table))
    parts table.

(** What a row says of the parts that it was made of. *)
Definition aggregates (parts : list AggregatedTrace) (row : TraceRow)
  : Prop :=
  (exists start,
     row_start_time row = Some start
     /\ (exists part, In part parts /\ start_time part = Some start)
     /\ forall part s, In part parts -> start_time part = Some s ->
          (start <= s)%Z)
  /\ (exists finish,
        row_end_time row = Some finish
        /\ (exists part, In part parts /\ end_time part = Some finish)
        /\ forall part e, In part parts -> end_time part = Some e ->
             (e <= finish)%Z)
  /\ row_span_count row = fold_right Z.add 0%Z (map span_count parts)
  /\ row_error row = existsb error parts.

(** The parts of one trace, with valid dates. *)
Definition parts_of (traceId : string) (parts : list AggregatedTrace)
  : Prop :=
  forall part, In part parts ->
    trace_id part = traceId
    /\ (exists s, start_time part = Some s)
    /\ exists e, end_time part = Some e.

Lemma find_app_none (traceId projectId : string) (table : list TraceRow)
  (row : TraceRow) :
  (forall r, In r table -> selected traceId projectId r = false) ->
  selected traceId projectId row = true ->
  find (selected traceId projectId) (table ++ [row]) = Some row.
Proof.
  intros Hnone Hrow. induction table as [|r table IH]; cbn.
  - now rewrite Hrow.
  - rewrite (Hnone r (or_introl eq_refl)). apply IH.
    intros r' Hr'. apply Hnone. now right.
Qed.

Lemma find_none (traceId projectId : string) (table : list TraceRow) :
  (forall r, In r table -> selected traceId projectId r = false) ->
  find (selected traceId projectId) table = None.
Proof.
  intros Hnone. induction table as [|r table IH]; [reflexivity|]. cbn.
  rewrite (Hnone r (or_introl eq_refl)). apply IH.
  intros r' Hr'. apply Hnone. now right.
Qed.

Lemma map_unselected (traceId projectId : string) (table : list TraceRow)
  (f : TraceRow -> TraceRow) :
  (forall r, In r table -> selected traceId projectId r = false) ->
  map (fun row => if selected traceId projectId row then f row else row)
    table
  = table.
Proof.
  intros Hnone. induction table as [|r table IH]; [reflexivity|]. cbn.
  rewrite (Hnone r (or_introl eq_refl)). f_equal. apply IH.
  intros r' Hr'. apply Hnone. now right.
Qed.

Lemma sum_app (xs ys : list Z) :
  fold_right Z.add 0%Z (xs ++ ys)
  = (fold_right Z.add 0 xs + fold_right Z.add 0 ys)%Z.
Proof. induction xs as [|x xs IH]; cbn; [reflexivity | lia]. Qed.

Lemma sum_permutation (xs ys : list Z) :
  Permutation xs ys -> fold_right Z.add 0%Z xs = fold_right Z.add 0%Z ys.
Proof. induction 1; cbn; lia. Qed.

Lemma existsb_permutation {A : Type} (f : A -> bool) (xs ys : list A) :
  Permutation xs ys -> existsb f xs = existsb f ys.
Proof.
  induction 1 as [|x xs ys _ IH|x y xs|xs ys zs _ IH1 _ IH2]; cbn.
  - reflexivity.
  - now rewrite IH.
  - now destruct (f x), (f y).
  - now rewrite IH1.
Qed.

(** One more part of a trace that has its row. *)
Lemma upsertTrace_step (traceId projectId organizationId : string)
  (table : list TraceRow) (row : TraceRow) (done : list AggregatedTrace)
  (part : AggregatedTrace) :
  (forall r, In r table -> selected traceId projectId r = false) ->
  selected traceId projectId row = true ->
  aggregates done row ->
  parts_of traceId [part] ->
  exists row',
    snd (upsertTrace Executes Executes part projectId organizationId
           (table ++ [row]))
    = table ++ [row']
    /\ selected traceId projectId row' = true
    /\ row_service_name row' = row_service_name row
    /\ row_duration_ms row'
       = time_between (row_end_time row') (row_start_time row')
    /\ aggregates (done ++ [part]) row'.
Proof.
  intros Hnone Hrow (Hstart & Hend & Hcount & Herr) Hpart.
  destruct (Hpart part (or_introl eq_refl)) as (Hid & (s & Hs) & (e & He)).
  destruct Hstart as (s0 & Hs0 & (ps & Hps & Hpss) & Hmin).
  destruct Hend as (e0 & He0 & (pe & Hpe & Hpee) & Hmax).
  unfold upsertTrace. rewrite Hid, (find_app_none _ _ _ _ Hnone Hrow).
  cbv zeta. cbn [snd]. rewrite map_app, (map_unselected _ _ _ _ Hnone).
  cbn [map]. rewrite Hrow. eexists. split; [reflexivity|].
  split; [exact Hrow|]. split; [reflexivity|]. split; [reflexivity|].
  rewrite Hs, He, Hs0, He0. cbn [date_lt date_gt row_start_time row_end_time
    row_span_count row_error].
  split; [|split; [|split]].
  - destruct (Z.ltb_spec s s0) as [Hlt|Hge].
    + exists s. split; [reflexivity|]. split.
      * exists part. split; [apply in_or_app; right; now left | exact Hs].
      * intros p x Hp Hx. apply in_app_or in Hp.
        destruct Hp as [Hp|[<-|[]]].
        -- specialize (Hmin p x Hp Hx). lia.
        -- rewrite Hs in Hx. injection Hx as <-. lia.
    + exists s0. split; [reflexivity|]. split.
      * exists ps. split; [apply in_or_app; now left | exact Hpss].
      * intros p x Hp Hx. apply in_app_or in Hp.
        destruct Hp as [Hp|[<-|[]]].
        -- exact (Hmin p x Hp Hx).
        -- rewrite Hs in Hx. injection Hx as <-. lia.
  - rewrite Z.gtb_ltb. destruct (Z.ltb_spec e0 e) as [Hlt|Hge].
    + exists e. split; [reflexivity|]. split.
      * exists part. split; [apply in_or_app; right; now left | exact He].
      * intros p x Hp Hx. apply in_app_or in Hp.
        destruct Hp as [Hp|[<-|[]]].
        -- specialize (Hmax p x Hp Hx). lia.
        -- rewrite He in Hx. injection Hx as <-. lia.
    + exists e0. split; [reflexivity|]. split.
      * exists pe. split; [apply in_or_app; now left | exact Hpee].
      * intros p x Hp Hx. apply in_app_or in Hp.
        destruct Hp as [Hp|[<-|[]]].
        -- exact (Hmax p x Hp Hx).
        -- rewrite He in Hx. injection Hx as <-. lia.
  - rewrite map_app, sum_app, Hcount. cbn. lia.
  - rewrite existsb_app, Herr. cbn. now rewrite orb_false_r.
Qed.

Lemma upsert_all_step (traceId projectId organizationId : string)
  (table : list TraceRow) (rest done : list AggregatedTrace)
  (row : TraceRow) :
  (forall r, In r table -> selected traceId projectId r = false) ->
  selected traceId projectId row = true ->
  aggregates done row ->
  parts_of traceId rest ->
  exists row',
    upsert_all rest projectId organizationId (table ++ [row])
    = table ++ [row']
    /\ selected traceId projectId row' = true
    /\ row_service_name row' = row_service_name row
    /\ (rest <> [] ->
        row_duration_ms row'
        = time_between (row_end_time row') (row_start_time row'))
    /\ aggregates (done ++ rest) row'.
Proof.
  intros Hnone. revert done row.
  induction rest as [|part rest IH]; intros done row Hrow Hagg Hparts.
  - exists row. rewrite app_nil_r. split; [reflexivity|].
    split; [exact Hrow|]. split; [reflexivity|].
    split; [congruence | exact Hagg].
  - destruct (upsertTrace_step traceId projectId organizationId table row
                done part Hnone Hrow Hagg)
      as (row1 & Heq & Hsel & Hname & Hdur & Hagg1).
    { intros p [<-|[]]. apply Hparts. now left. }
    destruct (IH (done ++ [part]) row1 Hsel Hagg1)
      as (row' & Heq' & Hsel' & Hname' & Hdur' & Hagg').
    { intros p Hp. apply Hparts. now right. }
    exists row'. cbn [upsert_all fold_left]. rewrite Heq.
    fold (upsert_all rest projectId organizationId (table ++ [row1])).
    rewrite Heq'. split; [reflexivity|]. split; [exact Hsel'|].
    split; [congruence|]. rewrite <- app_assoc in Hagg'.
    split; [|exact Hagg'].
    intros _. destruct rest as [|part' rest].
    + cbn in Heq'. apply app_inj_tail in Heq'. destruct Heq' as [_ <-].
      exact Hdur.
    + apply Hdur'. discriminate.
Qed.

Lemma aggregates_unique (parts parts' : list AggregatedTrace)
  (row row' : TraceRow) :
  Permutation parts parts' ->
  aggregates parts row -> aggregates parts' row' ->
  row_start_time row' = row_start_time row
  /\ row_end_time row' = row_end_time row
  /\ row_span_count row' = row_span_count row
  /\ row_error row' = row_error row.
Proof.
  intros Hperm (Hs & He & Hc & Herr) (Hs' & He' & Hc' & Herr').
  destruct Hs as (s & -> & (p & Hp & Hps) & Hmin).
  destruct Hs' as (s' & -> & (p' & Hp' & Hps') & Hmin').
  destruct He as (e & -> & (q & Hq & Hqe) & Hmax).
  destruct He' as (e' & -> & (q' & Hq' & Hqe') & Hmax').
  assert (Hin : forall x, In x parts <-> In x parts').
  { intros x. split; apply Permutation_in;
      [exact Hperm | now apply Permutation_sym]. }
  split; [|split; [|split]].
  - f_equal. apply Z.le_antisymm.
    + apply (Hmin' p s); [now apply Hin | exact Hps].
    + apply (Hmin p' s'); [now apply Hin | exact Hps'].
  - f_equal. apply Z.le_antisymm.
    + apply (Hmax q' e'); [now apply Hin | exact Hqe'].
    + apply (Hmax' q e); [now apply Hin | exact Hqe].
  - rewrite Hc, Hc'. symmetry. apply sum_permutation.
    now apply Permutation_map.
  - rewrite Herr, Herr'. symmetry. now apply existsb_permutation.
Qed.

Lemma upsert_all_row (traceId projectId organizationId : string)
  (first : AggregatedTrace) (rest : list AggregatedTrace)
  (table : list TraceRow) :
  parts_of traceId (first :: rest) ->
  (forall r, In r table -> selected traceId projectId r = false) ->
  exists row,
    upsert_all (first :: rest) projectId organizationId table
    = table ++ [row]
    /\ row_trace_id row = traceId
    /\ row_project_id row = projectId
    /\ row_service_name row = service_name first
    /\ aggregates (first :: rest) row
    /\ (rest <> [] ->
        row_duration_ms row
        = time_between (row_end_time row) (row_start_time row)).
Proof.
  intros Hparts Hnone.
  destruct (Hparts first (or_introl eq_refl)) as (Hid & (s & Hs) & (e & He)).
  set (row0 :=
         mkTraceRow (trace_id first) organizationId projectId
           (service_name first) (or_else (root_service_name first) None)
           (or_else (root_operation_name first) None)
           (start_time first) (end_time first) (duration_ms first)
           (span_count first) (error first)).
  assert (Hfirst : snd (upsertTrace Executes Executes first projectId
                          organizationId table)
                   = table ++ [row0]).
  { unfold upsertTrace. rewrite Hid, (find_none _ _ _ Hnone).
    subst row0. now rewrite Hid. }
  assert (Hsel : selected traceId projectId row0 = true).
  { unfold selected. cbn. now rewrite Hid, !String.eqb_refl. }
  assert (Hagg : aggregates [first] row0).
  { unfold aggregates. cbn. rewrite Hs, He. repeat split.
    - exists s. split; [reflexivity|]. split.
      + exists first. auto.
      + intros p x [<-|[]] Hx. rewrite Hs in Hx. injection Hx as <-. lia.
    - exists e. split; [reflexivity|]. split.
      + exists first. auto.
      + intros p x [<-|[]] Hx. rewrite He in Hx. injection Hx as <-. lia.
    - lia.
    - now rewrite orb_false_r. }
  destruct (upsert_all_step traceId projectId organizationId table rest
              [first] row0 Hnone Hsel Hagg)
    as (row & Heq & Hsel' & Hname & Hdur & Hagg').
  { intros p Hp. apply Hparts. now right. }
  exists row. cbn [upsert_all fold_left]. rewrite Hfirst.
  fold (upsert_all rest projectId organizationId (table ++ [row0])).
  split; [exact Heq|].
  unfold selected in Hsel'. apply andb_true_iff in Hsel'.
  destruct Hsel' as [H1 H2]. apply String.eqb_eq in H1, H2.
  split; [exact H1|]. split; [exact H2|]. split; [exact Hname|].
  split; [exact Hagg' | exact Hdur].
Qed.

(** X26. The parts of a trace, upserted one after the other into a table that
    has no row of it, leave one row of the trace, after the rows that
    were there: it starts with the earliest part and ends with the
    latest, counts the spans of all parts, is in error when a part is,
    and bears the service of the first part; from the second part on its
    duration is the time from its start to its end. The order in which
    the parts arrive changes none of start, end, count and error. *)
Theorem upsertTrace_aggregates (traceId projectId organizationId : string)
  (first : AggregatedTrace) (rest : list AggregatedTrace)
  (table : list TraceRow) :
  parts_of traceId (first :: rest) ->
  (forall r, In r table -> selected traceId projectId r = false) ->
  exists row,
    upsert_all (first :: rest) projectId organizationId table
    = table ++ [row]
    /\ row_trace_id row = traceId
    /\ row_project_id row = projectId
    /\ row_service_name row = service_name first
    /\ aggregates (first :: rest) row
    /\ (rest <> [] ->
        row_duration_ms row
        = time_between (row_end_time row) (row_start_time row))
    /\ forall first' rest',
         Permutation (first :: rest) (first' :: rest') ->
         exists row',
           upsert_all (first' :: rest') projectId organizationId table
           = table ++ [row']
           /\ row_start_time row' = row_start_time row
           /\ row_end_time row' = row_end_time row
           /\ row_span_count row' = row_span_count row
           /\ row_error row' = row_error row.
Proof.
  intros Hparts Hnone.
  destruct (upsert_all_row traceId projectId organizationId first rest table
              Hparts Hnone)
    as (row & Heq & Hid & Hpid & Hname & Hagg & Hdur).
  exists row. repeat (split; [assumption|]).
  intros first' rest' Hperm.
  assert (Hparts' : parts_of traceId (first' :: rest')).
  { intros p Hp. apply Hparts.
    apply (Permutation_in p (Permutation_sym Hperm) Hp). }
  destruct (upsert_all_row traceId projectId organizationId first' rest'
              table Hparts' Hnone)
    as (row' & Heq' & _ & _ & _ & Hagg' & _).
  exists row'. split; [exact Heq'|].
  exact (aggregates_unique _ _ row row' Hperm Hagg Hagg').
Qed.

(** Two parts of a trace: the second one starts and ends earlier. *)
Definition late_part : AggregatedTrace :=
  mkAggregatedTrace "t1" "api" (Some "gateway") None (Some 10%Z)
    (Some 20%Z) (Some 10%Z) 3 false.

Definition early_part : AggregatedTrace :=
  mkAggregatedTrace "t1" "worker" None None (Some 5%Z) (Some 15%Z)
    (Some 10%Z) 2 true.

Lemma upsertTrace_aggregates_witness :
  exists row,
    upsert_all [late_part; early_part] "p1" "org" [] = [] ++ [row]
    /\ row_trace_id row = "t1"
    /\ row_project_id row = "p1"
    /\ row_service_name row = "api"
    /\ aggregates [late_part; early_part] row
    /\ ([early_part] <> [] ->
        row_duration_ms row
        = time_between (row_end_time row) (row_start_time row))
    /\ forall first' rest',
         Permutation [late_part; early_part] (first' :: rest') ->
         exists row',
           upsert_all (first' :: rest') "p1" "org" [] = [] ++ [row']
           /\ row_start_time row' = row_start_time row
           /\ row_end_time row' = row_end_time row
           /\ row_span_count row' = row_span_count row
           /\ row_error row' = row_error row.
Proof.
  apply (upsertTrace_aggregates "t1" "p1" "org" late_part [early_part] []).
  - intros part [<-|[<-|[]]]; cbn; eauto.
  - intros r [].
Defined.

End Traces.

(** ** The onboarding tutorial of the frontend *)

Module Onboarding.

Inductive OnboardingStep :=
| welcome
| create_organization
| create_project
| api_key
| first_log
| feature_tour
| completed.

Definition step_eqb (a b : OnboardingStep) : bool :=
  match a, b with
  | welcome, welcome
  | create_organization, create_organization
  | create_project, create_project
  | api_key, api_key
  | first_log, first_log
  | feature_tour, feature_tour
  | completed, completed => true
  | _, _ => false
  end.

Lemma step_eqb_spec (a b : OnboardingStep) : reflect (a = b) (step_eqb a b).
Proof. destruct a, b; constructor; congruence. Qed.

Record OnboardingState := mkOnboardingState {
  currentStep : OnboardingStep;
  completedSteps : list OnboardingStep;
  skipped : bool;
  organizationId : option string;
  projectId : option string;
  apiKey : option string;
  firstLogReceived : bool;
  startedAt : option string;
  completedAt : option string
}.

Definition defaultState : OnboardingState :=
  mkOnboardingState welcome [] false None None None false None None.

Definition STEP_ORDER : list OnboardingStep :=
  [welcome; create_organization; create_project; api_key; first_log;
   feature_tour; completed].

(** [STEP_ORDER.indexOf(step)]; every step is listed. *)
Fixpoint indexOf (l : list OnboardingStep) (step : OnboardingStep) : nat :=
  match l with
  | [] => 0
  | x :: l' => if step_eqb x step then 0 else S (indexOf l' step)
  end.

(** The methods of the store, as the functions that they pass to
    [update]; [now] is [new Date().toISOString()]. *)
Definition start (now : string) (state : OnboardingState) : OnboardingState :=
  mkOnboardingState welcome (completedSteps state) false
    (organizationId state) (projectId state) (apiKey state)
    (firstLogReceived state) (Some now) (completedAt state).

Definition nextStep (now : string) (state : OnboardingState)
  : OnboardingState :=
  let currentIndex := indexOf STEP_ORDER (currentStep state) in
  let nextIndex := currentIndex + 1 in
  if List.length STEP_ORDER <=? nextIndex then
    mkOnboardingState completed
      (completedSteps state ++ [currentStep state]) (skipped state)
      (organizationId state) (projectId state) (apiKey state)
      (firstLogReceived state) (startedAt state) (Some now)
  else
    mkOnboardingState (nth nextIndex STEP_ORDER completed)
      (completedSteps state ++ [currentStep state]) (skipped state)
      (organizationId state) (projectId state) (apiKey state)
      (firstLogReceived state) (startedAt state) (completedAt state).

Definition goToStep (step : OnboardingStep) (state : OnboardingState)
  : OnboardingState :=
  mkOnboardingState step (completedSteps state) (skipped state)
    (organizationId state) (projectId state) (apiKey state)
    (firstLogReceived state) (startedAt state) (completedAt state).

Definition completeStep (step : OnboardingStep) (moveToNext : bool)
  (now : string) (state : OnboardingState) : OnboardingState :=
  let newCompletedSteps :=
    if existsb (step_eqb step) (completedSteps state)
    then completedSteps state
    else completedSteps state ++ [step] in
  if negb moveToNext then
    mkOnboardingState (currentStep state) newCompletedSteps (skipped state)
      (organizationId state) (projectId state) (apiKey state)
      (firstLogReceived state) (startedAt state) (completedAt state)
  else
    let currentIndex := indexOf STEP_ORDER step in
    let nextStep := nth (currentIndex + 1) STEP_ORDER completed in
    mkOnboardingState nextStep newCompletedSteps (skipped state)
      (organizationId state) (projectId state) (apiKey state)
      (firstLogReceived state) (startedAt state)
      (if step_eqb nextStep completed then Some now else completedAt state).

Definition skip (now : string) (state : OnboardingState) : OnboardingState :=
  mkOnboardingState completed (completedSteps state) true
    (organizationId state) (projectId state) (apiKey state)
    (firstLogReceived state) (startedAt state) (Some now).

Definition setOrganizationId (orgId : string) (state : OnboardingState)
  : OnboardingState :=
  mkOnboardingState (currentStep state) (completedSteps state)
    (skipped state) (Some orgId) (projectId state) (apiKey state)
    (firstLogReceived state) (startedAt state) (completedAt state).

Definition setProjectId (id : string) (state : OnboardingState)
  : OnboardingState :=
  mkOnboardingState (currentStep state) (completedSteps state)
    (skipped state) (organizationId state) (Some id) (apiKey state)
    (firstLogReceived state) (startedAt state) (completedAt state).

Definition setApiKey (key : string) (state : OnboardingState)
  : OnboardingState :=
  mkOnboardingState (currentStep state) (completedSteps state)
    (skipped state) (organizationId state) (projectId state) (Some key)
    (firstLogReceived state) (startedAt state) (completedAt state).

Definition markFirstLogReceived (state : OnboardingState) : OnboardingState :=
  mkOnboardingState (currentStep state) (completedSteps state)
    (skipped state) (organizationId state) (projectId state) (apiKey state)
    true (startedAt state) (completedAt state).

Definition reset (_ : OnboardingState) : OnboardingState := defaultState.

(** The derived stores. *)
Definition isInProgress (state : OnboardingState) : bool :=
  negb (skipped state) && negb (step_eqb (currentStep state) completed).

Definition isOnboardingComplete (state : OnboardingState) : bool :=
  step_eqb (currentStep state) completed || skipped state.

(** [Math.round((completedCount / totalSteps) * 100)] with
    [totalSteps = 6]: the quotient is never half a unit off a whole
    number, so rounding is the floor of the quotient plus a half. *)
Definition onboardingProgress (state : OnboardingState) : nat :=
  let totalSteps := 6 in
  let completedCount := List.length (completedSteps state) in
  (2 * 100 * completedCount + totalSteps) / (2 * totalSteps).

(** *** Properties *)

(** The calls of the store. *)
Inductive Call :=
| Start (now : string)
| NextStep (now : string)
| GoToStep (step : OnboardingStep)
| CompleteStep (step : OnboardingStep) (moveToNext : bool) (now : string)
| Skip (now : string)
| SetOrganizationId (orgId : string)
| SetProjectId (id : string)
| SetApiKey (key : string)
| MarkFirstLogReceived
| ResetStore.

Definition call (c : Call) (state : OnboardingState) : OnboardingState :=
  match c with
  | Start now => start now state
  | NextStep now => nextStep now state
  | GoToStep step => goToStep step state
  | CompleteStep step moveToNext now => completeStep step moveToNext now state
  | Skip now => skip now state
  | SetOrganizationId orgId => setOrganizationId orgId state
  | SetProjectId id => setProjectId id state
  | SetApiKey key => setApiKey key state
  | MarkFirstLogReceived => markFirstLogReceived state
  | ResetStore => reset state
  end.

Definition calls (cs : list Call) (state : OnboardingState)
  : OnboardingState :=
  fold_left (fun state c => call c state) cs state.

(** A call that marks steps as done with [completeStep] only, and never
    the step [completed] itself. *)
Definition marks_by_completeStep (c : Call) : bool :=
  match c with
  | NextStep _ => false
  | CompleteStep step _ _ => negb (step_eqb step completed)
  | _ => true
  end.

Definition tidy (state : OnboardingState) : Prop :=
  NoDup (completedSteps state) /\ ~ In completed (completedSteps state).

Lemma existsb_step (step : OnboardingStep) (l : list OnboardingStep) :
  existsb (step_eqb step) l = true <-> In step l.
Proof.
  rewrite existsb_exists. split.
  - intros (x & Hx & Heq). destruct (step_eqb_spec step x); [now subst|].
    discriminate.
  - intros H. exists step. split; [exact H|].
    now destruct (step_eqb_spec step step).
Qed.

Lemma call_tidy (c : Call) (state : OnboardingState) :
  marks_by_completeStep c = true -> tidy state -> tidy (call c state).
Proof.
  intros Hc [Hnd Hnc].
  destruct c as [now|now|step|step moveToNext now|now|orgId|id|key| |];
    try discriminate; try (split; assumption).
  - cbn in Hc. apply negb_true_iff in Hc.
    assert (Hstep : step <> completed)
      by (destruct (step_eqb_spec step completed); congruence).
    assert (Hnew : NoDup (if existsb (step_eqb step) (completedSteps state)
                          then completedSteps state
                          else completedSteps state ++ [step])
                   /\ ~ In completed
                          (if existsb (step_eqb step) (completedSteps state)
                           then completedSteps state
                           else completedSteps state ++ [step])).
    { destruct (existsb (step_eqb step) (completedSteps state)) eqn:He;
        [now split|].
      split.
      - apply NoDup_app; [exact Hnd | repeat constructor; auto |].
        intros x Hx [Heq|[]]. subst x.
        apply (proj2 (existsb_step step (completedSteps state))) in Hx.
        congruence.
      - intros Hin. apply in_app_or in Hin.
        destruct Hin as [Hin|[Heq|[]]]; [auto | congruence]. }
    unfold call, completeStep. cbv zeta.
    destruct (negb moveToNext); exact Hnew.
  - split; [constructor | intros []].
Qed.

Lemma calls_tidy (cs : list Call) (state : OnboardingState) :
  forallb marks_by_completeStep cs = true ->
  tidy state -> tidy (calls cs state).
Proof.
  revert state. induction cs as [|c cs IH]; intros state Hcs Ht;
    [exact Ht|].
  cbn in Hcs. apply andb_true_iff in Hcs. destruct Hcs as [Hc Hcs].
  apply IH; [exact Hcs | now apply call_tidy].
Qed.

Definition tutorial : list OnboardingStep :=
  [welcome; create_organization; create_project; api_key; first_log;
   feature_tour].

Lemma tutorial_all (step : OnboardingStep) :
  step <> completed -> In step tutorial.
Proof. destruct step; cbn; intuition congruence. Qed.

Lemma progress_of_length (state : OnboardingState) :
  List.length (completedSteps state) <= 6 ->
  onboardingProgress state <= 100
  /\ (onboardingProgress state = 100
      <-> List.length (completedSteps state) = 6).
Proof.
  unfold onboardingProgress. cbv zeta.
  destruct (List.length (completedSteps state)) as [|[|[|[|[|[|[|n]]]]]]];
    intros H; try lia; cbn; split; try lia; split; intros; lia.
Qed.

(** X27. As long as steps are marked with [completeStep] only, and never the
    step [completed] itself, whatever other calls are made: no step is
    recorded twice, the progress is 100 at most, and it is 100 exactly
    when the six steps of the tutorial are recorded; the tutorial is in
    progress exactly when it is not complete. From there, after a
    [reset], the six steps completed in order end the tutorial: the
    current step is [completed], the completion time is set, the six
    steps are recorded in order and the progress is 100. *)
Theorem completeStep_progress (cs : list Call) :
  forallb marks_by_completeStep cs = true ->
  let state := calls cs defaultState in
  NoDup (completedSteps state)
  /\ onboardingProgress state <= 100
  /\ (onboardingProgress state = 100
      <-> forall step, step <> completed -> In step (completedSteps state))
  /\ isInProgress state = negb (isOnboardingComplete state)
  /\ forall now,
       let done :=
         calls
           (map (fun step => CompleteStep step true now) tutorial)
           (reset state) in
       currentStep done = completed
       /\ completedAt done = Some now
       /\ completedSteps done = tutorial
       /\ onboardingProgress done = 100.
Proof.
  intros Hcs. cbv zeta.
  assert (Ht : tidy defaultState) by (split; [constructor | intros []]).
  destruct (calls_tidy cs defaultState Hcs Ht) as [Hnd Hnc].
  set (state := calls cs defaultState) in *.
  assert (Hincl : incl (completedSteps state) tutorial).
  { intros step Hstep. apply tutorial_all. intros ->. contradiction. }
  assert (Hlen : List.length (completedSteps state) <= 6)
    by exact (NoDup_incl_length Hnd Hincl).
  destruct (progress_of_length state Hlen) as [Hle Hiff].
  split; [exact Hnd|]. split; [exact Hle|]. split; [|split].
  - rewrite Hiff. split.
    + intros H6 step Hstep.
      apply (NoDup_length_incl Hnd (l' := tutorial));
        [cbn; lia | exact Hincl | now apply tutorial_all].
    + intros Hall.
      assert (H6 : List.length tutorial <= List.length (completedSteps state)).
      { apply NoDup_incl_length.
        - repeat constructor; cbn; intuition discriminate.
        - intros step Hstep. apply Hall. intros ->.
          cbn in Hstep. intuition discriminate. }
      cbn in H6. lia.
  - unfold isInProgress, isOnboardingComplete.
    now destruct (skipped state), (step_eqb (currentStep state) completed).
  - intros now. repeat split.
Qed.

Lemma completeStep_progress_witness :
  onboardingProgress
    (calls [Start "2025-01-01T00:00:00.000Z";
            CompleteStep welcome true "2025-01-01T00:01:00.000Z"]
       defaultState)
  <= 100.
Proof.
  exact (proj1 (proj2 (completeStep_progress
                         [Start "2025-01-01T00:00:00.000Z";
                          CompleteStep welcome true "2025-01-01T00:01:00.000Z"]
                         eq_refl))).
Defined.

End Onboarding.
